(** * SPEAD: descriptor encoding (send_heap.cpp), the receive stream
      (recv_stream.cpp, recv_stream.h, recv_heap.h) and the interpreter
      lock of the Python bindings (py_common.h)

    Part I holds the embedding of the C++ code, Part II the properties.
    Integers of fixed width are [Z] with their conversions written out,
    bytes are [Z] in [0, 256), exceptions and failed assertions are the
    constructors of [outcome].  The virtual [heap_ready] is a sink: each
    call is recorded with the heap it receives and the live collection as
    it stands during the call. *)

From Equations Require Import Equations.
From Stdlib Require Import ZArith List Bool Lia Sorted Permutation.
Import ListNotations.
Local Open Scope Z_scope.

(* ================================================================== *)
(** * Part I: the embedding *)
(* ================================================================== *)

(** ** Outcomes of fallible code *)

(** What a C++ call can do other than return: throw
    [std::invalid_argument], trip an [assert], or be refused by the pointer
    encoder of send_utils.h (how that one fails is not in the sources at
    hand, so its refusal is kept apart from the other two). *)
Inductive outcome (A : Type) : Type :=
| Returns (a : A)
| Throws_invalid_argument
| Assertion_fails
| Pointer_rejected.

Arguments Returns {A} a.
Arguments Throws_invalid_argument {A}.
Arguments Assertion_fails {A}.
Arguments Pointer_rejected {A}.

Definition bind {A B : Type} (c : outcome A) (k : A -> outcome B) : outcome B :=
  match c with
  | Returns a => k a
  | Throws_invalid_argument => Throws_invalid_argument
  | Assertion_fails => Assertion_fails
  | Pointer_rejected => Pointer_rejected
  end.

Notation "x <- c ;; k" := (bind c (fun x => k))
  (at level 61, c at next level, right associativity).

Definition assert (b : bool) : outcome unit :=
  if b then Returns tt else Assertion_fails.

(** [for (const auto &x : xs)] with a fallible body that appends bytes. *)
Fixpoint for_each {A : Type} (body : A -> outcome (list Z)) (xs : list A)
  : outcome (list Z) :=
  match xs with
  | [] => Returns []
  | x :: rest =>
      bytes <- body x ;;
      more <- for_each body rest ;;
      Returns (bytes ++ more)
  end.

(** ** Integer types *)

Definition to_size_t (z : Z) : Z := z mod 2 ^ 64.
Definition to_uint64 (z : Z) : Z := z mod 2 ^ 64.
Definition to_uint8 (z : Z) : Z := z mod 2 ^ 8.
Definition to_int (z : Z) : Z := (z + 2 ^ 31) mod 2 ^ 32 - 2 ^ 31.
Definition to_int64 (z : Z) : Z := (z + 2 ^ 63) mod 2 ^ 64 - 2 ^ 63.

(** [std::string::size()], [std::vector::size()]. *)
Definition size {A : Type} (l : list A) : Z := Z.of_nat (length l).

(** The [len] low-order bytes of [v], most significant first. *)
Fixpoint be_bytes (len : nat) (v : Z) : list Z :=
  match len with
  | O => []
  | S n => be_bytes n (v / 256) ++ [v mod 256]
  end.

(** The number a byte string denotes when read big-endian. *)
Definition be_value (bytes : list Z) : Z :=
  fold_left (fun acc b => acc * 256 + b) bytes 0.

(** [htobe<std::uint64_t>(v)] seen as the eight bytes it leaves in memory. *)
Definition htobe64 (v : Z) : list Z := be_bytes 8 (to_uint64 v).

(** ** Constants of common_defines.h *)

(** Modelled from the spec: common_defines.h is absent.  The spec's glossary
    and wire format fix the item pointer at eight bytes
    ([item_pointer_t] is a 64-bit word, [s_item_pointer_t] its signed
    twin). *)
Definition sizeof_item_pointer_t : Z := 8.

(** The item ids and bug-compatibility bits that common_defines.h declares.
    The header is absent, so the code is embedded over any choice of them. *)
Record common_defines : Type := {
  HEAP_CNT_ID : Z;
  HEAP_LENGTH_ID : Z;
  PAYLOAD_OFFSET_ID : Z;
  PAYLOAD_LENGTH_ID : Z;
  DESCRIPTOR_ID : Z;
  DESCRIPTOR_ID_ID : Z;
  DESCRIPTOR_NAME_ID : Z;
  DESCRIPTOR_DESCRIPTION_ID : Z;
  DESCRIPTOR_FORMAT_ID : Z;
  DESCRIPTOR_SHAPE_ID : Z;
  DESCRIPTOR_DTYPE_ID : Z;
  BUG_COMPAT_DESCRIPTOR_WIDTHS : Z;
  BUG_COMPAT_SHAPE_BIT_1 : Z
}.

(** [bug_compat & BIT] used as a condition. *)
Definition has_bug (bug_compat bit : Z) : bool :=
  negb (Z.land bug_compat bit =? 0).

(** The values SPEAD assigns (used by the worked examples only). *)
Definition spead_defines : common_defines := {|
  HEAP_CNT_ID := 0x01;
  HEAP_LENGTH_ID := 0x02;
  PAYLOAD_OFFSET_ID := 0x03;
  PAYLOAD_LENGTH_ID := 0x04;
  DESCRIPTOR_ID := 0x05;
  DESCRIPTOR_ID_ID := 0x14;
  DESCRIPTOR_NAME_ID := 0x10;
  DESCRIPTOR_DESCRIPTION_ID := 0x11;
  DESCRIPTOR_FORMAT_ID := 0x13;
  DESCRIPTOR_SHAPE_ID := 0x12;
  DESCRIPTOR_DTYPE_ID := 0x15;
  BUG_COMPAT_DESCRIPTOR_WIDTHS := 1;
  BUG_COMPAT_SHAPE_BIT_1 := 2
|}.

(** ** namespace spead::send *)

Module send.

(** The descriptor as [encode_descriptor] reads it: [id] is an
    [s_item_pointer_t], the strings are byte strings, a format entry is a
    pair of a type code (a [char]) and a width, a negative shape entry is a
    variable dimension. *)
Record descriptor : Type := {
  id : Z;
  name : list Z;
  description : list Z;
  format : list (Z * Z);
  shape : list Z;
  numpy_header : list Z
}.

(** Modelled from the spec: send_utils.h ([pointer_encoder]) is absent.
    Section 4.2: [encode_address(id, offset)] validates
    [0 < id < 2^(pointer_width - 1 - heap_address_bits)] and
    [0 <= value < 2^heap_address_bits] and packs the two under a clear
    immediate flag; [encode_immediate] is the same with the flag (the top
    bit of the word) set. *)
Definition encode_address (heap_address_bits id value : Z) : outcome Z :=
  if (0 <? id) && (id <? 2 ^ (8 * sizeof_item_pointer_t - 1 - heap_address_bits))
     && (0 <=? value) && (value <? 2 ^ heap_address_bits)
  then Returns (Z.lor (Z.shiftl id heap_address_bits) value)
  else Pointer_rejected.

Definition encode_immediate (heap_address_bits id value : Z) : outcome Z :=
  word <- encode_address heap_address_bits id value ;;
  Returns (Z.lor (Z.shiftl 1 (8 * sizeof_item_pointer_t - 1)) word).

(** [store_bytes_be(ptr, len, value)]: the bytes it writes at [ptr].
    [value] is an [item_pointer_t]. *)
Definition store_bytes_be (len : Z) (value : Z) : outcome (list Z) :=
  _ <- assert ((0 <=? len) && (len <=? sizeof_item_pointer_t)) ;;
  _ <- assert ((len =? sizeof_item_pointer_t)
               || (value <? to_uint64 (Z.shiftl 1 (8 * len)))) ;;
  Returns (skipn (Z.to_nat (sizeof_item_pointer_t - len)) (htobe64 value)).

Section encode.

Variable K : common_defines.

(** [s_item_pointer_t(1) << count] is defined by C++ only for
    [count < 64]; [wide_shift count] stands for what the target leaves in
    the register for a larger count. *)
Variable wide_shift : Z -> Z.

Definition shift_one_left (count : Z) : Z :=
  if count <? 64 then to_int64 (Z.shiftl 1 count) else wide_shift count.

Definition field_size (heap_address_bits bug_compat : Z) : Z :=
  to_int (if has_bug bug_compat (BUG_COMPAT_DESCRIPTOR_WIDTHS K)
          then 4
          else to_size_t (sizeof_item_pointer_t + 1
                          - to_size_t (Z.quot heap_address_bits 8))).

Definition shape_size (heap_address_bits bug_compat : Z) : Z :=
  if has_bug bug_compat (BUG_COMPAT_DESCRIPTOR_WIDTHS K)
  then 8
  else to_int (1 + Z.quot heap_address_bits 8).

(** The operand of the shift on line 53:
    [sizeof(item_pointer_t) - 1 - heap_address_bits], computed in
    [std::size_t]. *)
Definition id_shift_count (heap_address_bits : Z) : Z :=
  to_size_t (sizeof_item_pointer_t - 1 - to_size_t heap_address_bits).

(** The condition of the [if] on line 53. *)
Definition id_out_of_range (d : descriptor) (heap_address_bits : Z) : bool :=
  (id d <=? 0) || (shift_one_left (id_shift_count heap_address_bits) <=? id d).

Definition variable_tag (bug_compat : Z) : Z :=
  if has_bug bug_compat (BUG_COMPAT_SHAPE_BIT_1 K) then 2 else 1.

(** Body of the loop over [d.format]. *)
Definition encode_field (field_size : Z) (field : Z * Z) : outcome (list Z) :=
  rest <- store_bytes_be (field_size - 1) (to_uint64 (snd field)) ;;
  Returns (to_uint8 (fst field) :: rest).

(** Body of the loop over [d.shape]. *)
Definition encode_dim (shape_size variable_tag : Z) (dim : Z) : outcome (list Z) :=
  rest <- store_bytes_be (shape_size - 1) (if dim <? 0 then 0 else dim) ;;
  Returns ((if dim <? 0 then variable_tag else 0) :: rest).

(** [encode_descriptor]: the blob it allocates and fills, with its size. *)
Definition encode_descriptor (d : descriptor) (heap_address_bits bug_compat : Z)
  : outcome (list Z * Z) :=
  let field_size := field_size heap_address_bits bug_compat in
  let shape_size := shape_size heap_address_bits bug_compat in
  if id_out_of_range d heap_address_bits then Throws_invalid_argument else
  let have_numpy := negb (size (numpy_header d) =? 0) in
  let n_items := 9 + (if have_numpy then 1 else 0) in
  let payload_size :=
    to_size_t (size (name d)
               + size (description d)
               + size (format d) * to_size_t field_size
               + size (shape d) * to_size_t shape_size
               + size (numpy_header d)) in
  let total_size :=
    to_size_t (payload_size + n_items * sizeof_item_pointer_t + 8) in
  let offset := 0 in
  let header :=
    htobe64 (Z.lor (Z.lor (Z.lor
               (to_uint64 (Z.shiftl 0x5304 48))
               (to_uint64 (Z.shiftl (to_uint64 (8 - Z.quot heap_address_bits 8)) 40)))
               (to_uint64 (Z.shiftl (to_uint64 (Z.quot heap_address_bits 8)) 32)))
               n_items) in
  p1 <- encode_immediate heap_address_bits (HEAP_CNT_ID K) 1 ;;
  p2 <- encode_immediate heap_address_bits (HEAP_LENGTH_ID K) payload_size ;;
  p3 <- encode_immediate heap_address_bits (PAYLOAD_OFFSET_ID K) 0 ;;
  p4 <- encode_immediate heap_address_bits (PAYLOAD_LENGTH_ID K) payload_size ;;
  p5 <- encode_immediate heap_address_bits (DESCRIPTOR_ID_ID K) (id d) ;;
  p6 <- encode_address heap_address_bits (DESCRIPTOR_NAME_ID K) offset ;;
  let offset := to_size_t (offset + size (name d)) in
  p7 <- encode_address heap_address_bits (DESCRIPTOR_DESCRIPTION_ID K) offset ;;
  let offset := to_size_t (offset + size (description d)) in
  p8 <- encode_address heap_address_bits (DESCRIPTOR_FORMAT_ID K) offset ;;
  let offset := to_size_t (offset + size (format d) * to_size_t field_size) in
  p9 <- encode_address heap_address_bits (DESCRIPTOR_SHAPE_ID K) offset ;;
  let offset := to_size_t (offset + size (shape d) * to_size_t shape_size) in
  p10 <- (if have_numpy
          then p <- encode_address heap_address_bits (DESCRIPTOR_DTYPE_ID K) offset ;;
               Returns [p]
          else Returns []) ;;
  let offset := if have_numpy then to_size_t (offset + size (numpy_header d))
                else offset in
  _ <- assert (offset =? payload_size) ;;
  let pointers := [p1; p2; p3; p4; p5; p6; p7; p8; p9] ++ p10 in
  fields <- for_each (encode_field field_size) (format d) ;;
  dims <- for_each (encode_dim shape_size (variable_tag bug_compat)) (shape d) ;;
  let out := header ++ concat (map htobe64 pointers)
             ++ name d ++ description d ++ fields ++ dims
             ++ (if have_numpy then numpy_header d else []) in
  _ <- assert (to_size_t (size out) =? total_size) ;;
  Returns (out, total_size).

End encode.

(** An item of a send heap as [add_descriptor] builds it:
    [item(id, ptr, length, is_inline)], the pointed-to bytes held by value. *)
Record item : Type := {
  item_id : Z;
  item_data : list Z;
  item_length : Z;
  item_is_inline : bool
}.

Record heap : Type := {
  cnt : Z;
  heap_address_bits : Z;
  bug_compat : Z;
  items : list item;
  storage : list (list Z)
}.

(** [heap::heap(cnt, heap_address_bits, bug_compat)]. *)
Definition heap_ctor (cnt heap_address_bits bug_compat : Z) : outcome heap :=
  if (heap_address_bits <=? 0)
     || (8 * to_int sizeof_item_pointer_t <=? heap_address_bits)
     || negb (Z.rem heap_address_bits 8 =? 0)
  then Throws_invalid_argument
  else Returns {| cnt := cnt; heap_address_bits := heap_address_bits;
                  bug_compat := bug_compat; items := []; storage := [] |}.

(** [heap::add_descriptor]. *)
Definition add_descriptor (K : common_defines) (wide_shift : Z -> Z)
    (h : heap) (d : descriptor) : outcome heap :=
  blob <- encode_descriptor K wide_shift d (heap_address_bits h) (bug_compat h) ;;
  Returns {| cnt := cnt h; heap_address_bits := heap_address_bits h;
             bug_compat := bug_compat h;
             items := items h ++ [{| item_id := DESCRIPTOR_ID K;
                                     item_data := fst blob;
                                     item_length := snd blob;
                                     item_is_inline := false |}];
             storage := storage h ++ [fst blob] |}.

(** The shift of a 64-bit register on x86-64 and AArch64 uses the low six
    bits of the count. *)
Definition masked_shift (count : Z) : Z :=
  to_int64 (Z.shiftl 1 (count mod 64)).

End send.

(** ** namespace spead::recv *)

Module recv.

(** [std::shared_ptr<mempool>]: null, or the identity of a pool. *)
Definition mempool_ptr : Type := option nat.

(** Modelled from the spec: recv_packet.h is absent.  Section 3, "Packet
    header (decoded form)": heap count, heap length (or unknown, -1),
    payload offset, payload length, the flavour, the item pointers not
    consumed into the named fields, and the payload bytes. *)
Record packet_header : Type := {
  heap_cnt : Z;
  heap_length : Z;
  payload_offset : Z;
  payload_length : Z;
  heap_address_bits : Z;
  pointers : list Z;
  payload : list Z
}.

(** [class heap] of recv_heap.h: its data members and the inline [cnt()]. *)
Module heap.

Record t : Type := {
  heap_cnt : Z;
  heap_length : Z;
  received_length : Z;
  end_of_stream : bool;
  min_length : Z;
  heap_address_bits : Z;
  bug_compat : Z;
  payload : list Z;
  payload_reserved : Z;
  pointers : list Z;
  packet_offsets : list Z;
  pool : mempool_ptr
}.

Definition cnt (h : t) : Z := heap_cnt h.

End heap.

(** The member functions that recv_heap.h declares and recv_heap.cpp (absent)
    defines.  The stream is embedded over any implementation of them. *)
Record heap_members : Type := {
  heap_ctor : Z -> Z -> heap.t;
  heap_set_mempool : heap.t -> mempool_ptr -> heap.t;
  heap_add_packet : heap.t -> packet_header -> bool * heap.t;
  is_complete : heap.t -> bool;
  is_end_of_stream : heap.t -> bool
}.

(** [class stream_base] of recv_stream.h. *)
Record stream_base : Type := {
  max_heaps : Z;
  heaps : list heap.t;
  stopped : bool;
  bug_compat : Z;
  pool : mempool_ptr
}.

(** One call of the virtual [heap_ready]: the heap handed over, and the live
    collection as it stands while the call runs. *)
Record ready_call : Type := {
  ready_heap : heap.t;
  live_at_call : list heap.t
}.

(** [stream_base::stream_base(bug_compat, max_heaps)]. *)
Definition stream_base_ctor (bug_compat max_heaps : Z) : stream_base :=
  {| max_heaps := max_heaps; heaps := []; stopped := false;
     bug_compat := bug_compat; pool := None |}.

Definition set_max_heaps (s : stream_base) (max_heaps : Z) : stream_base :=
  {| max_heaps := max_heaps; heaps := heaps s; stopped := stopped s;
     bug_compat := bug_compat s; pool := pool s |}.

Definition set_mempool (s : stream_base) (pool : mempool_ptr) : stream_base :=
  {| max_heaps := max_heaps s; heaps := heaps s; stopped := stopped s;
     bug_compat := bug_compat s; pool := pool |}.

(** Assignment to the private member [heaps]. *)
Definition with_heaps (s : stream_base) (hs : list heap.t) : stream_base :=
  {| max_heaps := max_heaps s; heaps := hs; stopped := stopped s;
     bug_compat := bug_compat s; pool := pool s |}.

(** [std::deque] operations at an iterator, the iterator being an index. *)
Definition deque_assign (hs : list heap.t) (it : nat) (h : heap.t) : list heap.t :=
  firstn it hs ++ h :: skipn (S it) hs.

Definition deque_erase (hs : list heap.t) (it : nat) : list heap.t :=
  firstn it hs ++ skipn (S it) hs.

Definition deque_insert (hs : list heap.t) (it : nat) (h : heap.t) : list heap.t :=
  firstn it hs ++ h :: skipn it hs.

(** The scan of [add_packet] for a live heap with the packet's count, from
    iterator [it] on: the match, if any, and [insert_before]. *)
Fixpoint find_heap (hs : list heap.t) (packet_heap_cnt : Z) (it insert_before : nat)
  : option (nat * heap.t) * nat :=
  match hs with
  | [] => (None, insert_before)
  | h :: rest =>
      if heap.cnt h =? packet_heap_cnt then (Some (it, h), insert_before)
      else if heap.cnt h <? packet_heap_cnt
           then find_heap rest packet_heap_cnt (S it) (S it)
           else find_heap rest packet_heap_cnt (S it) insert_before
  end.

(** [stream_base::flush]. *)
Definition flush (s : stream_base) : stream_base * list ready_call :=
  (with_heaps s [],
   map (fun h => {| ready_heap := h; live_at_call := heaps s |}) (heaps s)).

(** [stream_base::stop]. *)
Definition stop (s : stream_base) : stream_base * list ready_call :=
  flush {| max_heaps := max_heaps s; heaps := heaps s; stopped := true;
           bug_compat := bug_compat s; pool := pool s |}.

(** What [add_packet] holds just before its final [if (end_of_stream)]. *)
Record dispatched : Type := {
  result : bool;
  saw_end_of_stream : bool;
  after : stream_base;
  calls : list ready_call
}.

Section stream.

Variable M : heap_members.

(** [add_packet] from the scan up to, not including, the final
    [if (end_of_stream) stop();]. *)
Definition dispatch (s : stream_base) (packet : packet_header) : dispatched :=
  match find_heap (heaps s) (heap_cnt packet) 0 0 with
  | (Some (it, h), _) =>
      let (accepted, h') := heap_add_packet M h packet in
      let live := deque_assign (heaps s) it h' in
      if accepted then
        if is_complete M h' then
          {| result := true; saw_end_of_stream := is_end_of_stream M h';
             after := with_heaps s (deque_erase live it);
             calls := [{| ready_heap := h'; live_at_call := live |}] |}
        else
          {| result := true; saw_end_of_stream := is_end_of_stream M h';
             after := with_heaps s live; calls := [] |}
      else
        {| result := false; saw_end_of_stream := false;
           after := with_heaps s live; calls := [] |}
  | (None, insert_before) =>
      let h := heap_set_mempool M (heap_ctor M (heap_cnt packet) (bug_compat s))
                 (pool s) in
      let (accepted, h') := heap_add_packet M h packet in
      if accepted then
        if is_complete M h' then
          {| result := true; saw_end_of_stream := is_end_of_stream M h';
             after := s;
             calls := [{| ready_heap := h'; live_at_call := heaps s |}] |}
        else
          let live := deque_insert (heaps s) insert_before h' in
          if max_heaps s <? size live then
            {| result := true; saw_end_of_stream := is_end_of_stream M h';
               after := with_heaps s (tl live);
               calls := match live with
                        | h0 :: _ => [{| ready_heap := h0; live_at_call := live |}]
                        | [] => []
                        end |}
          else
            {| result := true; saw_end_of_stream := is_end_of_stream M h';
               after := with_heaps s live; calls := [] |}
      else
        {| result := false; saw_end_of_stream := false; after := s; calls := [] |}
  end.

(** [stream_base::add_packet]: the value returned, the stream afterwards
    and the calls of [heap_ready] made, in order. *)
Definition add_packet (s : stream_base) (packet : packet_header)
  : outcome (bool * stream_base * list ready_call) :=
  _ <- assert (negb (stopped s)) ;;
  let r := dispatch s packet in
  if saw_end_of_stream r then
    let (s', flushed) := stop (after r) in
    Returns (result r, s', calls r ++ flushed)
  else Returns (result r, after r, calls r).

End stream.

(** The public operations of [stream_base]. *)
Inductive operation : Type :=
| Add_packet (packet : packet_header)
| Set_max_heaps (max_heaps : Z)
| Set_mempool (pool : mempool_ptr)
| Flush
| Stop.

Definition perform (M : heap_members) (s : stream_base) (op : operation)
  : outcome (stream_base * list ready_call) :=
  match op with
  | Add_packet packet =>
      r <- add_packet M s packet ;;
      Returns (snd (fst r), snd r)
  | Set_max_heaps n => Returns (set_max_heaps s n, [])
  | Set_mempool p => Returns (set_mempool s p, [])
  | Flush => Returns (flush s)
  | Stop => Returns (stop s)
  end.

(** A sequence of operations, with all the calls of [heap_ready] it makes. *)
Fixpoint run (M : heap_members) (s : stream_base) (ops : list operation)
  : outcome (stream_base * list ready_call) :=
  match ops with
  | [] => Returns (s, [])
  | op :: rest =>
      r <- perform M s op ;;
      r' <- run M (fst r) rest ;;
      Returns (fst r', snd r ++ snd r')
  end.

(** What a scan of a buffer leaves: the stream, the packets handed to
    [add_packet] and the calls of [heap_ready], both in order, and the
    pointer returned, as an offset from the start of the buffer. *)
Record scan : Type := {
  stream_after : stream_base;
  passed : list packet_header;
  ready : list ready_call;
  ptr : Z
}.

(** A value together with the equation that names it. *)
Definition inspect {A : Type} (a : A) : {b : A | a = b} := exist _ a eq_refl.

Section mem_to_stream.

Variable M : heap_members.

(** [decode_packet(packet, ptr, length)] of recv_packet.cpp (absent) on
    the bytes [buf] that remain: the header and the size, 0 for failure. *)
Variable decode_packet : list Z -> packet_header * Z.

(** The [while] loop of [mem_to_stream], [buf] being the [length] bytes at
    [ptr].  In-bounds decoding is what makes [length -= size] the rest of
    the buffer. *)
Equations? mem_to_stream_loop (s : stream_base) (buf : list Z) (ptr : Z)
    (passed : list packet_header) (ready : list ready_call)
  : outcome scan by wf (length buf) lt :=
  mem_to_stream_loop s buf ptr passed ready
    with inspect ((0 <? size buf) && negb (stopped s)) := {
    | exist _ false _ :=
        Returns {| stream_after := s; passed := passed; ready := ready;
                   ptr := ptr |};
    | exist _ true Hc with inspect (0 <? snd (decode_packet buf)) := {
        | exist _ false _ :=
            Returns {| stream_after := s; passed := passed; ready := ready;
                       ptr := ptr |};
        | exist _ true Hs with add_packet M s (fst (decode_packet buf)) := {
            | Returns (_, s', calls) :=
                mem_to_stream_loop s'
                  (skipn (Z.to_nat (snd (decode_packet buf))) buf)
                  (ptr + snd (decode_packet buf))
                  (passed ++ [fst (decode_packet buf)])
                  (ready ++ calls);
            | Throws_invalid_argument := Throws_invalid_argument;
            | Assertion_fails := Assertion_fails;
            | Pointer_rejected := Pointer_rejected } } }.
Proof.
  apply andb_prop in Hc as [Hc _]. apply Z.ltb_lt in Hc, Hs.
  unfold size in Hc. rewrite length_skipn. lia.
Qed.

(** [mem_to_stream(s, ptr, length)]. *)
Definition mem_to_stream (s : stream_base) (buf : list Z) : outcome scan :=
  mem_to_stream_loop s buf 0 [] [].

End mem_to_stream.

(** [class stream] of recv_stream.h: a [stream_base] with the readers that
    feed it.  [stop] posts a task to the strand and waits for it; the task
    is embedded as run to completion inside [stop]. *)
Module stream.

(** A reader, known to the stream by the identity of the object
    (recv_reader.h is absent). *)
Definition reader : Type := nat.

(** The calls the stream makes on its readers, and [heap_ready]. *)
Inductive event : Type :=
| Reader_start (r : reader)
| Reader_stop (r : reader)
| Heap_ready (c : ready_call).

Record t : Type := {
  base : stream_base;
  readers : list reader
}.

(** [stream::stream(io_service, bug_compat, max_heaps)]. *)
Definition ctor (bug_compat max_heaps : Z) : t :=
  {| base := stream_base_ctor bug_compat max_heaps; readers := [] |}.

(** [emplace_reader]: the new reader [r] is pushed to the back, then
    started. *)
Definition emplace_reader (s : t) (r : reader) : t * list event :=
  ({| base := base s; readers := readers s ++ [r] |}, [Reader_start r]).

(** The [while (!readers.empty())] loop of the task: the vector it leaves
    and the calls made, after those of [ev]. *)
Equations? stop_readers (rs : list reader) (ev : list event)
  : list reader * list event by wf (length rs) lt :=
  stop_readers rs ev with inspect rs := {
    | exist _ [] _ := (rs, ev);
    | exist _ (r :: _) E :=
        stop_readers (removelast rs) (ev ++ [Reader_stop (last rs r)]) }.
Proof.
  clear stop_readers.
  change (length (removelast (r :: l)) < S (length l))%nat.
  revert r. induction l as [|y l IH]; intros r; [cbn; lia|].
  change (removelast (r :: y :: l)) with (r :: removelast (y :: l)).
  cbn [length]. specialize (IH y). lia.
Qed.

(** [stream::stop]: the readers are stopped, then [stream_base::stop]. *)
Definition stop (s : t) : t * list event :=
  let (left, stops) := stop_readers (readers s) [] in
  let (b, calls) := stop (base s) in
  ({| base := b; readers := left |}, stops ++ map Heap_ready calls).

(** [stream::~stream]. *)
Definition dtor (s : t) : t * list event := stop s.

(** A use of the stream from outside: readers are added, the stream is
    stopped. *)
Inductive operation : Type :=
| Emplace_reader (r : reader)
| Stop.

Definition perform (s : t) (op : operation) : t * list event :=
  match op with
  | Emplace_reader r => emplace_reader s r
  | Stop => stop s
  end.

Fixpoint run (s : t) (ops : list operation) : t * list event :=
  match ops with
  | [] => (s, [])
  | op :: rest =>
      let (s1, ev1) := perform s op in
      let (s2, ev2) := run s1 rest in
      (s2, ev1 ++ ev2)
  end.

End stream.

End recv.

(** ** py_common.h *)

Module py.

(** [PyThreadState *]: an address, [nullptr] being 0. *)
Definition thread_state : Type := Z.
Definition nullptr : thread_state := 0.

(** The calls into CPython and into [ringbuffer_fd<T>] (common_ringbuffer.h
    is absent), each with what it was passed or what it returned. *)
Inductive event : Type :=
| PyEval_SaveThread (returned : thread_state)
| PyEval_RestoreThread (tstate : thread_state)
| Try_read_byte (returned : Z)
| PyErr_CheckSignals (returned : Z)
| Lock_mutex
| Pop_unlocked.

(** [class release_gil]. *)
Record release_gil : Type := { save : thread_state }.

(** [release()], [returned] being what [PyEval_SaveThread] returns. *)
Definition release (g : release_gil) (returned : thread_state)
  : outcome (release_gil * list event) :=
  _ <- assert (save g =? nullptr) ;;
  Returns ({| save := returned |}, [PyEval_SaveThread returned]).

(** [acquire()]. *)
Definition acquire (g : release_gil) : outcome (release_gil * list event) :=
  _ <- assert (negb (save g =? nullptr)) ;;
  Returns ({| save := nullptr |}, [PyEval_RestoreThread (save g)]).

(** The constructor: [save] starts as [nullptr], then [release()]. *)
Definition ctor (returned : thread_state) : outcome (release_gil * list event) :=
  release {| save := nullptr |} returned.

(** The destructor. *)
Definition dtor (g : release_gil) : list event :=
  if negb (save g =? nullptr) then [PyEval_RestoreThread (save g)] else [].

(** The calls a holder of the object can make between construction and
    destruction. *)
Inductive call : Type :=
| Release (returned : thread_state)
| Acquire.

Fixpoint calls (g : release_gil) (cs : list call)
  : outcome (release_gil * list event) :=
  match cs with
  | [] => Returns (g, [])
  | c :: rest =>
      r <- match c with
           | Release returned => release g returned
           | Acquire => acquire g
           end ;;
      r' <- calls (fst r) rest ;;
      Returns (fst r', snd r ++ snd r')
  end.

(** An object constructed, used and destroyed. *)
Definition lifetime (returned : thread_state) (cs : list call)
  : outcome (list event) :=
  r <- ctor returned ;;
  r' <- calls (fst r) cs ;;
  Returns (snd r ++ snd r' ++ dtor (fst r')).

(** What one pass through the body of the loop of [pop] meets:
    what [PyEval_SaveThread] and [try_read_byte] return, and what
    [PyErr_CheckSignals] returns if it is called. *)
Record attempt : Type := {
  tstate : thread_state;
  bytes : Z;
  signals : Z
}.

(** The ways [pop] ends; [Still_waiting] when the attempts given run out
    with the loop still going. *)
Inductive ending : Type :=
| Returns_item
| Throws_ringbuffer_stopped
| Throws_error_already_set
| Assertion_fails_in_pop
| Still_waiting.

(** The body of the [do] loop.  A [throw] unwinds through the destructor
    of [gil]; a failed assertion does not. *)
Definition do_body (a : attempt) : list event * option ending :=
  match ctor (tstate a) with
  | Returns (gil, ev0) =>
      let ev1 := ev0 ++ [Try_read_byte (bytes a)] in
      if bytes a =? 0 then (ev1 ++ dtor gil, Some Throws_ringbuffer_stopped)
      else if bytes a <? 0 then
        match acquire gil with
        | Returns (gil', ev2) =>
            let ev3 := ev1 ++ ev2 ++ [PyErr_CheckSignals (signals a)] in
            if signals a =? -1
            then (ev3 ++ dtor gil', Some Throws_error_already_set)
            else (ev3 ++ dtor gil', None)
        | _ => (ev1, Some Assertion_fails_in_pop)
        end
      else (ev1 ++ dtor gil, None)
  | _ => ([], Some Assertion_fails_in_pop)
  end.

(** [do ... while (bytes < 0)]. *)
Fixpoint pop_loop (attempts : list attempt) : list event * option ending :=
  match attempts with
  | [] => ([], Some Still_waiting)
  | a :: rest =>
      match do_body a with
      | (ev, Some e) => (ev, Some e)
      | (ev, None) =>
          if bytes a <? 0
          then let (ev', e') := pop_loop rest in (ev ++ ev', e')
          else (ev, None)
      end
  end.

(** [ringbuffer_fd_gil<T>::pop], [empty] being what [empty_unlocked()]
    returns. *)
Definition pop (attempts : list attempt) (empty : bool) : list event * ending :=
  match pop_loop attempts with
  | (ev, Some e) => (ev, e)
  | (ev, None) =>
      if negb empty then (ev ++ [Lock_mutex; Pop_unlocked], Returns_item)
      else (ev ++ [Lock_mutex], Assertion_fails_in_pop)
  end.

End py.

(** ** The receive heap and the packet decoder, after the spec *)

(** recv_heap.cpp and recv_packet.cpp are absent.  The definitions below
    follow the spec; they instantiate the embedding of the stream on
    concrete packets. *)
Module spec_model.

Import recv.

(** Modelled from the spec: common_defines.h is absent.  Section 6 gives
    [STREAM_CTRL = 0x06]; the end-of-stream value of that item is named but
    not given there, SPEAD's is 2. *)
Definition STREAM_CTRL_ID : Z := 0x06.
Definition CTRL_STREAM_STOP : Z := 2.

(** Modelled from the spec: the pointer decoder of section 4.2 is absent.
    An item pointer is [immediate:1][id:63 - heap_address_bits]
    [value:heap_address_bits]. *)
Definition is_immediate (pointer : Z) : bool := Z.testbit pointer 63.
Definition get_id (hab pointer : Z) : Z :=
  Z.land (Z.shiftr pointer hab) (Z.ones (63 - hab)).
Definition get_value (hab pointer : Z) : Z := Z.land pointer (Z.ones hab).

(** Modelled from the spec: [heap::heap] is absent.  The members take the
    initial values recv_heap.h declares. *)
Definition heap_ctor (heap_cnt bug_compat : Z) : heap.t :=
  {| heap.heap_cnt := heap_cnt; heap.heap_length := -1;
     heap.received_length := 0; heap.end_of_stream := false;
     heap.min_length := 0; heap.heap_address_bits := -1;
     heap.bug_compat := bug_compat; heap.payload := [];
     heap.payload_reserved := 0; heap.pointers := [];
     heap.packet_offsets := []; heap.pool := None |}.

(** Modelled from the spec: [heap::set_mempool] is absent; it installs the
    allocator the heap will use. *)
Definition heap_set_mempool (h : heap.t) (pool : mempool_ptr) : heap.t :=
  {| heap.heap_cnt := heap.heap_cnt h; heap.heap_length := heap.heap_length h;
     heap.received_length := heap.received_length h;
     heap.end_of_stream := heap.end_of_stream h;
     heap.min_length := heap.min_length h;
     heap.heap_address_bits := heap.heap_address_bits h;
     heap.bug_compat := heap.bug_compat h; heap.payload := heap.payload h;
     heap.payload_reserved := heap.payload_reserved h;
     heap.pointers := heap.pointers h;
     heap.packet_offsets := heap.packet_offsets h; heap.pool := pool |}.

(** Modelled from the spec: [heap::payload_reserve] is absent.  Section
    4.4: exact if the heap length is known, otherwise growth by doubling
    to at least the size asked for; what was written is kept. *)
Definition payload_reserve (h : heap.t) (sz : Z) (exact : bool) : list Z * Z :=
  if sz <=? heap.payload_reserved h
  then (heap.payload h, heap.payload_reserved h)
  else
    let reserved := if exact then sz
                    else Z.max sz (2 * heap.payload_reserved h) in
    (heap.payload h
       ++ repeat 0 (Z.to_nat (reserved - heap.payload_reserved h)),
     reserved).

(** [memcpy] of [data] into [buffer] at [offset]. *)
Definition copy_at (buffer : list Z) (offset : Z) (data : list Z) : list Z :=
  firstn (Z.to_nat offset) buffer ++ data
    ++ skipn (Z.to_nat offset + length data) buffer.

(** The largest address among the non-immediate pointers, at least [m]. *)
Definition max_address (hab : Z) (pointers : list Z) (m : Z) : Z :=
  fold_left (fun acc w => if is_immediate w then acc
                          else Z.max acc (get_value hab w)) pointers m.

Definition carries_stop (hab : Z) (pointers : list Z) : bool :=
  existsb (fun w => is_immediate w && (get_id hab w =? STREAM_CTRL_ID)
                    && (get_value hab w =? CTRL_STREAM_STOP)) pointers.

(** Modelled from the spec: [heap::add_packet] is absent.  Section 4.4:
    the rejections 1 to 4 (5, "any consistency check on item pointers",
    is not detailed by the spec), each leaving the heap unchanged, and the
    updates on acceptance. *)
Definition heap_add_packet (h : heap.t) (packet : packet_header) : bool * heap.t :=
  let known := 0 <=? heap.heap_length h in
  let length := if known then heap.heap_length h else heap_length packet in
  let last := payload_offset packet + payload_length packet in
  if negb (heap.heap_cnt h =? heap_cnt packet) then (false, h)
  else if negb (heap.heap_address_bits h =? -1)
          && negb (heap.heap_address_bits h =? heap_address_bits packet)
       then (false, h)
  else if known && (0 <=? heap_length packet)
          && negb (heap_length packet =? heap.heap_length h)
       then (false, h)
  else if (0 <=? length) && (length <? last) then (false, h)
  else if existsb (Z.eqb (payload_offset packet)) (heap.packet_offsets h)
       then (false, h)
  else
    let reserved := if 0 <=? length then payload_reserve h length true
                    else payload_reserve h last false in
    (true,
     {| heap.heap_cnt := heap.heap_cnt h;
        heap.heap_length := length;
        heap.received_length := heap.received_length h + payload_length packet;
        heap.end_of_stream :=
          heap.end_of_stream h
          || carries_stop (heap_address_bits packet) (pointers packet);
        heap.min_length :=
          max_address (heap_address_bits packet) (pointers packet)
            (Z.max (heap.min_length h) last);
        heap.heap_address_bits := heap_address_bits packet;
        heap.bug_compat := heap.bug_compat h;
        heap.payload :=
          copy_at (fst reserved) (payload_offset packet) (payload packet);
        heap.payload_reserved := snd reserved;
        heap.pointers := heap.pointers h ++ pointers packet;
        heap.packet_offsets := payload_offset packet :: heap.packet_offsets h;
        heap.pool := heap.pool h |}).

(** Modelled from the spec: [heap::is_complete] is absent.  Section 4.4:
    [heap_length >= 0] and [received_length == heap_length]. *)
Definition is_complete (h : heap.t) : bool :=
  (0 <=? heap.heap_length h)
  && (heap.received_length h =? heap.heap_length h).

(** Modelled from the spec: [heap::is_end_of_stream] is absent; it reads
    the end-of-stream flag. *)
Definition is_end_of_stream (h : heap.t) : bool := heap.end_of_stream h.

Definition members : heap_members :=
  {| recv.heap_ctor := heap_ctor;
     recv.heap_set_mempool := heap_set_mempool;
     recv.heap_add_packet := heap_add_packet;
     recv.is_complete := is_complete;
     recv.is_end_of_stream := is_end_of_stream |}.

(** The header a failed decode leaves behind. *)
Definition no_packet : packet_header :=
  {| heap_cnt := -1; heap_length := -1; payload_offset := -1;
     payload_length := -1; heap_address_bits := 0; pointers := [];
     payload := [] |}.

(** [n] big-endian 64-bit words from the front of [bytes]. *)
Fixpoint words (n : nat) (bytes : list Z) : list Z :=
  match n with
  | O => []
  | S n' => be_value (firstn 8 bytes) :: words n' (skipn 8 bytes)
  end.

(** One item pointer into the named fields, or into the list of the
    others. *)
Definition take_pointer (packet : packet_header) (w : Z) : packet_header :=
  let hab := heap_address_bits packet in
  let id := if is_immediate w then get_id hab w else 0 in
  let v := get_value hab w in
  {| heap_cnt := if id =? HEAP_CNT_ID spead_defines then v else heap_cnt packet;
     heap_length := if id =? HEAP_LENGTH_ID spead_defines then v
                    else heap_length packet;
     payload_offset := if id =? PAYLOAD_OFFSET_ID spead_defines then v
                       else payload_offset packet;
     payload_length := if id =? PAYLOAD_LENGTH_ID spead_defines then v
                       else payload_length packet;
     heap_address_bits := hab;
     pointers := if (1 <=? id) && (id <=? 4) then pointers packet
                 else pointers packet ++ [w];
     payload := payload packet |}.

(** Modelled from the spec: recv_packet.cpp ([decode_packet]) is absent.
    Section 4.1: the 8-byte header with the magic 0x5304, the heap address
    bits a positive multiple of 8 below the pointer width, the pointers and
    the declared payload within the buffer, the four standard pointers into
    the named fields; the bytes consumed, or 0 on any malformed field. *)
Definition decode_packet (raw : list Z) : packet_header * Z :=
  let max_size := size raw in
  let header := be_value (firstn 8 raw) in
  let hab := 8 * Z.land (Z.shiftr header 32) 0xff in
  let n_items := Z.land header 0xffffffff in
  if max_size <? 8 then (no_packet, 0)
  else if negb (Z.shiftr header 48 =? 0x5304) then (no_packet, 0)
  else if negb ((0 <? hab) && (hab <? 8 * sizeof_item_pointer_t))
       then (no_packet, 0)
  else if max_size - 8 <? n_items * 8 then (no_packet, 0)
  else
    let packet :=
      fold_left take_pointer (words (Z.to_nat n_items) (skipn 8 raw))
        {| heap_cnt := -1; heap_length := -1; payload_offset := -1;
           payload_length := -1; heap_address_bits := hab; pointers := [];
           payload := [] |} in
    if (heap_cnt packet <? 0) || (payload_offset packet <? 0)
       || (payload_length packet <? 0)
    then (no_packet, 0)
    else if max_size - 8 - n_items * 8 <? payload_length packet
         then (no_packet, 0)
    else
      ({| heap_cnt := heap_cnt packet; heap_length := heap_length packet;
          payload_offset := payload_offset packet;
          payload_length := payload_length packet;
          heap_address_bits := hab; pointers := pointers packet;
          payload := firstn (Z.to_nat (payload_length packet))
                       (skipn (Z.to_nat (8 + n_items * 8)) raw) |},
       8 + n_items * 8 + payload_length packet).

(** Packets for the worked examples, in flavour (64, 40): an immediate
    item pointer, and the bytes of a packet with the four standard
    pointers, further ones, and a payload. *)
Definition immediate (id value : Z) : Z := 2 ^ 63 + id * 2 ^ 40 + value.

Definition packet_bytes (cnt heap_length offset : Z) (more : list Z)
    (payload : list Z) : list Z :=
  let pointers := [immediate 1 cnt; immediate 2 heap_length;
                   immediate 3 offset; immediate 4 (size payload)] ++ more in
  htobe64 (0x5304 * 2 ^ 48 + 3 * 2 ^ 40 + 5 * 2 ^ 32 + size pointers)
    ++ concat (map htobe64 pointers) ++ payload.

(** The packet carrying bytes [offset, offset + 8) of a 16-byte heap
    [cnt], with further item pointers [more], as decoded. *)
Definition part (cnt offset : Z) (more : list Z) : packet_header :=
  {| heap_cnt := cnt; heap_length := 16; payload_offset := offset;
     payload_length := 8; heap_address_bits := 40; pointers := more;
     payload := [1; 2; 3; 4; 5; 6; 7; 8] |}.

Definition first_half (cnt : Z) : packet_header := part cnt 0 [].
Definition second_half (cnt : Z) : packet_header := part cnt 8 [].

(** A first half that carries the end-of-stream marker. *)
Definition stop_packet (cnt : Z) : packet_header :=
  part cnt 0 [immediate STREAM_CTRL_ID CTRL_STREAM_STOP].


(** The same packets on the wire. *)
Definition part_bytes (cnt offset : Z) (more : list Z) : list Z :=
  packet_bytes cnt 16 offset more [1; 2; 3; 4; 5; 6; 7; 8].

End spec_model.

(** ** Vocabulary of the statements about [send] *)

(** A flavour the [send::heap] constructor lets through: a positive multiple
    of eight strictly below the pointer width in bits. *)
Definition valid_flavour (heap_address_bits : Z) : Prop :=
  0 < heap_address_bits < 8 * sizeof_item_pointer_t /\ (8 | heap_address_bits).

(** A named bug bit is set in a mask: the mask and the constant that names
    the bit have a binary digit in common. *)
Definition bug_bit_set (bug_compat bit : Z) : Prop :=
  exists n, 0 <= n /\ Z.testbit bug_compat n = true /\ Z.testbit bit n = true.

(** Number of item pointers of a descriptor packet. *)
Definition descriptor_items (d : send.descriptor) : Z :=
  9 + (if size (send.numpy_header d) =? 0 then 0 else 1).

(** Where the shape entries start in the blob: after the packet header, the
    item pointers, the name, the description and the format entries. *)
Definition shape_offset (K : common_defines) (d : send.descriptor)
    (heap_address_bits bug_compat : Z) : Z :=
  8 + descriptor_items d * sizeof_item_pointer_t
  + size (send.name d) + size (send.description d)
  + size (send.format d) * send.field_size K heap_address_bits bug_compat.

(** The bytes of the [i]-th shape entry of an encoded descriptor. *)
Definition shape_entry (K : common_defines) (d : send.descriptor)
    (heap_address_bits bug_compat : Z) (out : list Z) (i : nat) : list Z :=
  firstn (Z.to_nat (send.shape_size K heap_address_bits bug_compat))
    (skipn (Z.to_nat (shape_offset K d heap_address_bits bug_compat
                      + Z.of_nat i * send.shape_size K heap_address_bits bug_compat))
       out).

(** The legal item-id range of a flavour, as the spec states it. *)
Definition legal_item_id (heap_address_bits id : Z) : Prop :=
  0 < id < 2 ^ (8 * sizeof_item_pointer_t - 1 - heap_address_bits).

(** The descriptor of the spec's end-to-end scenario 6, and the packet that
    [encode_descriptor] makes of it in flavour (64, 40, 0). *)
Definition scenario6 : send.descriptor := {|
  send.id := 7; send.name := [120]; send.description := [];
  send.format := [(117, 32)]; send.shape := [-1; 4];
  send.numpy_header := [] |}.

Definition scenario6_blob : list Z :=
  [0x53; 0x04; 3; 5; 0; 0; 0; 9;
   128; 0; 1; 0; 0; 0; 0; 1;
   128; 0; 2; 0; 0; 0; 0; 17;
   128; 0; 3; 0; 0; 0; 0; 0;
   128; 0; 4; 0; 0; 0; 0; 17;
   128; 0; 20; 0; 0; 0; 0; 7;
   0; 0; 16; 0; 0; 0; 0; 0;
   0; 0; 17; 0; 0; 0; 0; 1;
   0; 0; 19; 0; 0; 0; 0; 1;
   0; 0; 18; 0; 0; 0; 0; 5;
   120;
   117; 0; 0; 32;
   1; 0; 0; 0; 0; 0;
   0; 0; 0; 0; 0; 4].

(** A descriptor whose id, 2^23, is the first one past the legal range of
    flavour (64, 40). *)
Definition descriptor_2p23 : send.descriptor := {|
  send.id := 2 ^ 23; send.name := [120]; send.description := [];
  send.format := []; send.shape := []; send.numpy_header := [] |}.

(** A descriptor with the smallest legal id. *)
Definition descriptor_1 : send.descriptor := {|
  send.id := 1; send.name := [120]; send.description := [];
  send.format := []; send.shape := []; send.numpy_header := [] |}.

(** A byte. *)
Definition is_byte (b : Z) : Prop := 0 <= b < 256.

(** [value] is an unsigned number of [len] bytes. *)
Definition fits (len value : Z) : Prop := 0 <= value < 2 ^ (8 * len).

(** The 64-bit word that [encode_descriptor] stores at the front of the
    blob. *)
Definition header_word (d : send.descriptor) (heap_address_bits : Z) : Z :=
  Z.lor (Z.lor (Z.lor
    (to_uint64 (Z.shiftl 0x5304 48))
    (to_uint64 (Z.shiftl (to_uint64 (8 - Z.quot heap_address_bits 8)) 40)))
    (to_uint64 (Z.shiftl (to_uint64 (Z.quot heap_address_bits 8)) 32)))
    (descriptor_items d).

(** Where the format entries start in the blob: after the packet header, the
    item pointers, the name and the description. *)
Definition format_offset (d : send.descriptor) : Z :=
  8 + descriptor_items d * sizeof_item_pointer_t
  + size (send.name d) + size (send.description d).

(** The bytes of the [i]-th format entry of an encoded descriptor. *)
Definition format_entry (K : common_defines) (d : send.descriptor)
    (heap_address_bits bug_compat : Z) (out : list Z) (i : nat) : list Z :=
  firstn (Z.to_nat (send.field_size K heap_address_bits bug_compat))
    (skipn (Z.to_nat (format_offset d
                      + Z.of_nat i * send.field_size K heap_address_bits bug_compat))
       out).

(** [add_descriptor] for each descriptor of a list, in order. *)
Fixpoint add_descriptors (K : common_defines) (wide_shift : Z -> Z)
    (h : send.heap) (ds : list send.descriptor) : outcome send.heap :=
  match ds with
  | [] => Returns h
  | d :: rest =>
      h' <- send.add_descriptor K wide_shift h d ;;
      add_descriptors K wide_shift h' rest
  end.

(** The descriptor of scenario 6 with a numpy header. *)
Definition scenario6_numpy : send.descriptor := {|
  send.id := 7; send.name := [120]; send.description := [121; 122];
  send.format := [(117, 32)]; send.shape := [-1; 4];
  send.numpy_header := [123; 125] |}.

(** The packet [encode_descriptor] makes of it in flavour (64, 16, 0). *)
Definition scenario6_numpy_blob : list Z :=
  [0x53; 0x04; 6; 2; 0; 0; 0; 10;
   128; 0; 0; 0; 0; 1; 0; 1;
   128; 0; 0; 0; 0; 2; 0; 18;
   128; 0; 0; 0; 0; 3; 0; 0;
   128; 0; 0; 0; 0; 4; 0; 18;
   128; 0; 0; 0; 0; 20; 0; 7;
   0; 0; 0; 0; 0; 16; 0; 0;
   0; 0; 0; 0; 0; 17; 0; 1;
   0; 0; 0; 0; 0; 19; 0; 3;
   0; 0; 0; 0; 0; 18; 0; 10;
   0; 0; 0; 0; 0; 21; 0; 16;
   120;
   121; 122;
   117; 0; 0; 0; 0; 0; 32;
   1; 0; 0;
   0; 0; 4;
   123; 125].

(** ** Vocabulary of the statements about [recv] *)

(** The heap counts of a collection, in its order. *)
Definition cnts (hs : list recv.heap.t) : list Z := map recv.heap.cnt hs.

(** Strictly ascending heap counts. *)
Definition ascending (hs : list recv.heap.t) : Prop :=
  StronglySorted Z.lt (cnts hs).

(** What the stream relies on from the heap: the constructor gives the heap
    the count it is passed, and neither [set_mempool] nor [add_packet]
    changes a heap's count. *)
Record keeps_cnt (M : recv.heap_members) : Prop := {
  ctor_cnt : forall c b, recv.heap.cnt (recv.heap_ctor M c b) = c;
  set_mempool_cnt :
    forall h p, recv.heap.cnt (recv.heap_set_mempool M h p) = recv.heap.cnt h;
  add_packet_cnt :
    forall h p, recv.heap.cnt (snd (recv.heap_add_packet M h p)) = recv.heap.cnt h
}.

(** Section 4.4 of the spec: a heap that rejects a packet is left unchanged. *)
Definition rejection_leaves_heap (M : recv.heap_members) : Prop :=
  forall h p, fst (recv.heap_add_packet M h p) = false ->
              snd (recv.heap_add_packet M h p) = h.

(** The largest cap the stream has had: the constructor's and every one
    passed to [set_max_heaps]. *)
Definition highest_cap (cap : Z) (ops : list recv.operation) : Z :=
  fold_left (fun m op => match op with
                         | recv.Set_max_heaps n => Z.max m n
                         | _ => m
                         end) ops cap.

(** No [set_max_heaps] of the sequence lowers the cap. *)
Fixpoint cap_never_lowered (cap : Z) (ops : list recv.operation) : Prop :=
  match ops with
  | [] => True
  | recv.Set_max_heaps n :: rest => cap <= n /\ cap_never_lowered n rest
  | _ :: rest => cap_never_lowered cap rest
  end.

(** The cap in force after a sequence of operations: the last one passed
    to [set_max_heaps], or else the one the sequence started under. *)
Definition cap_in_force (cap : Z) (ops : list recv.operation) : Z :=
  fold_left (fun c op => match op with
                         | recv.Set_max_heaps n => n
                         | _ => c
                         end) ops cap.

(** The number of live heaps that a sequence of operations allows, from
    [n] live heaps under the cap [cap]: a packet adds at most one heap, and
    none unless the count is below the cap in force; [flush] and [stop]
    leave none; [set_max_heaps] changes the cap and no heap. *)
Fixpoint live_bound (cap n : Z) (ops : list recv.operation) : Z :=
  match ops with
  | [] => n
  | recv.Add_packet _ :: rest =>
      live_bound cap (if n <? cap then n + 1 else n) rest
  | recv.Set_max_heaps m :: rest => live_bound m n rest
  | recv.Set_mempool _ :: rest => live_bound cap n rest
  | recv.Flush :: rest => live_bound cap 0 rest
  | recv.Stop :: rest => live_bound cap 0 rest
  end.

(** The heap that [add_packet] makes for a packet matching no live heap, as
    it is once the packet has been delegated to it. *)
Definition new_heap (M : recv.heap_members) (s : recv.stream_base)
    (packet : recv.packet_header) : recv.heap.t :=
  snd (recv.heap_add_packet M
         (recv.heap_set_mempool M
            (recv.heap_ctor M (recv.heap_cnt packet) (recv.bug_compat s))
            (recv.pool s))
         packet).

(** The heap a packet is delegated to, as it is after the delegation: the
    live heap with the packet's count, or else a new heap. *)
Definition receiving_heap (M : recv.heap_members) (s : recv.stream_base)
    (packet : recv.packet_header) : recv.heap.t :=
  match fst (recv.find_heap (recv.heaps s) (recv.heap_cnt packet) 0 0) with
  | Some (_, h) => snd (recv.heap_add_packet M h packet)
  | None => new_heap M s packet
  end.

(** The order an operation keeps: the collection it leaves is ascending,
    and so is the collection at each call of [heap_ready] it makes. *)
Definition order_kept (s' : recv.stream_base) (calls : list recv.ready_call)
  : Prop :=
  ascending (recv.heaps s')
  /\ Forall (fun c => ascending (recv.live_at_call c)) calls.

(** The count an operation keeps: the live count grows only up to the cap,
    it is at most one more than that while [heap_ready] runs, and the cap
    stays. *)
Definition count_kept (s s' : recv.stream_base) (calls : list recv.ready_call)
  : Prop :=
  size (recv.heaps s') <= Z.max (size (recv.heaps s)) (recv.max_heaps s)
  /\ Forall (fun c => size (recv.live_at_call c)
                      <= Z.max (size (recv.heaps s)) (recv.max_heaps s) + 1)
       calls
  /\ recv.max_heaps s' = recv.max_heaps s.

(** The stream of the spec's scenario 3, [max_heaps = 2], once the first
    halves of heaps 1 and 2 have arrived. *)
Definition two_live : list recv.operation :=
  [recv.Add_packet (spec_model.first_half 1);
   recv.Add_packet (spec_model.first_half 2)].

(** Three heaps arrive partially, out of order, under the default cap of 4;
    the cap is then lowered to 1 and a fourth heap arrives. *)
Definition lowered_cap : list recv.operation :=
  [recv.Add_packet (spec_model.first_half 2);
   recv.Add_packet (spec_model.first_half 1);
   recv.Add_packet (spec_model.first_half 3);
   recv.Set_max_heaps 1;
   recv.Add_packet (spec_model.first_half 4)].

(** One heap arrives partially under the default cap of 4; the cap is then
    lowered to 1 and two more heaps arrive. *)
Definition cap_lowered_early : list recv.operation :=
  [recv.Add_packet (spec_model.first_half 1);
   recv.Set_max_heaps 1;
   recv.Add_packet (spec_model.first_half 2);
   recv.Add_packet (spec_model.first_half 3)].

(** The stream those two packets leave, heaps 1 and 2 live and incomplete. *)
Definition scenario3_stream : recv.stream_base :=
  Eval vm_compute in
    match recv.run spec_model.members (recv.stream_base_ctor 0 2) two_live with
    | Returns (s, _) => s
    | _ => recv.stream_base_ctor 0 2
    end.

(** The contract of [decode_packet] that [mem_to_stream] relies on for
    [length -= size]: a packet is never larger than the bytes offered. *)
Definition decoder_in_bounds (decode_packet : list Z -> recv.packet_header * Z)
  : Prop :=
  forall buf, snd (decode_packet buf) <= size buf.

(** The packets that decode one after the other from the front of [buf],
    with their sizes, up to the first failure or the end of the buffer. *)
Equations? decodable (decode_packet : list Z -> recv.packet_header * Z)
    (buf : list Z) : list (recv.packet_header * Z)
  by wf (length buf) lt :=
  decodable decode_packet buf
    with recv.inspect ((0 <? size buf) && (0 <? snd (decode_packet buf))) := {
    | exist _ true Hc :=
        decode_packet buf
          :: decodable decode_packet
               (skipn (Z.to_nat (snd (decode_packet buf))) buf);
    | exist _ false _ := [] }.
Proof.
  apply andb_prop in Hc as [Hc Hs]. apply Z.ltb_lt in Hc, Hs.
  unfold size in Hc. rewrite length_skipn. lia.
Qed.

(** The bytes a run of decoded packets takes up. *)
Definition total_size (packets : list (recv.packet_header * Z)) : Z :=
  fold_right (fun x acc => snd x + acc) 0 packets.

(** A buffer of four packets: the first half of heap 1, the same packet
    again, the first half of heap 2, and eight bytes with a wrong magic. *)
Definition duplicate_buffer : list Z :=
  spec_model.part_bytes 1 0 [] ++ spec_model.part_bytes 1 0 []
    ++ spec_model.part_bytes 2 0 [] ++ [0x53; 0x05; 3; 5; 0; 0; 0; 0].

(** A buffer of two well-formed packets, the first of which carries the
    end-of-stream marker. *)
Definition stop_buffer : list Z :=
  spec_model.part_bytes 1 0
    [spec_model.immediate spec_model.STREAM_CTRL_ID spec_model.CTRL_STREAM_STOP]
  ++ spec_model.part_bytes 2 0 [].

(** The counts of the heaps handed to [heap_ready], in the order of the
    calls. *)
Definition handed_over (calls : list recv.ready_call) : list Z :=
  map (fun c => recv.heap.cnt (recv.ready_heap c)) calls.

(** Some live heap of the stream has the count [c]. *)
Definition is_live (s : recv.stream_base) (c : Z) : bool :=
  existsb (fun h => recv.heap.cnt h =? c) (recv.heaps s).

(** The operation is a call of [add_packet]. *)
Definition is_add_packet (op : recv.operation) : bool :=
  match op with
  | recv.Add_packet _ => true
  | _ => false
  end.

(** The second half of heap 2 arrives after the first halves of heaps 1
    and 2, then the first half of heap 3. *)
Definition completes_heap_2 : list recv.operation :=
  two_live ++ [recv.Add_packet (spec_model.second_half 2);
               recv.Add_packet (spec_model.first_half 3)].

(** No heap of the collection is complete. *)
Definition incomplete (M : recv.heap_members) (hs : list recv.heap.t) : Prop :=
  Forall (fun h => recv.is_complete M h = false) hs.

(** At a call of [heap_ready], the only complete heap the live collection
    can hold is the one being handed over. *)
Definition complete_only_if_ready (M : recv.heap_members) (c : recv.ready_call)
  : Prop :=
  Forall (fun h => recv.is_complete M h = true -> h = recv.ready_heap c)
    (recv.live_at_call c).

(** The stream has been stopped and holds no heap. *)
Definition shut_down (s : recv.stream_base) : Prop :=
  recv.stopped s = true /\ recv.heaps s = [].

(** The readers started, and those stopped, in the order of the calls. *)
Definition started (ev : list recv.stream.event) : list recv.stream.reader :=
  flat_map (fun e => match e with
                     | recv.stream.Reader_start r => [r]
                     | _ => []
                     end) ev.

Definition stopped_readers (ev : list recv.stream.event)
  : list recv.stream.reader :=
  flat_map (fun e => match e with
                     | recv.stream.Reader_stop r => [r]
                     | _ => []
                     end) ev.

(** The calls of [release] and [acquire] take turns, [acquire] being next
    when [released]. *)
Fixpoint alternate (released : bool) (cs : list py.call) : bool :=
  match cs with
  | [] => true
  | py.Release _ :: rest => negb released && alternate true rest
  | py.Acquire :: rest => released && alternate false rest
  end.

(** Every thread state that [PyEval_SaveThread] returns is an object. *)
Definition never_null (cs : list py.call) : Prop :=
  Forall (fun c => match c with
                   | py.Release returned => returned <> py.nullptr
                   | py.Acquire => True
                   end) cs.

(** The discipline of the interpreter lock, followed along a trace.
    [None] is the lock held; [Some t] is the lock released, [t] being
    what [PyEval_SaveThread] returned.  The lock is only released when
    held, and only taken back when released, with the thread state that was
    saved; [try_read_byte] runs without the lock, everything else of the
    trace with it.  The result is the state at the end, if the discipline
    is followed throughout. *)
Fixpoint gil_after (saved : option py.thread_state) (tr : list py.event)
  : option (option py.thread_state) :=
  match tr with
  | [] => Some saved
  | py.PyEval_SaveThread t :: rest =>
      match saved with
      | None => gil_after (Some t) rest
      | Some _ => None
      end
  | py.PyEval_RestoreThread t :: rest =>
      match saved with
      | Some t' => if t =? t' then gil_after None rest else None
      | None => None
      end
  | py.Try_read_byte _ :: rest =>
      match saved with
      | Some _ => gil_after saved rest
      | None => None
      end
  | _ :: rest =>
      match saved with
      | None => gil_after saved rest
      | Some _ => None
      end
  end.

(** What the first attempts that [pop] gets to decide: the reads that
    time out with no signal pending are passed over. *)
Fixpoint first_decisive (attempts : list py.attempt) : option py.attempt :=
  match attempts with
  | [] => None
  | a :: rest =>
      if (py.bytes a <? 0) && negb (py.signals a =? -1)
      then first_decisive rest
      else Some a
  end.

(** The state of the lock that a [release_gil] object stands for. *)
Definition lock_state (g : py.release_gil) : option py.thread_state :=
  if py.save g =? py.nullptr then None else Some (py.save g).

(** How [pop] ends, read off the first decisive attempt. *)
Definition pop_ending (attempts : list py.attempt) (empty : bool) : py.ending :=
  match first_decisive attempts with
  | None => py.Still_waiting
  | Some a =>
      if py.bytes a =? 0 then py.Throws_ringbuffer_stopped
      else if py.bytes a <? 0 then py.Throws_error_already_set
      else if empty then py.Assertion_fails_in_pop
      else py.Returns_item
  end.

(** Three attempts of [pop]: a read that times out with no signal
    pending, one that times out with a signal pending, and one that finds
    a byte. *)
Definition read_times_out : py.attempt :=
  {| py.tstate := 5; py.bytes := -1; py.signals := 0 |}.
Definition read_interrupted : py.attempt :=
  {| py.tstate := 5; py.bytes := -1; py.signals := -1 |}.
Definition read_ready : py.attempt :=
  {| py.tstate := 5; py.bytes := 1; py.signals := 0 |}.

(* ================================================================== *)
(** * Part II: properties *)
(* ================================================================== *)

(** ** Big-endian byte strings *)

Lemma be_bytes_length (n : nat) (v : Z) : length (be_bytes n v) = n.
Proof.
  revert v; induction n as [|n IH]; intros v; simpl; [reflexivity|].
  rewrite length_app, IH; simpl; lia.
Qed.

Lemma be_value_app (l : list Z) (b : Z) :
  be_value (l ++ [b]) = be_value l * 256 + b.
Proof. unfold be_value; rewrite fold_left_app; reflexivity. Qed.

Lemma be_value_be_bytes (n : nat) (v : Z) :
  be_value (be_bytes n v) = v mod 2 ^ (8 * Z.of_nat n).
Proof.
  revert v; induction n as [|n IH]; intros v.
  - simpl; rewrite Z.mod_1_r; reflexivity.
  - cbn [be_bytes]; rewrite be_value_app, IH.
    replace (8 * Z.of_nat (S n)) with (8 + 8 * Z.of_nat n) by lia.
    rewrite Z.pow_add_r by lia.
    change (2 ^ 8) with 256.
    rewrite (Z.rem_mul_r v 256 (2 ^ (8 * Z.of_nat n))) by lia.
    lia.
Qed.

Lemma be_bytes_low (k n : nat) (v : Z) :
  skipn k (be_bytes (k + n) v) = be_bytes n v.
Proof.
  revert v; induction n as [|n IH]; intros v.
  - rewrite Nat.add_0_r; simpl.
    apply skipn_all2; rewrite be_bytes_length; lia.
  - replace (k + S n)%nat with (S (k + n)) by lia.
    cbn [be_bytes].
    rewrite skipn_app, IH, be_bytes_length.
    replace (k - (k + n))%nat with O by lia.
    reflexivity.
Qed.

Lemma be_bytes_mod (n : nat) (v : Z) :
  be_bytes n (v mod 2 ^ (8 * Z.of_nat n)) = be_bytes n v.
Proof.
  revert v; induction n as [|n IH]; intros v; [reflexivity|].
  cbn [be_bytes].
  replace (8 * Z.of_nat (S n)) with (8 + 8 * Z.of_nat n) by lia.
  rewrite Z.pow_add_r by lia; change (2 ^ 8) with 256.
  rewrite (Z.rem_mul_r v 256 (2 ^ (8 * Z.of_nat n))) by lia.
  f_equal.
  - rewrite <- (IH (v / 256)); f_equal.
    rewrite Z.mul_comm, Z.div_add by lia.
    rewrite (Z.div_small (v mod 256)) by (apply Z.mod_pos_bound; lia).
    reflexivity.
  - f_equal.
    rewrite Z.mul_comm, Z.mod_add by lia.
    apply Z.mod_mod; lia.
Qed.

(** ** [store_bytes_be] and the two encoding loops *)

Lemma assert_returns (b : bool) (u : unit) : assert b = Returns u -> b = true.
Proof. destruct b; [reflexivity | discriminate]. Qed.

Lemma Returns_inj {A : Type} (a b : A) : Returns a = Returns b -> a = b.
Proof. intros H; injection H; trivial. Qed.

Lemma store_bytes_be_returns (len v : Z) (bs : list Z) :
  0 <= v ->
  send.store_bytes_be len v = Returns bs ->
  0 <= len <= 8
  /\ bs = be_bytes (Z.to_nat len) v
  /\ (len < 8 -> be_value bs = v).
Proof.
  intros Hv H. unfold send.store_bytes_be in H.
  destruct (assert ((0 <=? len) && (len <=? sizeof_item_pointer_t))) as [[]| | |] eqn:A1;
    try discriminate.
  apply assert_returns in A1. apply andb_prop in A1 as [L0 L8].
  apply Z.leb_le in L0, L8. unfold sizeof_item_pointer_t in *.
  cbn [bind] in H.
  destruct (assert ((len =? 8) || (v <? to_uint64 (Z.shiftl 1 (8 * len))))) as [[]| | |] eqn:A2;
    try discriminate.
  apply assert_returns in A2. cbn [bind] in H.
  apply Returns_inj in H. subst bs.
  assert (E : skipn (Z.to_nat (8 - len)) (htobe64 v) = be_bytes (Z.to_nat len) v).
  { unfold htobe64, to_uint64.
    change (2 ^ 64) with (2 ^ (8 * Z.of_nat 8)).
    rewrite be_bytes_mod.
    replace 8%nat with (Z.to_nat (8 - len) + Z.to_nat len)%nat at 1 by lia.
    apply be_bytes_low. }
  split; [lia|]. split; [exact E|].
  intros Hlt. rewrite E, be_value_be_bytes.
  apply orb_prop in A2 as [A2|A2]; [apply Z.eqb_eq in A2; lia|].
  apply Z.ltb_lt in A2.
  rewrite Z.shiftl_1_l in A2. unfold to_uint64 in A2.
  assert (2 ^ (8 * len) < 2 ^ 64) by (apply Z.pow_lt_mono_r; lia).
  rewrite Z.mod_small in A2 by (split; [apply Z.pow_nonneg; lia | assumption]).
  rewrite Z2Nat.id by lia.
  apply Z.mod_small; lia.
Qed.

Lemma for_each_entry {A : Type} (body : A -> outcome (list Z)) (w : nat) :
  (forall x bs, body x = Returns bs -> length bs = w) ->
  forall (xs : list A) (bytes : list Z),
    for_each body xs = Returns bytes ->
    length bytes = (length xs * w)%nat
    /\ forall (i : nat) (x : A),
         nth_error xs i = Some x ->
         body x = Returns (firstn w (skipn (i * w) bytes)).
Proof.
  intros Hw xs; induction xs as [|x0 xs IH]; intros bytes H.
  - injection H as <-. split; [reflexivity|].
    intros [|i] x Hx; discriminate.
  - cbn [for_each] in H.
    destruct (body x0) as [b0| | |] eqn:B0; try discriminate. cbn [bind] in H.
    destruct (for_each body xs) as [more| | |] eqn:M; try discriminate.
    cbn [bind] in H. injection H as <-.
    destruct (IH more eq_refl) as [Hlen Hnth].
    pose proof (Hw x0 b0 B0) as L0.
    split; [rewrite length_app; simpl; lia|].
    intros [|i] x Hx; cbn [nth_error] in Hx.
    + injection Hx as <-. simpl.
      rewrite firstn_app, L0, Nat.sub_diag, firstn_O, app_nil_r.
      rewrite firstn_all2 by lia. exact B0.
    + replace (S i * w)%nat with (length b0 + i * w)%nat by lia.
      rewrite skipn_app, skipn_all2 by lia.
      replace (length b0 + i * w - length b0)%nat with (i * w)%nat by lia.
      simpl. apply Hnth; exact Hx.
Qed.

(** ** Field widths *)

Lemma valid_flavour_cases (hab : Z) :
  valid_flavour hab ->
  hab = 8 \/ hab = 16 \/ hab = 24 \/ hab = 32 \/ hab = 40 \/ hab = 48 \/ hab = 56.
Proof.
  unfold valid_flavour, sizeof_item_pointer_t. intros [R [k ->]]. lia.
Qed.

Lemma field_size_eq (K : common_defines) (hab bc : Z) :
  valid_flavour hab ->
  send.field_size K hab bc =
    if has_bug bc (BUG_COMPAT_DESCRIPTOR_WIDTHS K) then 4
    else sizeof_item_pointer_t + 1 - hab / 8.
Proof.
  intros V. unfold send.field_size.
  destruct (has_bug bc (BUG_COMPAT_DESCRIPTOR_WIDTHS K)); [reflexivity|].
  destruct (valid_flavour_cases hab V) as [-> | [-> | [-> | [-> | [-> | [-> | ->]]]]]];
    reflexivity.
Qed.

Lemma shape_size_eq (K : common_defines) (hab bc : Z) :
  valid_flavour hab ->
  send.shape_size K hab bc =
    if has_bug bc (BUG_COMPAT_DESCRIPTOR_WIDTHS K) then 8 else 1 + hab / 8.
Proof.
  intros V. unfold send.shape_size.
  destruct (has_bug bc (BUG_COMPAT_DESCRIPTOR_WIDTHS K)); [reflexivity|].
  destruct (valid_flavour_cases hab V) as [-> | [-> | [-> | [-> | [-> | [-> | ->]]]]]];
    reflexivity.
Qed.

Lemma field_size_range (K : common_defines) (hab bc : Z) :
  valid_flavour hab -> 2 <= send.field_size K hab bc <= 8.
Proof.
  intros V. rewrite field_size_eq by assumption.
  destruct (has_bug bc _); [lia|].
  destruct (valid_flavour_cases hab V) as [-> | [-> | [-> | [-> | [-> | [-> | ->]]]]]];
    vm_compute; split; discriminate.
Qed.

Lemma shape_size_range (K : common_defines) (hab bc : Z) :
  valid_flavour hab -> 2 <= send.shape_size K hab bc <= 8.
Proof.
  intros V. rewrite shape_size_eq by assumption.
  destruct (has_bug bc _); [lia|].
  destruct (valid_flavour_cases hab V) as [-> | [-> | [-> | [-> | [-> | [-> | ->]]]]]];
    vm_compute; split; discriminate.
Qed.

Lemma encode_field_length (w : Z) (field : Z * Z) (bs : list Z) :
  1 <= w ->
  send.encode_field w field = Returns bs -> length bs = Z.to_nat w.
Proof.
  intros Hw H. unfold send.encode_field in H.
  destruct (send.store_bytes_be (w - 1) (to_uint64 (snd field))) as [rest| | |] eqn:E;
    try discriminate.
  cbn [bind] in H. apply Returns_inj in H. subst bs.
  apply store_bytes_be_returns in E as (_ & -> & _).
  - simpl. rewrite be_bytes_length. lia.
  - unfold to_uint64. apply Z.mod_pos_bound. reflexivity.
Qed.

Lemma encode_dim_returns (w tag dim : Z) (bs : list Z) :
  1 <= w <= 8 ->
  send.encode_dim w tag dim = Returns bs ->
  length bs = Z.to_nat w
  /\ hd 0 bs = (if dim <? 0 then tag else 0)
  /\ tl bs = be_bytes (Z.to_nat (w - 1)) (if dim <? 0 then 0 else dim)
  /\ be_value (tl bs) = (if dim <? 0 then 0 else dim).
Proof.
  intros Hw H. unfold send.encode_dim in H.
  destruct (send.store_bytes_be (w - 1) (if dim <? 0 then 0 else dim)) as [rest| | |] eqn:E;
    try discriminate.
  cbn [bind] in H. apply Returns_inj in H. subst bs.
  apply store_bytes_be_returns in E as (_ & Hb & Hv).
  - cbn [hd tl length]. rewrite Hv by lia. subst rest.
    rewrite be_bytes_length. repeat split. lia.
  - destruct (dim <? 0) eqn:D; [lia | apply Z.ltb_ge in D; exact D].
Qed.

(** ** Layout of an encoded descriptor *)

Lemma bind_returns {A B : Type} (c : outcome A) (k : A -> outcome B) (b : B) :
  bind c k = Returns b -> exists a, c = Returns a /\ k a = Returns b.
Proof. destruct c; try discriminate. intros H; exists a; split; trivial. Qed.

Ltac bind_inv H :=
  let a := fresh "a" in
  let E := fresh "E" in
  apply bind_returns in H as (a & E & H); cbv beta zeta in H.

Lemma htobe64_length (v : Z) : length (htobe64 v) = 8%nat.
Proof. apply be_bytes_length. Qed.

Lemma concat_htobe64_length (ws : list Z) :
  length (concat (map htobe64 ws)) = (8 * length ws)%nat.
Proof.
  induction ws as [|w ws IH]; [reflexivity|].
  cbn [map concat]. rewrite length_app, htobe64_length, IH. simpl; lia.
Qed.

Lemma encode_descriptor_layout (K : common_defines) (wide_shift : Z -> Z)
    (d : send.descriptor) (hab bc : Z) (out : list Z) (total : Z) :
  send.encode_descriptor K wide_shift d hab bc = Returns (out, total) ->
  send.id_out_of_range wide_shift d hab = false
  /\ exists front fields dims,
       Z.of_nat (length front) = 8 + descriptor_items d * sizeof_item_pointer_t
       /\ for_each (send.encode_field (send.field_size K hab bc)) (send.format d)
          = Returns fields
       /\ for_each (send.encode_dim (send.shape_size K hab bc)
                      (send.variable_tag K bc)) (send.shape d)
          = Returns dims
       /\ out = front ++ send.name d ++ send.description d ++ fields ++ dims
                ++ (if size (send.numpy_header d) =? 0 then []
                    else send.numpy_header d).
Proof.
  intros H. unfold send.encode_descriptor in H.
  destruct (send.id_out_of_range wide_shift d hab) eqn:R; [discriminate|].
  split; [reflexivity|]. cbv beta zeta in H.
  do 9 bind_inv H.
  unfold descriptor_items, sizeof_item_pointer_t.
  destruct (size (send.numpy_header d) =? 0) eqn:N; cbn [negb] in H.
  - do 5 bind_inv H. apply Returns_inj in E8. subst a8.
    apply Returns_inj in H. apply (f_equal fst) in H. cbn [fst] in H.
    eexists _, a10, a11. split; [|split; [eassumption|split; [eassumption|]]].
    2:{ rewrite <- H. rewrite !app_assoc. reflexivity. }
    rewrite length_app, htobe64_length, concat_htobe64_length. simpl. lia.
  - do 5 bind_inv H. bind_inv E8. apply Returns_inj in E8. subst a8.
    apply Returns_inj in H. apply (f_equal fst) in H. cbn [fst] in H.
    eexists _, a10, a11. split; [|split; [eassumption|split; [eassumption|]]].
    2:{ rewrite <- H. rewrite !app_assoc. reflexivity. }
    rewrite length_app, htobe64_length, concat_htobe64_length. simpl. lia.
Qed.

Lemma shape_entry_in_dims (K : common_defines) (d : send.descriptor)
    (hab bc : Z) (front fields dims tail : list Z) (i : nat) :
  valid_flavour hab ->
  Z.of_nat (length front) = 8 + descriptor_items d * sizeof_item_pointer_t ->
  length fields
    = (length (send.format d) * Z.to_nat (send.field_size K hab bc))%nat ->
  length dims
    = (length (send.shape d) * Z.to_nat (send.shape_size K hab bc))%nat ->
  (i < length (send.shape d))%nat ->
  shape_entry K d hab bc
    (front ++ send.name d ++ send.description d ++ fields ++ dims ++ tail) i
  = firstn (Z.to_nat (send.shape_size K hab bc))
      (skipn (i * Z.to_nat (send.shape_size K hab bc)) dims).
Proof.
  intros V Hfront Hfields Hdims Hi.
  pose proof (field_size_range K hab bc V) as Rf.
  pose proof (shape_size_range K hab bc V) as Rs.
  unfold shape_entry, shape_offset, size.
  set (w := Z.to_nat (send.shape_size K hab bc)) in *.
  set (prefix := front ++ send.name d ++ send.description d ++ fields).
  replace (front ++ send.name d ++ send.description d ++ fields ++ dims ++ tail)
    with (prefix ++ dims ++ tail)
    by (unfold prefix; rewrite <- !app_assoc; reflexivity).
  assert (Hp : Z.to_nat (8 + descriptor_items d * sizeof_item_pointer_t
                         + Z.of_nat (length (send.name d))
                         + Z.of_nat (length (send.description d))
                         + Z.of_nat (length (send.format d))
                           * send.field_size K hab bc
                         + Z.of_nat i * send.shape_size K hab bc)
               = (length prefix + i * w)%nat).
  { unfold prefix, w. rewrite !length_app, Hfields. nia. }
  rewrite Hp.
  rewrite skipn_app.
  rewrite (skipn_all2 prefix) by lia. cbn [app].
  replace (length prefix + i * w - length prefix)%nat with (i * w)%nat by lia.
  rewrite skipn_app, firstn_app, length_skipn, Hdims.
  replace (w - (length (send.shape d) * w - i * w))%nat with O by nia.
  rewrite firstn_O, app_nil_r. reflexivity.
Qed.

(** Names the blob that [encode_descriptor] returns on the input of the
    goal. *)
Ltac encoded E :=
  match goal with
  | |- exists out total, ?X = Returns (out, total) /\ _ =>
      let v := eval vm_compute in X in
      match v with
      | Returns (?o, ?t) =>
          exists o, t;
          assert (E : X = Returns (o, t)) by (vm_compute; reflexivity)
      end
  end.

(** A number other than zero has a binary digit that is 1. *)
Lemma nonzero_has_bit (z : Z) :
  z <> 0 <-> exists n, 0 <= n /\ Z.testbit z n = true.
Proof.
  split.
  - intros Hz. destruct (Z.lt_trichotomy z 0) as [Neg | [E | Pos]];
      [| contradiction |].
    + exists (Z.succ (Z.log2 (Z.abs z))). split.
      * pose proof (Z.log2_nonneg (Z.abs z)). lia.
      * apply Z.bits_iff_neg'. exact Neg.
    + exists (Z.log2 z). split; [apply Z.log2_nonneg | apply Z.bit_log2; exact Pos].
  - intros (n & _ & Hn) ->. rewrite Z.bits_0 in Hn. discriminate Hn.
Qed.

(** The test [bug_compat & BIT] of the code succeeds exactly when the named
    bit is set in the mask. *)
Lemma has_bug_iff (bug_compat bit : Z) :
  has_bug bug_compat bit = true <-> bug_bit_set bug_compat bit.
Proof.
  unfold has_bug, bug_bit_set.
  rewrite negb_true_iff, Z.eqb_neq, nonzero_has_bit.
  split; intros (n & Hn & H); exists n; (split; [exact Hn|]).
  - rewrite Z.land_spec in H. apply andb_prop in H. exact H.
  - rewrite Z.land_spec. destruct H as [-> ->]. reflexivity.
Qed.

(** For a constant that is one binary digit, the named bit is set exactly
    when the mask has that digit. *)
Lemma bug_bit_set_single (bug_compat k : Z) :
  0 <= k ->
  bug_bit_set bug_compat (2 ^ k) <-> Z.testbit bug_compat k = true.
Proof.
  intros Hk. unfold bug_bit_set. split.
  - intros (n & Hn & Hm & Hb).
    rewrite Z.pow2_bits_eqb in Hb by exact Hk.
    apply Z.eqb_eq in Hb. subst n. exact Hm.
  - intros Hm. exists k. split; [exact Hk|]. split; [exact Hm|].
    apply Z.pow2_bits_true. exact Hk.
Qed.

Lemma has_bug_single (bug_compat k : Z) :
  0 <= k -> has_bug bug_compat (2 ^ k) = Z.testbit bug_compat k.
Proof.
  intros Hk. apply eq_true_iff_eq.
  rewrite has_bug_iff. apply bug_bit_set_single. exact Hk.
Qed.

(** C7.  For every descriptor and every flavour, [encode_descriptor] works
    with [field_size] = 4 bytes per format entry and [shape_size] = 8 bytes
    per shape entry when the DESCRIPTOR_WIDTHS bug bit is set in the mask,
    and with [sizeof(item_pointer_t) + 1 - heap_address_bits / 8] and
    [1 + heap_address_bits / 8] when it is not; the blob it returns is laid
    out with these widths.  The first byte of each shape entry is 2 for a
    variable (negative) dimension when the SHAPE_BIT_1 bug bit is set, 1 for
    a variable dimension when it is not, and 0 for a fixed dimension; the
    other bytes are the big-endian unsigned dimension, or zero when it is
    variable.  A bug bit is set when the mask shares a binary digit with the
    constant naming it; for a constant [2^k] that is digit [k] of the mask,
    whatever the other digits are. *)
Theorem encode_descriptor_widths_and_shape_entries
    (K : common_defines) (wide_shift : Z -> Z) (d : send.descriptor)
    (hab bc : Z) :
  valid_flavour hab ->
  (bug_bit_set bc (BUG_COMPAT_DESCRIPTOR_WIDTHS K) ->
   send.field_size K hab bc = 4 /\ send.shape_size K hab bc = 8)
  /\ (~ bug_bit_set bc (BUG_COMPAT_DESCRIPTOR_WIDTHS K) ->
      send.field_size K hab bc = sizeof_item_pointer_t + 1 - hab / 8
      /\ send.shape_size K hab bc = 1 + hab / 8)
  /\ (forall k, 0 <= k -> BUG_COMPAT_DESCRIPTOR_WIDTHS K = 2 ^ k ->
      send.field_size K hab bc
      = (if Z.testbit bc k then 4 else sizeof_item_pointer_t + 1 - hab / 8)
      /\ send.shape_size K hab bc
         = (if Z.testbit bc k then 8 else 1 + hab / 8))
  /\ forall (out : list Z) (total : Z),
       send.encode_descriptor K wide_shift d hab bc = Returns (out, total) ->
       size out
       = 8 + descriptor_items d * sizeof_item_pointer_t
         + size (send.name d) + size (send.description d)
         + size (send.format d) * send.field_size K hab bc
         + size (send.shape d) * send.shape_size K hab bc
         + size (send.numpy_header d)
       /\ forall (i : nat) (dim : Z),
            nth_error (send.shape d) i = Some dim ->
            let entry := shape_entry K d hab bc out i in
            size entry = send.shape_size K hab bc
            /\ (dim < 0 -> bug_bit_set bc (BUG_COMPAT_SHAPE_BIT_1 K) ->
                hd 0 entry = 2)
            /\ (dim < 0 -> ~ bug_bit_set bc (BUG_COMPAT_SHAPE_BIT_1 K) ->
                hd 0 entry = 1)
            /\ (0 <= dim -> hd 0 entry = 0)
            /\ (forall k, 0 <= k -> BUG_COMPAT_SHAPE_BIT_1 K = 2 ^ k ->
                hd 0 entry
                = (if dim <? 0 then if Z.testbit bc k then 2 else 1 else 0))
            /\ tl entry
               = be_bytes (Z.to_nat (send.shape_size K hab bc - 1))
                   (if dim <? 0 then 0 else dim)
            /\ be_value (tl entry) = (if dim <? 0 then 0 else dim).
Proof.
  intros V.
  pose proof (field_size_eq K hab bc V) as Ef.
  pose proof (shape_size_eq K hab bc V) as Es.
  pose proof (has_bug_iff bc (BUG_COMPAT_DESCRIPTOR_WIDTHS K)) as Bw.
  split.
  { intros B. apply Bw in B. rewrite B in Ef, Es. split; assumption. }
  split.
  { intros B. destruct (has_bug bc (BUG_COMPAT_DESCRIPTOR_WIDTHS K));
      [exfalso; apply B, Bw; reflexivity | split; assumption]. }
  split.
  { intros k Hk Ek. rewrite Ek, has_bug_single in Ef, Es by exact Hk.
    split; assumption. }
  intros out total H.
  pose proof (field_size_range K hab bc V) as Rf.
  pose proof (shape_size_range K hab bc V) as Rs.
  apply encode_descriptor_layout in H
    as (_ & front & fields & dims & Hfront & Hfields & Hdims & ->).
  assert (F1 : 1 <= send.field_size K hab bc) by lia.
  assert (S1 : 1 <= send.shape_size K hab bc <= 8) by lia.
  destruct (for_each_entry _ (Z.to_nat (send.field_size K hab bc))
              (fun x bs E => encode_field_length _ x bs F1 E)
              _ _ Hfields) as [Lf _].
  destruct (for_each_entry _ (Z.to_nat (send.shape_size K hab bc))
              (fun x bs E => proj1 (encode_dim_returns _ _ x bs S1 E))
              _ _ Hdims) as [Ld Hentry].
  split.
  - unfold size in *. rewrite !length_app, Lf, Ld.
    destruct (Z.of_nat (length (send.numpy_header d)) =? 0) eqn:N.
    + apply Z.eqb_eq in N. simpl length. nia.
    + nia.
  - intros i dim Hi entry. subst entry.
    assert (Hlt : (i < length (send.shape d))%nat)
      by (apply nth_error_Some; congruence).
    rewrite (shape_entry_in_dims K d hab bc front fields dims _ i V Hfront Lf Ld Hlt).
    specialize (Hentry i dim Hi).
    apply encode_dim_returns in Hentry as (L & Hh & Hb & Ht); [|lia].
    unfold size. rewrite L. unfold send.variable_tag in Hh.
    pose proof (has_bug_iff bc (BUG_COMPAT_SHAPE_BIT_1 K)) as Bs.
    split; [lia|].
    split.
    { intros Hd B. apply Z.ltb_lt in Hd. apply Bs in B.
      rewrite Hd, B in Hh. exact Hh. }
    split.
    { intros Hd B. apply Z.ltb_lt in Hd. rewrite Hd in Hh.
      destruct (has_bug bc (BUG_COMPAT_SHAPE_BIT_1 K));
        [exfalso; apply B, Bs; reflexivity | exact Hh]. }
    split.
    { intros Hd. apply Z.ltb_ge in Hd. rewrite Hd in Hh. exact Hh. }
    split.
    { intros k Hk Ek. rewrite Ek, has_bug_single in Hh by exact Hk. exact Hh. }
    split; [exact Hb | exact Ht].
Qed.

(** Scenario 6 in flavour (64, 16) under four masks, with the constants
    DESCRIPTOR_WIDTHS = 1 and SHAPE_BIT_1 = 2.  Mask 1 gives the widths 4
    and 8 and the tag 1; mask 2 gives the widths of the flavour, 7 and 3,
    and the tag 2; mask 4, where neither bit is set, gives 7 and 3 and the
    tag 1, as mask 0 does in flavour (64, 40) with its widths 4 and 6. *)
Lemma encode_descriptor_widths_and_shape_entries_witness :
  (send.field_size spead_defines 16 1 = 4
   /\ send.shape_size spead_defines 16 1 = 8
   /\ exists out total,
        send.encode_descriptor spead_defines send.masked_shift scenario6 16 1
          = Returns (out, total)
        /\ size (shape_entry spead_defines scenario6 16 1 out 0) = 8
        /\ hd 0 (shape_entry spead_defines scenario6 16 1 out 0) = 1
        /\ hd 0 (shape_entry spead_defines scenario6 16 1 out 1) = 0
        /\ be_value (tl (shape_entry spead_defines scenario6 16 1 out 1)) = 4)
  /\ (send.field_size spead_defines 16 2 = 7
      /\ send.shape_size spead_defines 16 2 = 3
      /\ exists out total,
           send.encode_descriptor spead_defines send.masked_shift scenario6 16 2
             = Returns (out, total)
           /\ size (shape_entry spead_defines scenario6 16 2 out 0) = 3
           /\ hd 0 (shape_entry spead_defines scenario6 16 2 out 0) = 2
           /\ hd 0 (shape_entry spead_defines scenario6 16 2 out 1) = 0)
  /\ (send.field_size spead_defines 16 4 = 7
      /\ send.shape_size spead_defines 16 4 = 3
      /\ exists out total,
           send.encode_descriptor spead_defines send.masked_shift scenario6 16 4
             = Returns (out, total)
           /\ hd 0 (shape_entry spead_defines scenario6 16 4 out 0) = 1)
  /\ (send.encode_descriptor spead_defines send.masked_shift scenario6 40 0
        = Returns (scenario6_blob, 97)
      /\ send.field_size spead_defines 40 0 = 4
      /\ send.shape_size spead_defines 40 0 = 6
      /\ shape_entry spead_defines scenario6 40 0 scenario6_blob 0
         = [1; 0; 0; 0; 0; 0]
      /\ hd 0 (shape_entry spead_defines scenario6 40 0 scenario6_blob 1) = 0
      /\ be_value (tl (shape_entry spead_defines scenario6 40 0 scenario6_blob 1))
         = 4).
Proof.
  assert (V16 : valid_flavour 16).
  { split; [unfold sizeof_item_pointer_t; lia | exists 2; reflexivity]. }
  assert (V40 : valid_flavour 40).
  { split; [unfold sizeof_item_pointer_t; lia | exists 5; reflexivity]. }
  assert (W : BUG_COMPAT_DESCRIPTOR_WIDTHS spead_defines = 2 ^ 0) by reflexivity.
  assert (S : BUG_COMPAT_SHAPE_BIT_1 spead_defines = 2 ^ 1) by reflexivity.
  assert (Set1 : bug_bit_set 1 (BUG_COMPAT_DESCRIPTOR_WIDTHS spead_defines))
    by (exists 0; repeat split; lia).
  assert (Set2 : bug_bit_set 2 (BUG_COMPAT_SHAPE_BIT_1 spead_defines))
    by (exists 1; repeat split; lia).
  assert (Unset2 : ~ bug_bit_set 2 (BUG_COMPAT_DESCRIPTOR_WIDTHS spead_defines)).
  { rewrite W, bug_bit_set_single by lia. discriminate. }
  assert (Unset4 : ~ bug_bit_set 4 (BUG_COMPAT_DESCRIPTOR_WIDTHS spead_defines)).
  { rewrite W, bug_bit_set_single by lia. discriminate. }
  assert (Unset4' : ~ bug_bit_set 4 (BUG_COMPAT_SHAPE_BIT_1 spead_defines)).
  { rewrite S, bug_bit_set_single by lia. discriminate. }
  assert (Unset1' : ~ bug_bit_set 1 (BUG_COMPAT_SHAPE_BIT_1 spead_defines)).
  { rewrite S, bug_bit_set_single by lia. discriminate. }
  assert (Neg : -1 < 0) by lia.
  assert (Pos : 0 <= 4) by lia.
  split; [|split; [|split]].
  - pose proof (encode_descriptor_widths_and_shape_entries
                  spead_defines send.masked_shift scenario6 16 1 V16)
      as (Hset & _ & _ & Hout).
    destruct (Hset Set1) as (Hf & Hs).
    split; [exact Hf|]. split; [exact Hs|].
    encoded E. split; [exact E|].
    destruct (Hout _ _ E) as (_ & He).
    pose proof (He 0%nat (-1) eq_refl) as (L0 & _ & H0 & _).
    pose proof (He 1%nat 4 eq_refl) as (_ & _ & _ & H1 & _ & _ & V1).
    split; [rewrite L0; exact Hs|].
    split; [exact (H0 Neg Unset1')|]. split; [exact (H1 Pos) | exact V1].
  - pose proof (encode_descriptor_widths_and_shape_entries
                  spead_defines send.masked_shift scenario6 16 2 V16)
      as (_ & Hunset & _ & Hout).
    destruct (Hunset Unset2) as (Hf & Hs).
    split; [exact Hf|]. split; [exact Hs|].
    encoded E. split; [exact E|].
    destruct (Hout _ _ E) as (_ & He).
    pose proof (He 0%nat (-1) eq_refl) as (L0 & H0 & _).
    pose proof (He 1%nat 4 eq_refl) as (_ & _ & _ & H1 & _).
    split; [rewrite L0; exact Hs|].
    split; [exact (H0 Neg Set2) | exact (H1 Pos)].
  - pose proof (encode_descriptor_widths_and_shape_entries
                  spead_defines send.masked_shift scenario6 16 4 V16)
      as (_ & Hunset & _ & Hout).
    destruct (Hunset Unset4) as (Hf & Hs).
    split; [exact Hf|]. split; [exact Hs|].
    encoded E. split; [exact E|].
    destruct (Hout _ _ E) as (_ & He).
    pose proof (He 0%nat (-1) eq_refl) as (_ & _ & H0 & _).
    exact (H0 Neg Unset4').
  - assert (E : send.encode_descriptor spead_defines send.masked_shift
                  scenario6 40 0 = Returns (scenario6_blob, 97))
      by (vm_compute; reflexivity).
    pose proof (encode_descriptor_widths_and_shape_entries
                  spead_defines send.masked_shift scenario6 40 0 V40)
      as (_ & _ & Hk & Hout).
    destruct (Hk 0 (Z.le_refl 0) W) as (Hf & Hs).
    destruct (Hout _ _ E) as (_ & He).
    pose proof (He 1%nat 4 eq_refl) as (_ & _ & _ & H1 & _ & _ & V1).
    split; [exact E|]. split; [exact Hf|]. split; [exact Hs|].
    split; [vm_compute; reflexivity|].
    split; [exact (H1 Pos) | exact V1].
Defined.

(** ** The [send::heap] constructor *)

(** C8.  The [send::heap] constructor throws [std::invalid_argument] exactly
    when [heap_address_bits] is not a positive multiple of 8 strictly below
    the pointer width in bits; for every positive multiple of 8 below the
    pointer width it returns the heap. *)
Theorem heap_ctor_invalid_argument_iff (cnt hab bc : Z) :
  (send.heap_ctor cnt hab bc = Throws_invalid_argument <-> ~ valid_flavour hab)
  /\ (valid_flavour hab ->
      exists h, send.heap_ctor cnt hab bc = Returns h
                /\ send.heap_address_bits h = hab
                /\ send.cnt h = cnt /\ send.bug_compat h = bc).
Proof.
  unfold send.heap_ctor, valid_flavour, sizeof_item_pointer_t.
  change (8 * to_int 8) with 64. change (8 * 8) with 64.
  destruct (hab <=? 0) eqn:L0; cbn [orb].
  { apply Z.leb_le in L0. split; [split; [lia | reflexivity] | lia]. }
  apply Z.leb_gt in L0.
  destruct (64 <=? hab) eqn:L64; cbn [orb].
  { apply Z.leb_le in L64. split; [split; [lia | reflexivity] | lia]. }
  apply Z.leb_gt in L64.
  rewrite Z.rem_mod_nonneg by lia.
  destruct (hab mod 8 =? 0) eqn:M; cbn [negb].
  - apply Z.eqb_eq in M. split.
    + split; [discriminate|]. intros N. exfalso. apply N.
      split; [lia|]. apply Z.mod_divide; [lia | exact M].
    + intros _. eexists. repeat split.
  - apply Z.eqb_neq in M. split.
    + split; [|reflexivity]. intros _ [_ D].
      apply Z.mod_divide in D; [contradiction | lia].
    + intros [_ D]. apply Z.mod_divide in D; [contradiction | lia].
Qed.

Lemma heap_ctor_invalid_argument_iff_witness :
  send.heap_ctor 1 12 0 = Throws_invalid_argument
  /\ exists h, send.heap_ctor 1 40 0 = Returns h /\ send.heap_address_bits h = 40.
Proof.
  split.
  - apply (proj1 (heap_ctor_invalid_argument_iff 1 12 0)).
    unfold valid_flavour, sizeof_item_pointer_t. intros [_ [k Hk]]. lia.
  - destruct (proj2 (heap_ctor_invalid_argument_iff 1 40 0)) as (h & E & A & _).
    + split; [unfold sizeof_item_pointer_t; lia | exists 5; reflexivity].
    + exists h. split; assumption.
Defined.

(** ** The id check of [encode_descriptor] *)

(** In every flavour the constructor lets through, the shift on line 53 has
    a count of at least 64: the subtraction is done on the size in bytes,
    [sizeof(item_pointer_t)], not on the width in bits. *)
Lemma id_shift_count_wide (hab : Z) :
  valid_flavour hab ->
  send.id_shift_count hab = 2 ^ 64 + 7 - hab /\ 64 <= send.id_shift_count hab.
Proof.
  intros V.
  destruct (valid_flavour_cases hab V) as [-> | [-> | [-> | [-> | [-> | [-> | ->]]]]]];
    vm_compute; split; (reflexivity || discriminate).
Qed.

(** With the count reduced modulo 64 the check compares the id with
    [1 << (71 - heap_address_bits)]. *)
Lemma id_out_of_range_masked (d : send.descriptor) (hab : Z) :
  valid_flavour hab ->
  send.id_out_of_range send.masked_shift d hab
  = (send.id d <=? 0) || (to_int64 (2 ^ (71 - hab)) <=? send.id d).
Proof.
  intros V. unfold send.id_out_of_range, send.shift_one_left, send.masked_shift.
  destruct (id_shift_count_wide hab V) as [E W].
  destruct (send.id_shift_count hab <? 64) eqn:C; [apply Z.ltb_lt in C; lia|].
  rewrite E, Z.shiftl_1_l.
  replace ((2 ^ 64 + 7 - hab) mod 64) with (71 - hab); [reflexivity|].
  destruct (valid_flavour_cases hab V) as [-> | [-> | [-> | [-> | [-> | [-> | ->]]]]]];
    reflexivity.
Qed.

(** C1 (evaluation at the failing inputs).  In flavour (64, 40) the id 2^23
    lies outside the legal range [0 < id < 2^23], yet the check lets it
    through and the descriptor is encoded; in flavour (64, 8) the id 1 lies
    inside the legal range [0 < id < 2^55], yet the check throws. *)
Theorem id_check_misses_legal_item_id_range :
  valid_flavour 40
  /\ ~ legal_item_id 40 (send.id descriptor_2p23)
  /\ send.id_shift_count 40 = 2 ^ 64 - 33
  /\ send.id_out_of_range send.masked_shift descriptor_2p23 40 = false
  /\ (exists blob,
        send.encode_descriptor spead_defines send.masked_shift descriptor_2p23 40 0
        = Returns blob)
  /\ valid_flavour 8
  /\ legal_item_id 8 (send.id descriptor_1)
  /\ send.encode_descriptor spead_defines send.masked_shift descriptor_1 8 0
     = Throws_invalid_argument.
Proof.
  unfold valid_flavour, legal_item_id, sizeof_item_pointer_t.
  split; [split; [lia | exists 5; reflexivity]|].
  split; [cbn; lia|].
  split; [reflexivity|].
  split; [reflexivity|].
  split; [eexists; vm_compute; reflexivity|].
  split; [split; [lia | exists 1; reflexivity]|].
  split; [cbn; lia|].
  vm_compute; reflexivity.
Qed.

(* ------------------------------------------------------------------ *)
(** ** The receive stream: ordered collections *)

Lemma ascending_app_inv (l1 l2 : list Z) :
  StronglySorted Z.lt (l1 ++ l2) ->
  StronglySorted Z.lt l1 /\ StronglySorted Z.lt l2
  /\ forall a b, In a l1 -> In b l2 -> a < b.
Proof.
  induction l1 as [|x l1 IH]; cbn [app]; intros H.
  - repeat split; [constructor | exact H | intros a b []].
  - apply StronglySorted_inv in H as [H Hx].
    destruct (IH H) as (S1 & S2 & Hlt).
    rewrite Forall_app in Hx. destruct Hx as [Hx1 Hx2].
    repeat split; [constructor; assumption | assumption |].
    intros a b [<- | Ha] Hb.
    + rewrite Forall_forall in Hx2. apply Hx2; exact Hb.
    + apply Hlt; assumption.
Qed.

Lemma ascending_app (l1 l2 : list Z) :
  StronglySorted Z.lt l1 -> StronglySorted Z.lt l2 ->
  (forall a b, In a l1 -> In b l2 -> a < b) ->
  StronglySorted Z.lt (l1 ++ l2).
Proof.
  induction l1 as [|x l1 IH]; cbn [app]; intros S1 S2 Hlt; [exact S2|].
  apply StronglySorted_inv in S1 as [S1 Hx].
  constructor.
  - apply IH; [assumption | assumption |].
    intros a b Ha Hb. apply Hlt; [right; exact Ha | exact Hb].
  - rewrite Forall_app. split; [exact Hx|].
    rewrite Forall_forall. intros b Hb. apply Hlt; [left; reflexivity | exact Hb].
Qed.

Lemma ascending_tl (hs : list recv.heap.t) : ascending hs -> ascending (tl hs).
Proof.
  destruct hs as [|h hs]; [trivial|].
  unfold ascending; cbn. intros H. apply StronglySorted_inv in H. tauto.
Qed.

Lemma ascending_remove (l1 l2 : list recv.heap.t) (h : recv.heap.t) :
  ascending (l1 ++ h :: l2) -> ascending (l1 ++ l2).
Proof.
  unfold ascending, cnts. rewrite !map_app. cbn [map]. intros H.
  apply ascending_app_inv in H as (S1 & S2 & Hlt).
  apply StronglySorted_inv in S2 as [S2 _].
  apply ascending_app; [assumption | assumption |].
  intros a b Ha Hb. apply Hlt; [exact Ha | right; exact Hb].
Qed.

Lemma ascending_replace (l1 l2 : list recv.heap.t) (h h' : recv.heap.t) :
  recv.heap.cnt h' = recv.heap.cnt h ->
  ascending (l1 ++ h :: l2) -> ascending (l1 ++ h' :: l2).
Proof.
  unfold ascending, cnts. rewrite !map_app. cbn [map]. intros ->. trivial.
Qed.

Lemma ascending_insert (l1 l2 : list recv.heap.t) (h : recv.heap.t) :
  ascending (l1 ++ l2) ->
  Forall (fun x => recv.heap.cnt x < recv.heap.cnt h) l1 ->
  Forall (fun x => recv.heap.cnt h < recv.heap.cnt x) l2 ->
  ascending (l1 ++ h :: l2).
Proof.
  unfold ascending, cnts. rewrite !map_app. cbn [map]. intros H F1 F2.
  apply ascending_app_inv in H as (S1 & S2 & Hlt).
  rewrite Forall_forall in F1, F2.
  apply ascending_app; [assumption | |].
  - constructor; [assumption|].
    rewrite Forall_forall. intros b Hb.
    apply in_map_iff in Hb as (x & <- & Hx). apply F2; exact Hx.
  - intros a b Ha [<- | Hb].
    + apply in_map_iff in Ha as (x & <- & Hx). apply F1; exact Hx.
    + apply Hlt; assumption.
Qed.

(** ** The scan of [add_packet] *)

Lemma find_heap_found (hs : list recv.heap.t) (c : Z) (it ib j ib' : nat)
    (h : recv.heap.t) :
  recv.find_heap hs c it ib = (Some (j, h), ib') ->
  exists l1 l2, hs = l1 ++ h :: l2 /\ j = (it + length l1)%nat
                /\ recv.heap.cnt h = c
                /\ Forall (fun x => recv.heap.cnt x <> c) l1.
Proof.
  revert it ib; induction hs as [|x hs IH]; intros it ib H; cbn [recv.find_heap] in H.
  - discriminate.
  - destruct (recv.heap.cnt x =? c) eqn:E.
    + injection H as <- <- _. apply Z.eqb_eq in E.
      exists [], hs. repeat split; [simpl; lia | exact E | constructor].
    + apply Z.eqb_neq in E.
      assert (exists it' ib0, recv.find_heap hs c it' ib0 = (Some (j, h), ib')
                              /\ it' = S it) as (it' & ib0 & H' & ->).
      { destruct (recv.heap.cnt x <? c); eauto. }
      destruct (IH _ _ H') as (l1 & l2 & -> & -> & Hc & F).
      exists (x :: l1), l2.
      repeat split; [simpl; lia | exact Hc | constructor; assumption].
Qed.

Lemma find_heap_all_above (hs : list recv.heap.t) (c : Z) (it ib : nat) :
  Forall (fun x => c < recv.heap.cnt x) hs ->
  recv.find_heap hs c it ib = (None, ib).
Proof.
  revert it; induction hs as [|x hs IH]; intros it F; cbn [recv.find_heap].
  - reflexivity.
  - apply Forall_cons_iff in F as [Fx F].
    destruct (recv.heap.cnt x =? c) eqn:E; [apply Z.eqb_eq in E; lia|].
    destruct (recv.heap.cnt x <? c) eqn:L; [apply Z.ltb_lt in L; lia|].
    apply IH; exact F.
Qed.

Lemma find_heap_none (hs : list recv.heap.t) (c : Z) (it ib' : nat) :
  ascending hs ->
  recv.find_heap hs c it it = (None, ib') ->
  exists l1 l2, hs = l1 ++ l2 /\ ib' = (it + length l1)%nat
                /\ Forall (fun x => recv.heap.cnt x < c) l1
                /\ Forall (fun x => c < recv.heap.cnt x) l2.
Proof.
  revert it; induction hs as [|x hs IH]; intros it A H; cbn [recv.find_heap] in H.
  - injection H as <-. exists [], []. repeat split; [simpl; lia | constructor..].
  - destruct (recv.heap.cnt x =? c) eqn:E; [discriminate|]. apply Z.eqb_neq in E.
    unfold ascending in A. cbn in A. apply StronglySorted_inv in A as [A Hx].
    destruct (recv.heap.cnt x <? c) eqn:L.
    + apply Z.ltb_lt in L.
      destruct (IH _ A H) as (l1 & l2 & -> & -> & F1 & F2).
      exists (x :: l1), l2.
      repeat split; [simpl; lia | constructor; assumption | assumption].
    + apply Z.ltb_ge in L.
      assert (F : Forall (fun y => c < recv.heap.cnt y) (x :: hs)).
      { constructor; [lia|].
        rewrite Forall_forall in Hx |- *. intros y Hy.
        assert (recv.heap.cnt x < recv.heap.cnt y)
          by (apply Hx, in_map; exact Hy).
        lia. }
      apply Forall_cons_iff in F as [Fx F'].
      rewrite (find_heap_all_above hs c (S it) it F') in H.
      injection H as <-.
      exists [], (x :: hs).
      repeat split; [simpl; lia | constructor | constructor; assumption].
Qed.

Lemma deque_assign_at (l1 l2 : list recv.heap.t) (h h' : recv.heap.t) :
  recv.deque_assign (l1 ++ h :: l2) (length l1) h' = l1 ++ h' :: l2.
Proof.
  unfold recv.deque_assign.
  rewrite firstn_app, firstn_all, Nat.sub_diag, firstn_O, app_nil_r.
  change (S (length l1)) with (1 + length l1)%nat.
  rewrite <- skipn_skipn, skipn_app, skipn_all, Nat.sub_diag. reflexivity.
Qed.

Lemma deque_erase_at (l1 l2 : list recv.heap.t) (h : recv.heap.t) :
  recv.deque_erase (l1 ++ h :: l2) (length l1) = l1 ++ l2.
Proof.
  unfold recv.deque_erase.
  rewrite firstn_app, firstn_all, Nat.sub_diag, firstn_O, app_nil_r.
  change (S (length l1)) with (1 + length l1)%nat.
  rewrite <- skipn_skipn, skipn_app, skipn_all, Nat.sub_diag. reflexivity.
Qed.

Lemma deque_insert_at (l1 l2 : list recv.heap.t) (h : recv.heap.t) :
  recv.deque_insert (l1 ++ l2) (length l1) h = l1 ++ h :: l2.
Proof.
  unfold recv.deque_insert.
  rewrite firstn_app, firstn_all, Nat.sub_diag, firstn_O, app_nil_r.
  rewrite skipn_app, skipn_all, Nat.sub_diag. reflexivity.
Qed.

(** ** The two branches of [add_packet] *)

Section dispatch.

Variable M : recv.heap_members.

(** The packet's count matches a live heap [h], found between [l1] and
    [l2]: the heap is updated in place, and erased when complete. *)
Lemma dispatch_found (s : recv.stream_base) (packet : recv.packet_header)
    (j ib : nat) (h : recv.heap.t) :
  recv.find_heap (recv.heaps s) (recv.heap_cnt packet) 0 0 = (Some (j, h), ib) ->
  exists l1 l2,
    recv.heaps s = l1 ++ h :: l2
    /\ recv.heap.cnt h = recv.heap_cnt packet
    /\ recv.dispatch M s packet =
       let h' := snd (recv.heap_add_packet M h packet) in
       if fst (recv.heap_add_packet M h packet) then
         if recv.is_complete M h' then
           {| recv.result := true;
              recv.saw_end_of_stream := recv.is_end_of_stream M h';
              recv.after := recv.with_heaps s (l1 ++ l2);
              recv.calls := [{| recv.ready_heap := h';
                                recv.live_at_call := l1 ++ h' :: l2 |}] |}
         else
           {| recv.result := true;
              recv.saw_end_of_stream := recv.is_end_of_stream M h';
              recv.after := recv.with_heaps s (l1 ++ h' :: l2);
              recv.calls := [] |}
       else
         {| recv.result := false; recv.saw_end_of_stream := false;
            recv.after := recv.with_heaps s (l1 ++ h' :: l2);
            recv.calls := [] |}.
Proof.
  intros F. unfold recv.dispatch. rewrite F.
  apply find_heap_found in F as (l1 & l2 & E & -> & Hc & _).
  exists l1, l2. split; [exact E|]. split; [exact Hc|].
  rewrite E. cbn [Nat.add].
  destruct (recv.heap_add_packet M h packet) as [accepted h'].
  cbn [fst snd]. rewrite deque_assign_at, deque_erase_at. reflexivity.
Qed.

(** No live heap has the packet's count: a new heap [h'] is made, and if
    it accepts the packet without being complete it goes between the
    heaps of lower count [l1] and those of higher count [l2]. *)
Lemma dispatch_new (s : recv.stream_base) (packet : recv.packet_header)
    (ib : nat) :
  ascending (recv.heaps s) ->
  recv.find_heap (recv.heaps s) (recv.heap_cnt packet) 0 0 = (None, ib) ->
  exists l1 l2,
    recv.heaps s = l1 ++ l2
    /\ Forall (fun x => recv.heap.cnt x < recv.heap_cnt packet) l1
    /\ Forall (fun x => recv.heap_cnt packet < recv.heap.cnt x) l2
    /\ recv.dispatch M s packet =
       let h := recv.heap_set_mempool M
                  (recv.heap_ctor M (recv.heap_cnt packet) (recv.bug_compat s))
                  (recv.pool s) in
       let h' := snd (recv.heap_add_packet M h packet) in
       if fst (recv.heap_add_packet M h packet) then
         if recv.is_complete M h' then
           {| recv.result := true;
              recv.saw_end_of_stream := recv.is_end_of_stream M h';
              recv.after := s;
              recv.calls := [{| recv.ready_heap := h';
                                recv.live_at_call := l1 ++ l2 |}] |}
         else if recv.max_heaps s <? size (l1 ++ h' :: l2) then
           {| recv.result := true;
              recv.saw_end_of_stream := recv.is_end_of_stream M h';
              recv.after := recv.with_heaps s (tl (l1 ++ h' :: l2));
              recv.calls := [{| recv.ready_heap := hd h' (l1 ++ h' :: l2);
                                recv.live_at_call := l1 ++ h' :: l2 |}] |}
         else
           {| recv.result := true;
              recv.saw_end_of_stream := recv.is_end_of_stream M h';
              recv.after := recv.with_heaps s (l1 ++ h' :: l2);
              recv.calls := [] |}
       else
         {| recv.result := false; recv.saw_end_of_stream := false;
            recv.after := s; recv.calls := [] |}.
Proof.
  intros A F. unfold recv.dispatch. rewrite F.
  apply find_heap_none in F as (l1 & l2 & E & -> & F1 & F2); [|exact A].
  exists l1, l2. split; [exact E|]. split; [exact F1|]. split; [exact F2|].
  rewrite E. cbn [Nat.add].
  cbv zeta.
  destruct (recv.heap_add_packet M _ packet) as [accepted h'].
  cbn [fst snd]. rewrite deque_insert_at.
  destruct accepted; [|reflexivity].
  destruct (recv.is_complete M h'); [reflexivity|].
  destruct (recv.max_heaps s <? size (l1 ++ h' :: l2)); [|reflexivity].
  destruct l1; reflexivity.
Qed.

End dispatch.

(** ** The order of the live collection *)

Ltac sizes :=
  unfold size in *;
  repeat first
    [ progress cbn [length] in *
    | match goal with
      | |- context [length (_ ++ _)] => rewrite length_app
      | H : context [length (_ ++ _)] |- _ => rewrite length_app in H
      end ];
  lia.

Section order.

Variable M : recv.heap_members.
Hypothesis C : keeps_cnt M.

Lemma new_heap_cnt (s : recv.stream_base) (packet : recv.packet_header) :
  recv.heap.cnt (new_heap M s packet) = recv.heap_cnt packet.
Proof.
  unfold new_heap.
  rewrite (add_packet_cnt M C), (set_mempool_cnt M C), (ctor_cnt M C).
  reflexivity.
Qed.

Lemma dispatch_order (s : recv.stream_base) (packet : recv.packet_header) :
  ascending (recv.heaps s) ->
  order_kept (recv.after (recv.dispatch M s packet))
    (recv.calls (recv.dispatch M s packet)).
Proof.
  intros A. unfold order_kept.
  destruct (recv.find_heap (recv.heaps s) (recv.heap_cnt packet) 0 0)
    as [[[j h]|] ib] eqn:F.
  - destruct (dispatch_found M s packet j ib h F) as (l1 & l2 & E & Hc & ->).
    pose proof (add_packet_cnt M C h packet) as Hh'.
    rewrite E in A. cbv zeta.
    assert (A' : ascending (l1 ++ snd (recv.heap_add_packet M h packet) :: l2))
      by (apply (ascending_replace l1 l2 h); assumption).
    pose proof (ascending_remove _ _ _ A') as A''.
    destruct (fst (recv.heap_add_packet M h packet));
      [destruct (recv.is_complete M _)|];
      cbn [recv.after recv.calls recv.with_heaps recv.heaps];
      split; trivial; repeat constructor; trivial.
  - destruct (dispatch_new M s packet ib A F) as (l1 & l2 & E & F1 & F2 & ->).
    cbv zeta. fold (new_heap M s packet).
    pose proof (new_heap_cnt s packet) as Hn.
    rewrite E in A.
    assert (A' : ascending (l1 ++ new_heap M s packet :: l2)).
    { apply ascending_insert; [exact A | |]; rewrite Hn; assumption. }
    pose proof (ascending_tl _ A') as A''.
    destruct (fst (recv.heap_add_packet M _ packet));
      [destruct (recv.is_complete M _);
       [|destruct (recv.max_heaps s <? size (l1 ++ new_heap M s packet :: l2))]|];
      cbn [recv.after recv.calls recv.with_heaps recv.heaps];
      rewrite ?E;
      split; trivial; repeat constructor; trivial.
Qed.

Lemma flush_order (s : recv.stream_base) :
  ascending (recv.heaps s) ->
  order_kept (fst (recv.flush s)) (snd (recv.flush s)).
Proof.
  intros A. unfold order_kept, recv.flush. cbn.
  split; [constructor|].
  rewrite Forall_map, Forall_forall. intros h _. exact A.
Qed.

Lemma stop_order (s : recv.stream_base) :
  ascending (recv.heaps s) ->
  order_kept (fst (recv.stop s)) (snd (recv.stop s)).
Proof.
  intros A. unfold recv.stop.
  exact (flush_order
           {| recv.max_heaps := recv.max_heaps s; recv.heaps := recv.heaps s;
              recv.stopped := true; recv.bug_compat := recv.bug_compat s;
              recv.pool := recv.pool s |} A).
Qed.

Lemma add_packet_order (s s' : recv.stream_base)
    (packet : recv.packet_header) (r : bool) (calls : list recv.ready_call) :
  ascending (recv.heaps s) ->
  recv.add_packet M s packet = Returns (r, s', calls) ->
  order_kept s' calls.
Proof.
  intros A H. unfold recv.add_packet in H.
  bind_inv H. clear E.
  pose proof (dispatch_order s packet A) as (I1 & I2).
  destruct (recv.saw_end_of_stream (recv.dispatch M s packet)).
  - pose proof (stop_order (recv.after (recv.dispatch M s packet)) I1)
      as (J1 & J2).
    destruct (recv.stop (recv.after (recv.dispatch M s packet))) as [s2 flushed].
    apply Returns_inj in H. injection H as _ <- <-.
    cbn [fst snd] in *.
    split; [exact J1|]. rewrite Forall_app. split; assumption.
  - apply Returns_inj in H. injection H as _ <- <-.
    split; assumption.
Qed.

Lemma perform_order (s s' : recv.stream_base) (op : recv.operation)
    (calls : list recv.ready_call) :
  ascending (recv.heaps s) ->
  recv.perform M s op = Returns (s', calls) ->
  order_kept s' calls.
Proof.
  intros A H. destruct op as [packet|n|p| |]; cbn [recv.perform] in H.
  - bind_inv H. destruct a as [[r s1] calls1].
    apply Returns_inj in H. cbn [fst snd] in H. injection H as <- <-.
    exact (add_packet_order _ _ _ _ _ A E).
  - apply Returns_inj in H. injection H as <- <-.
    split; [exact A | constructor].
  - apply Returns_inj in H. injection H as <- <-.
    split; [exact A | constructor].
  - apply Returns_inj in H.
    pose proof (flush_order s A) as I. rewrite H in I. exact I.
  - apply Returns_inj in H.
    pose proof (stop_order s A) as I. rewrite H in I. exact I.
Qed.

Lemma run_order (ops : list recv.operation) :
  forall (s0 s : recv.stream_base) (calls : list recv.ready_call),
    ascending (recv.heaps s0) ->
    recv.run M s0 ops = Returns (s, calls) ->
    order_kept s calls.
Proof.
  induction ops as [|op rest IH]; intros s0 s calls A H; cbn [recv.run] in H.
  - apply Returns_inj in H. injection H as <- <-.
    split; [exact A | constructor].
  - bind_inv H. destruct a as [s1 calls1]. cbn [fst snd] in H.
    bind_inv H. destruct a as [s2 calls2]. cbn [fst snd] in H.
    apply Returns_inj in H. injection H as <- <-.
    destruct (perform_order _ _ _ _ A E) as (I1 & I2).
    destruct (IH _ _ _ I1 E0) as (J1 & J2).
    split; [exact J1|]. rewrite Forall_app. split; assumption.
Qed.

End order.

(** ** The number of live heaps *)

Lemma size_tl_insert (l1 l2 : list recv.heap.t) (h : recv.heap.t) :
  size (tl (l1 ++ h :: l2)) = size (l1 ++ l2).
Proof. destruct l1; cbn [app tl]; sizes. Qed.

Lemma deque_insert_size (hs : list recv.heap.t) (it : nat) (h : recv.heap.t) :
  size (recv.deque_insert hs it h) = size hs + 1.
Proof.
  unfold recv.deque_insert, size.
  rewrite length_app. cbn [length]. rewrite length_firstn, length_skipn. lia.
Qed.

Lemma size_tl (hs : list recv.heap.t) : size (tl hs) <= size hs.
Proof. destruct hs; cbn [tl]; sizes. Qed.

Lemma highest_cap_ge (cap : Z) (ops : list recv.operation) :
  cap <= highest_cap cap ops.
Proof.
  revert cap; induction ops as [|op ops IH]; intros cap; [cbn; lia|].
  unfold highest_cap in *. cbn [fold_left].
  destruct op; try apply IH.
  etransitivity; [|apply IH]. lia.
Qed.

Lemma highest_cap_mono (a b : Z) (ops : list recv.operation) :
  a <= b -> highest_cap a ops <= highest_cap b ops.
Proof.
  revert a b; induction ops as [|op ops IH]; intros a b L; [exact L|].
  unfold highest_cap in *. cbn [fold_left].
  destruct op; apply IH; lia.
Qed.

Section count.

Variable M : recv.heap_members.

Lemma dispatch_count (s : recv.stream_base) (packet : recv.packet_header) :
  count_kept s (recv.after (recv.dispatch M s packet))
    (recv.calls (recv.dispatch M s packet)).
Proof.
  unfold count_kept.
  destruct (recv.find_heap (recv.heaps s) (recv.heap_cnt packet) 0 0)
    as [[[j h]|] ib] eqn:F.
  - destruct (dispatch_found M s packet j ib h F) as (l1 & l2 & E & Hc & ->).
    rewrite E. cbv zeta.
    destruct (fst (recv.heap_add_packet M h packet));
      [destruct (recv.is_complete M _)|];
      cbn [recv.after recv.calls recv.with_heaps recv.heaps recv.max_heaps];
      repeat split; trivial;
      try solve [repeat constructor; cbn [recv.live_at_call]; sizes];
      sizes.
  - unfold recv.dispatch. rewrite F. cbv zeta.
    destruct (recv.heap_add_packet M _ packet) as [accepted h'].
    pose proof (deque_insert_size (recv.heaps s) ib h') as I.
    pose proof (size_tl (recv.deque_insert (recv.heaps s) ib h')) as T.
    destruct accepted;
      [destruct (recv.is_complete M h');
       [|destruct (recv.max_heaps s <? size (recv.deque_insert (recv.heaps s) ib h'))
           eqn:O; [apply Z.ltb_lt in O | apply Z.ltb_ge in O]]|];
      cbn [recv.after recv.calls recv.with_heaps recv.heaps recv.max_heaps];
      repeat split; trivial; try lia;
      try solve [repeat constructor; cbn [recv.live_at_call]; lia].
    + destruct (recv.deque_insert (recv.heaps s) ib h') as [|h0 rest];
        unfold size in *; cbn [length tl] in *; lia.
    + destruct (recv.deque_insert (recv.heaps s) ib h') as [|h0 rest];
        repeat constructor. cbn [recv.live_at_call]. lia.
Qed.

Lemma flush_count (s : recv.stream_base) :
  count_kept s (fst (recv.flush s)) (snd (recv.flush s)).
Proof.
  unfold count_kept, recv.flush. cbn.
  repeat split.
  - unfold size. cbn [length]. lia.
  - rewrite Forall_map, Forall_forall. intros h _. cbn. lia.
Qed.

Lemma add_packet_count (s s' : recv.stream_base)
    (packet : recv.packet_header) (r : bool) (calls : list recv.ready_call) :
  recv.add_packet M s packet = Returns (r, s', calls) ->
  count_kept s s' calls.
Proof.
  intros H. unfold recv.add_packet in H.
  bind_inv H. clear E.
  pose proof (dispatch_count s packet) as (I3 & I4 & I5).
  destruct (recv.saw_end_of_stream (recv.dispatch M s packet)).
  - unfold recv.stop in H.
    pose proof (flush_count
                  {| recv.max_heaps :=
                       recv.max_heaps (recv.after (recv.dispatch M s packet));
                     recv.heaps :=
                       recv.heaps (recv.after (recv.dispatch M s packet));
                     recv.stopped := true;
                     recv.bug_compat :=
                       recv.bug_compat (recv.after (recv.dispatch M s packet));
                     recv.pool :=
                       recv.pool (recv.after (recv.dispatch M s packet)) |})
      as (J3 & J4 & J5).
    destruct (recv.flush _) as [s2 flushed].
    apply Returns_inj in H. injection H as _ <- <-.
    cbn [fst snd recv.heaps recv.max_heaps] in *.
    unfold count_kept. rewrite Forall_app.
    repeat split; trivial; try lia.
    eapply Forall_impl; [|exact J4]. cbn beta. intros c Hc. lia.
  - apply Returns_inj in H. injection H as _ <- <-.
    unfold count_kept. repeat split; trivial.
Qed.

Lemma perform_count (s s' : recv.stream_base) (op : recv.operation)
    (calls : list recv.ready_call) :
  recv.perform M s op = Returns (s', calls) ->
  size (recv.heaps s') <= Z.max (size (recv.heaps s)) (recv.max_heaps s)
  /\ Forall (fun c => size (recv.live_at_call c)
                      <= Z.max (size (recv.heaps s)) (recv.max_heaps s) + 1)
       calls
  /\ recv.max_heaps s'
     = match op with recv.Set_max_heaps n => n | _ => recv.max_heaps s end.
Proof.
  intros H. destruct op as [packet|n|p| |]; cbn [recv.perform] in H.
  - bind_inv H. destruct a as [[r s1] calls1].
    apply Returns_inj in H. cbn [fst snd] in H. injection H as <- <-.
    exact (add_packet_count _ _ _ _ _ E).
  - apply Returns_inj in H. injection H as <- <-.
    cbn. repeat split; try constructor. lia.
  - apply Returns_inj in H. injection H as <- <-.
    cbn. repeat split; try constructor. lia.
  - apply Returns_inj in H.
    pose proof (flush_count s) as I. rewrite H in I. exact I.
  - apply Returns_inj in H. unfold recv.stop in H.
    pose proof (flush_count
                  {| recv.max_heaps := recv.max_heaps s;
                     recv.heaps := recv.heaps s; recv.stopped := true;
                     recv.bug_compat := recv.bug_compat s;
                     recv.pool := recv.pool s |}) as I.
    rewrite H in I. exact I.
Qed.

Lemma run_count (ops : list recv.operation) :
  forall (s0 s : recv.stream_base) (calls : list recv.ready_call),
    recv.run M s0 ops = Returns (s, calls) ->
    let bound := Z.max (size (recv.heaps s0))
                   (highest_cap (recv.max_heaps s0) ops) in
    size (recv.heaps s) <= bound
    /\ Forall (fun c => size (recv.live_at_call c) <= bound + 1) calls
    /\ (cap_never_lowered (recv.max_heaps s0) ops ->
        highest_cap (recv.max_heaps s0) ops = recv.max_heaps s).
Proof.
  induction ops as [|op rest IH]; intros s0 s calls H; cbn [recv.run] in H.
  - apply Returns_inj in H. injection H as <- <-.
    cbn. repeat split; try constructor. lia.
  - bind_inv H. destruct a as [s1 calls1]. cbn [fst snd] in H.
    bind_inv H. destruct a as [s2 calls2]. cbn [fst snd] in H.
    apply Returns_inj in H. injection H as <- <-.
    destruct (perform_count _ _ _ _ E) as (I3 & I4 & I5).
    destruct (IH _ _ _ E0) as (J3 & J4 & J5).
    cbv zeta in *.
    set (cap1 := match op with
                 | recv.Set_max_heaps n => Z.max (recv.max_heaps s0) n
                 | _ => recv.max_heaps s0
                 end).
    assert (Hh : highest_cap (recv.max_heaps s0) (op :: rest)
                 = highest_cap cap1 rest)
      by (unfold highest_cap; destruct op; reflexivity).
    assert (Hle : recv.max_heaps s1 <= cap1)
      by (rewrite I5; unfold cap1; destruct op; lia).
    assert (H0 : recv.max_heaps s0 <= cap1) by (unfold cap1; destruct op; lia).
    pose proof (highest_cap_mono _ _ rest Hle) as Hm.
    pose proof (highest_cap_ge cap1 rest) as Hg.
    rewrite Hh.
    split; [lia|].
    split.
    + rewrite Forall_app. split.
      * eapply Forall_impl; [|exact I4]. cbn beta. intros c Hc. lia.
      * eapply Forall_impl; [|exact J4]. cbn beta. intros c Hc. lia.
    + intros N. rewrite <- J5.
      * f_equal. rewrite I5. unfold cap1.
        destruct op; cbn [cap_never_lowered] in N; try reflexivity. lia.
      * rewrite I5. destruct op; cbn [cap_never_lowered] in N; tauto.
Qed.

End count.


(** ** The heap of the spec satisfies what the stream relies on *)

Lemma spec_model_add_packet_cnt (h : recv.heap.t) (p : recv.packet_header) :
  recv.heap.cnt (snd (spec_model.heap_add_packet h p)) = recv.heap.cnt h.
Proof.
  unfold spec_model.heap_add_packet.
  repeat match goal with
         | |- context [if ?b then _ else _] => destruct b
         end; reflexivity.
Qed.

Lemma spec_model_keeps_cnt : keeps_cnt spec_model.members.
Proof.
  split; [reflexivity | reflexivity | exact spec_model_add_packet_cnt].
Qed.

Lemma spec_model_rejection : rejection_leaves_heap spec_model.members.
Proof.
  intros h p. cbn [spec_model.members recv.heap_add_packet].
  unfold spec_model.heap_add_packet.
  repeat match goal with
         | |- context [if ?b then _ else _] => destruct b
         end; cbn [fst snd]; (reflexivity || discriminate).
Qed.

Example decode_part :
  spec_model.decode_packet (spec_model.part_bytes 7 8 [])
  = (spec_model.second_half 7, 48).
Proof. vm_compute. reflexivity. Qed.

Example decode_stop_packet :
  spec_model.decode_packet
    (spec_model.part_bytes 7 0
       [spec_model.immediate spec_model.STREAM_CTRL_ID spec_model.CTRL_STREAM_STOP])
  = (spec_model.stop_packet 7, 56).
Proof. vm_compute. reflexivity. Qed.

Example decode_garbage :
  snd (spec_model.decode_packet [0x53; 0x05; 3; 5; 0; 0; 0; 0]) = 0.
Proof. vm_compute. reflexivity. Qed.

(** ** The live collection over sequences of operations *)

(** Runs a closed sequence of operations: gives the final stream and the
    calls as witnesses, and the equation [E] that says so. *)
Ltac run_to E :=
  match goal with
  | |- exists s calls, ?X = Returns (s, calls) /\ _ =>
      let v := eval vm_compute in X in
      match v with
      | Returns (?s0, ?c0) =>
          exists s0, c0;
          assert (E : X = Returns (s0, c0)) by (vm_compute; reflexivity)
      end
  end.

Lemma ascending_nil : ascending [].
Proof. constructor. Qed.

Lemma ascending_NoDup (hs : list recv.heap.t) : ascending hs -> NoDup (cnts hs).
Proof.
  unfold ascending. generalize (cnts hs) as l.
  induction l as [|x l IH]; intros H; constructor.
  - apply StronglySorted_inv in H as [_ H]. rewrite Forall_forall in H.
    intros I. specialize (H x I). lia.
  - apply StronglySorted_inv in H as [H _]. apply IH; exact H.
Qed.

(** C4.  After any sequence of operations on a fresh stream, and at every
    call of [heap_ready] made on the way, the heap counts of the live
    collection are strictly ascending in the order the collection stores
    them; in particular no two live heaps share a count. *)
Theorem live_heaps_strictly_ascending (M : recv.heap_members)
    (bug_compat max_heaps : Z) (ops : list recv.operation)
    (s : recv.stream_base) (calls : list recv.ready_call) :
  keeps_cnt M ->
  recv.run M (recv.stream_base_ctor bug_compat max_heaps) ops = Returns (s, calls) ->
  ascending (recv.heaps s)
  /\ NoDup (cnts (recv.heaps s))
  /\ Forall (fun c => ascending (recv.live_at_call c)
                      /\ NoDup (cnts (recv.live_at_call c))) calls.
Proof.
  intros C H.
  destruct (run_order M C ops (recv.stream_base_ctor bug_compat max_heaps)
              s calls ascending_nil H) as (A & F).
  split; [exact A|]. split; [apply ascending_NoDup; exact A|].
  eapply Forall_impl; [|exact F]. cbn beta. intros c Hc.
  split; [exact Hc | apply ascending_NoDup; exact Hc].
Qed.

Lemma live_heaps_strictly_ascending_witness :
  exists s calls,
    recv.run spec_model.members (recv.stream_base_ctor 0 4) lowered_cap
      = Returns (s, calls)
    /\ cnts (recv.heaps s) = [2; 3; 4]
    /\ map (fun c => cnts (recv.live_at_call c)) calls = [[1; 2; 3; 4]]
    /\ ascending (recv.heaps s)
    /\ Forall (fun c => ascending (recv.live_at_call c)
                        /\ NoDup (cnts (recv.live_at_call c))) calls.
Proof.
  run_to E.
  split; [exact E|].
  split; [reflexivity|]. split; [reflexivity|].
  pose proof (live_heaps_strictly_ascending spec_model.members 0 4 lowered_cap
                _ _ spec_model_keeps_cnt E) as (A & _ & F).
  split; [exact A | exact F].
Defined.

(** C2 as stated fails: once [set_max_heaps] has lowered the cap to 1 under
    three live heaps, the live count exceeds [max_heaps + 1], and it still
    does when the next [add_packet] returns. *)
Lemma live_count_exceeds_lowered_cap :
  exists s calls,
    recv.run spec_model.members (recv.stream_base_ctor 0 4) lowered_cap
      = Returns (s, calls)
    /\ recv.max_heaps s = 1
    /\ size (recv.heaps s) = 3
    /\ ~ size (recv.heaps s) <= recv.max_heaps s + 1.
Proof.
  run_to E.
  split; [exact E|].
  split; [reflexivity|]. split; [reflexivity|].
  vm_compute. intros H; apply H; reflexivity.
Qed.

(** *** The count that the operations allow *)

Lemma dispatch_grows_by_one (M : recv.heap_members) (s : recv.stream_base)
    (packet : recv.packet_header) :
  size (recv.heaps (recv.after (recv.dispatch M s packet)))
  <= size (recv.heaps s) + 1.
Proof.
  destruct (recv.find_heap (recv.heaps s) (recv.heap_cnt packet) 0 0)
    as [[[j h]|] ib] eqn:F.
  - destruct (dispatch_found M s packet j ib h F) as (l1 & l2 & E & _ & ->).
    rewrite E. cbv zeta.
    destruct (fst (recv.heap_add_packet M h packet));
      [destruct (recv.is_complete M _)|];
      cbn [recv.after recv.with_heaps recv.heaps]; sizes.
  - unfold recv.dispatch. rewrite F. cbv zeta.
    destruct (recv.heap_add_packet M _ packet) as [accepted h'].
    pose proof (deque_insert_size (recv.heaps s) ib h') as I.
    pose proof (size_tl (recv.deque_insert (recv.heaps s) ib h')) as T.
    destruct accepted;
      [destruct (recv.is_complete M h');
       [|destruct (recv.max_heaps s <? size (recv.deque_insert (recv.heaps s) ib h'))]|];
      cbn [recv.after recv.with_heaps recv.heaps]; lia.
Qed.

Lemma perform_grows_by_one (M : recv.heap_members) (s s' : recv.stream_base)
    (op : recv.operation) (calls : list recv.ready_call) :
  recv.perform M s op = Returns (s', calls) ->
  size (recv.heaps s') <= size (recv.heaps s) + 1
  /\ match op with
     | recv.Add_packet _ => True
     | recv.Set_max_heaps _ => size (recv.heaps s') = size (recv.heaps s)
     | recv.Set_mempool _ => size (recv.heaps s') = size (recv.heaps s)
     | recv.Flush => size (recv.heaps s') = 0
     | recv.Stop => size (recv.heaps s') = 0
     end.
Proof.
  intros H.
  assert (P : 0 <= size (recv.heaps s)) by (unfold size; lia).
  destruct op as [packet|n|p| |]; cbn [recv.perform] in H.
  - bind_inv H. destruct a as [[r s1] calls1].
    apply Returns_inj in H. cbn [fst snd] in H. injection H as <- _.
    unfold recv.add_packet in E. bind_inv E. clear E0.
    pose proof (dispatch_grows_by_one M s packet) as G.
    destruct (recv.saw_end_of_stream _).
    + unfold recv.stop, recv.flush in E. apply Returns_inj in E.
      injection E as _ <- _. cbn [recv.heaps recv.with_heaps].
      change (size (@nil recv.heap.t)) with 0. split; [lia | exact I].
    + apply Returns_inj in E. injection E as _ <- _. split; [exact G | exact I].
  - apply Returns_inj in H. injection H as <- _.
    cbn [recv.set_max_heaps recv.heaps]. split; [lia | reflexivity].
  - apply Returns_inj in H. injection H as <- _.
    cbn [recv.set_mempool recv.heaps]. split; [lia | reflexivity].
  - apply Returns_inj in H. unfold recv.flush in H. injection H as <- _.
    cbn [recv.heaps recv.with_heaps].
    change (size (@nil recv.heap.t)) with 0. split; [lia | reflexivity].
  - apply Returns_inj in H. unfold recv.stop, recv.flush in H.
    injection H as <- _. cbn [recv.heaps recv.with_heaps].
    change (size (@nil recv.heap.t)) with 0. split; [lia | reflexivity].
Qed.

Lemma live_bound_le_highest (ops : list recv.operation) :
  forall cap n : Z,
    0 <= n -> live_bound cap n ops <= Z.max n (highest_cap cap ops).
Proof.
  induction ops as [|op ops IH]; intros cap n Hn; [cbn; lia|].
  pose proof (highest_cap_ge cap ops) as G.
  destruct op as [packet|m|p| |]; cbn [live_bound];
    unfold highest_cap in *; cbn [fold_left];
    fold (highest_cap cap ops) in *.
  - destruct (n <? cap) eqn:L;
      [apply Z.ltb_lt in L | apply Z.ltb_ge in L];
      (etransitivity; [apply IH; lia|]); fold (highest_cap cap ops); lia.
  - fold (highest_cap (Z.max cap m) ops).
    etransitivity; [apply IH; exact Hn|]. fold (highest_cap m ops).
    pose proof (highest_cap_mono m (Z.max cap m) ops (Z.le_max_r _ _)). lia.
  - etransitivity; [apply IH; exact Hn|]. fold (highest_cap cap ops). lia.
  - etransitivity; [apply IH; lia|]. fold (highest_cap cap ops). lia.
  - etransitivity; [apply IH; lia|]. fold (highest_cap cap ops). lia.
Qed.

Lemma live_bound_within_cap (ops : list recv.operation) :
  forall cap n : Z,
    0 <= n <= cap ->
    cap_never_lowered cap ops ->
    live_bound cap n ops <= cap_in_force cap ops.
Proof.
  induction ops as [|op ops IH]; intros cap n Hn N; [cbn; lia|].
  destruct op as [packet|m|p| |];
    cbn [live_bound cap_never_lowered] in *;
    unfold cap_in_force; cbn [fold_left];
    try (apply IH; [lia | exact N]).
  - apply IH; [|exact N].
    destruct (n <? cap) eqn:L;
      [apply Z.ltb_lt in L | apply Z.ltb_ge in L]; lia.
  - destruct N as [Hm N]. apply IH; [lia | exact N].
Qed.

Lemma run_live_bound (M : recv.heap_members) (ops : list recv.operation) :
  forall (s0 s : recv.stream_base) (calls : list recv.ready_call) (n : Z),
    recv.run M s0 ops = Returns (s, calls) ->
    size (recv.heaps s0) <= n ->
    size (recv.heaps s) <= live_bound (recv.max_heaps s0) n ops
    /\ recv.max_heaps s = cap_in_force (recv.max_heaps s0) ops.
Proof.
  induction ops as [|op rest IH]; intros s0 s calls n H Hn; cbn [recv.run] in H.
  - apply Returns_inj in H. injection H as <- _. split; [exact Hn | reflexivity].
  - bind_inv H. destruct a as [s1 calls1]. cbn [fst snd] in H.
    bind_inv H. destruct a as [s2 calls2]. cbn [fst snd] in H.
    apply Returns_inj in H. injection H as <- _.
    destruct (perform_count M _ _ _ _ E) as (I3 & _ & I5).
    destruct (perform_grows_by_one M _ _ _ _ E) as (G1 & G2).
    destruct op as [packet|m|p| |];
      cbn [live_bound]; unfold cap_in_force; cbn [fold_left];
      fold (cap_in_force (recv.max_heaps s0) rest);
      try fold (cap_in_force m rest);
      rewrite <- I5; apply (IH _ _ _ _ E0); try lia.
    match goal with
    | |- context [n <? ?c] =>
        destruct (n <? c) eqn:L;
        [apply Z.ltb_lt in L | apply Z.ltb_ge in L]; lia
    end.
Qed.

(** C2, amended.  On the stream that any sequence of operations on a fresh
    stream leaves, an operation never leaves more live heaps than the larger
    of the count before it and the cap in force ([max_heaps] as last set),
    it adds at most one heap, and at each of its [heap_ready] calls the
    count is at most one more than that larger number.  So while the count is
    within the cap in force the count is at most [max_heaps + 1] at every
    [heap_ready] call and at most [max_heaps] when the operation returns; and
    while it is above the cap, which only a lowering [set_max_heaps] brings
    about, it does not grow: every later insertion evicts.  From the
    operations alone, the count after the sequence is at most [live_bound],
    which is at most the largest cap the stream has had, and within the cap
    in force as long as no [set_max_heaps] has lowered the cap.
    [set_max_heaps] changes the cap only: it removes no heap. *)
Theorem live_count_bounded_by_cap_in_force (M : recv.heap_members)
    (bug_compat max_heaps : Z) (ops : list recv.operation)
    (s : recv.stream_base) (calls : list recv.ready_call) :
  0 <= max_heaps ->
  recv.run M (recv.stream_base_ctor bug_compat max_heaps) ops = Returns (s, calls) ->
  recv.max_heaps s = cap_in_force max_heaps ops
  /\ size (recv.heaps s) <= live_bound max_heaps 0 ops
  /\ live_bound max_heaps 0 ops <= highest_cap max_heaps ops
  /\ size (recv.heaps s) <= highest_cap max_heaps ops
  /\ Forall (fun c => size (recv.live_at_call c) <= highest_cap max_heaps ops + 1)
       calls
  /\ (cap_never_lowered max_heaps ops ->
      highest_cap max_heaps ops = recv.max_heaps s
      /\ live_bound max_heaps 0 ops <= recv.max_heaps s
      /\ size (recv.heaps s) <= recv.max_heaps s
      /\ Forall (fun c => size (recv.live_at_call c) <= recv.max_heaps s + 1) calls)
  /\ (forall (op : recv.operation) (s' : recv.stream_base)
             (calls' : list recv.ready_call),
        recv.perform M s op = Returns (s', calls') ->
        size (recv.heaps s') <= Z.max (size (recv.heaps s)) (recv.max_heaps s)
        /\ size (recv.heaps s') <= size (recv.heaps s) + 1
        /\ Forall (fun c => size (recv.live_at_call c)
                            <= Z.max (size (recv.heaps s)) (recv.max_heaps s) + 1)
             calls'
        /\ (size (recv.heaps s) <= recv.max_heaps s ->
            size (recv.heaps s') <= recv.max_heaps s
            /\ Forall (fun c => size (recv.live_at_call c) <= recv.max_heaps s + 1)
                 calls')
        /\ (recv.max_heaps s <= size (recv.heaps s) ->
            size (recv.heaps s') <= size (recv.heaps s)
            /\ Forall (fun c => size (recv.live_at_call c)
                                <= size (recv.heaps s) + 1) calls'))
  /\ forall n,
       recv.heaps (recv.set_max_heaps s n) = recv.heaps s
       /\ recv.max_heaps (recv.set_max_heaps s n) = n
       /\ recv.stopped (recv.set_max_heaps s n) = recv.stopped s
       /\ recv.pool (recv.set_max_heaps s n) = recv.pool s.
Proof.
  intros P H.
  destruct (run_count M ops (recv.stream_base_ctor bug_compat max_heaps)
              s calls H) as (B & F & N).
  cbv zeta in B, F. cbn [recv.stream_base_ctor recv.heaps recv.max_heaps] in B, F, N.
  pose proof (highest_cap_ge max_heaps ops) as G.
  change (size (@nil recv.heap.t)) with 0 in B, F.
  rewrite Z.max_r in B, F by lia.
  destruct (run_live_bound M ops (recv.stream_base_ctor bug_compat max_heaps)
              s calls 0 H (Z.le_refl 0)) as (L & C).
  cbn [recv.stream_base_ctor recv.max_heaps] in L, C.
  pose proof (live_bound_le_highest ops max_heaps 0 (Z.le_refl 0)) as LH.
  rewrite Z.max_r in LH by lia.
  split; [exact C|]. split; [exact L|]. split; [exact LH|].
  split; [exact B|]. split; [exact F|].
  split; [|split].
  - intros NL. pose proof (N NL) as Nh. rewrite <- Nh.
    split; [reflexivity|]. split; [exact LH|]. split; [exact B | exact F].
  - intros op s' calls' Hp.
    destruct (perform_count M _ _ _ _ Hp) as (I3 & I4 & _).
    destruct (perform_grows_by_one M _ _ _ _ Hp) as (G1 & _).
    split; [exact I3|]. split; [exact G1|]. split; [exact I4|].
    split; intros W.
    + rewrite Z.max_r in I3, I4 by exact W. split; assumption.
    + rewrite Z.max_l in I3, I4 by exact W. split; assumption.
  - intros n. repeat split.
Qed.

(** The cap is lowered from 4 to 1 over one live heap: the count is within
    the cap in force, and the two packets that follow, and a third one,
    each leave one live heap, with two at the [heap_ready] call.  In
    [lowered_cap] the cap is lowered over three live heaps: the count stays
    within the largest cap, 4. *)
Lemma live_count_bounded_by_cap_in_force_witness :
  (exists s calls,
     recv.run spec_model.members (recv.stream_base_ctor 0 4) cap_lowered_early
       = Returns (s, calls)
     /\ recv.max_heaps s = 1
     /\ live_bound 4 0 cap_lowered_early = 1
     /\ highest_cap 4 cap_lowered_early = 4
     /\ size (recv.heaps s) <= 1
     /\ exists s' calls',
          recv.perform spec_model.members s
            (recv.Add_packet (spec_model.first_half 4)) = Returns (s', calls')
          /\ map (fun c => size (recv.live_at_call c)) calls' = [2]
          /\ size (recv.heaps s') <= 1
          /\ Forall (fun c => size (recv.live_at_call c) <= 1 + 1) calls')
  /\ exists s calls,
       recv.run spec_model.members (recv.stream_base_ctor 0 4) lowered_cap
         = Returns (s, calls)
       /\ highest_cap 4 lowered_cap = 4
       /\ size (recv.heaps s) <= 4.
Proof.
  assert (P : 0 <= 4) by lia.
  split.
  - run_to E.
    pose proof (live_count_bounded_by_cap_in_force spec_model.members 0 4
                  cap_lowered_early _ _ P E) as (C & L & _ & _ & _ & _ & Nx & _).
    split; [exact E|]. split; [exact C|]. split; [reflexivity|].
    split; [reflexivity|]. split; [exact L|].
    run_to E'.
    destruct (Nx _ _ _ E') as (_ & _ & _ & W & _).
    split; [exact E'|]. split; [reflexivity|].
    apply W. exact L.
  - run_to E.
    split; [exact E|]. split; [reflexivity|].
    pose proof (live_count_bounded_by_cap_in_force spec_model.members 0 4
                  lowered_cap _ _ P E) as (_ & _ & _ & B & _).
    exact B.
Defined.

(** ** A packet for a heap that is not live *)





Lemma scenario3_stream_reached :
  recv.run spec_model.members (recv.stream_base_ctor 0 2) two_live
  = Returns (scenario3_stream, []).
Proof. vm_compute. reflexivity. Qed.

Lemma scenario3_stream_ascending : ascending (recv.heaps scenario3_stream).
Proof. unfold ascending. cbn. repeat constructor. Qed.


(** ** [flush] and [stop] *)

Lemma flush_hands_over_all (s : recv.stream_base) :
  map recv.ready_heap (snd (recv.flush s)) = recv.heaps s
  /\ recv.heaps (fst (recv.flush s)) = [].
Proof.
  unfold recv.flush. cbn [fst snd recv.with_heaps recv.heaps].
  split; [|reflexivity].
  rewrite map_map. cbn [recv.ready_heap]. apply map_id.
Qed.

(** C5.  On a stream reached from a fresh one, [flush] passes each heap of
    the live collection to [heap_ready] once, in ascending order of their
    (pairwise different) counts, and leaves the collection empty.  [stop]
    does the same and marks the stream stopped, so the collection is empty
    after [stop]; a second [stop] passes no heap to [heap_ready] and changes
    nothing. *)
Theorem flush_and_stop (M : recv.heap_members) (bug_compat max_heaps : Z)
    (ops : list recv.operation) (s : recv.stream_base)
    (calls : list recv.ready_call) :
  keeps_cnt M ->
  recv.run M (recv.stream_base_ctor bug_compat max_heaps) ops = Returns (s, calls) ->
  map recv.ready_heap (snd (recv.flush s)) = recv.heaps s
  /\ ascending (map recv.ready_heap (snd (recv.flush s)))
  /\ NoDup (cnts (map recv.ready_heap (snd (recv.flush s))))
  /\ recv.heaps (fst (recv.flush s)) = []
  /\ snd (recv.stop s) = snd (recv.flush s)
  /\ recv.stopped (fst (recv.stop s)) = true
  /\ recv.heaps (fst (recv.stop s)) = []
  /\ snd (recv.stop (fst (recv.stop s))) = []
  /\ fst (recv.stop (fst (recv.stop s))) = fst (recv.stop s).
Proof.
  intros C H.
  destruct (run_order M C ops (recv.stream_base_ctor bug_compat max_heaps)
              s calls ascending_nil H) as (A & _).
  destruct (flush_hands_over_all s) as [E1 E2].
  rewrite E1.
  split; [reflexivity|]. split; [exact A|].
  split; [apply ascending_NoDup; exact A|]. split; [exact E2|].
  repeat split.
Qed.

Lemma flush_and_stop_witness :
  exists s calls,
    recv.run spec_model.members (recv.stream_base_ctor 0 4) lowered_cap
      = Returns (s, calls)
    /\ cnts (map recv.ready_heap (snd (recv.flush s))) = [2; 3; 4]
    /\ ascending (map recv.ready_heap (snd (recv.flush s)))
    /\ recv.heaps (fst (recv.stop s)) = [].
Proof.
  run_to E.
  split; [exact E|]. split; [reflexivity|].
  pose proof (flush_and_stop spec_model.members 0 4 lowered_cap _ _
                spec_model_keeps_cnt E) as (_ & A & _ & _ & _ & _ & S & _).
  split; [exact A | exact S].
Defined.

(** ** End of stream *)

Lemma dispatch_end_of_stream (M : recv.heap_members) (s : recv.stream_base)
    (packet : recv.packet_header) :
  recv.result (recv.dispatch M s packet) = true ->
  recv.saw_end_of_stream (recv.dispatch M s packet)
  = recv.is_end_of_stream M (receiving_heap M s packet).
Proof.
  unfold recv.dispatch, receiving_heap, new_heap.
  destruct (recv.find_heap (recv.heaps s) (recv.heap_cnt packet) 0 0)
    as [[[j h]|] ib]; cbn [fst].
  - destruct (recv.heap_add_packet M h packet) as [[] h']; cbn [snd].
    + destruct (recv.is_complete M h'); reflexivity.
    + discriminate.
  - cbv zeta. destruct (recv.heap_add_packet M _ packet) as [[] h']; cbn [snd].
    + destruct (recv.is_complete M h'); [reflexivity|].
      destruct (recv.max_heaps s <? _); reflexivity.
    + discriminate.
Qed.

(** C6.  On a stream reached from a fresh one, when [add_packet] accepts a
    packet and the heap it went to reports end-of-stream, [stop] has run
    before [add_packet] returns: the stream is stopped, its collection is
    empty, and after the calls of [heap_ready] made for the packet itself
    come the heaps that were still live, each once, in ascending order of
    count. *)
Theorem add_packet_end_of_stream_stops (M : recv.heap_members)
    (bug_compat max_heaps : Z) (ops : list recv.operation)
    (s s' : recv.stream_base) (before calls : list recv.ready_call)
    (packet : recv.packet_header) :
  keeps_cnt M ->
  recv.run M (recv.stream_base_ctor bug_compat max_heaps) ops = Returns (s, before) ->
  recv.add_packet M s packet = Returns (true, s', calls) ->
  recv.is_end_of_stream M (receiving_heap M s packet) = true ->
  recv.stopped s' = true
  /\ recv.heaps s' = []
  /\ exists remaining,
       remaining = recv.heaps (recv.after (recv.dispatch M s packet))
       /\ ascending remaining
       /\ calls = recv.calls (recv.dispatch M s packet)
                  ++ map (fun h => {| recv.ready_heap := h;
                                      recv.live_at_call := remaining |})
                       remaining.
Proof.
  intros C H Ha He.
  destruct (run_order M C ops (recv.stream_base_ctor bug_compat max_heaps)
              s before ascending_nil H) as (A & _).
  destruct (dispatch_order M C s packet A) as (A1 & _).
  unfold recv.add_packet in Ha. bind_inv Ha. clear E.
  destruct (recv.saw_end_of_stream (recv.dispatch M s packet)) eqn:Eo.
  - unfold recv.stop, recv.flush in Ha.
    cbn [recv.with_heaps recv.heaps recv.max_heaps recv.stopped] in Ha.
    apply Returns_inj in Ha. injection Ha as _ <- <-.
    split; [reflexivity|]. split; [reflexivity|].
    eexists. split; [reflexivity|]. split; [exact A1 | reflexivity].
  - apply Returns_inj in Ha. injection Ha as Hr _ _.
    rewrite (dispatch_end_of_stream M s packet Hr), He in Eo. discriminate.
Qed.

(** Scenario 4 of the spec on the stream of scenario 3: a packet of a new
    heap 3 carries the end-of-stream marker.  Heap 1 is aged out by the
    insertion, then the stream stops and hands over heaps 2 and 3. *)
Lemma add_packet_end_of_stream_stops_witness :
  exists s' calls,
    recv.add_packet spec_model.members scenario3_stream (spec_model.stop_packet 3)
      = Returns (true, s', calls)
    /\ map (fun c => recv.heap.cnt (recv.ready_heap c)) calls = [1; 2; 3]
    /\ recv.stopped s' = true
    /\ recv.heaps s' = [].
Proof.
  match goal with
  | |- exists s' calls, ?X = _ /\ _ =>
      let v := eval vm_compute in X in
      match v with
      | Returns (_, ?s0, ?c0) =>
          exists s0, c0;
          assert (E : X = Returns (true, s0, c0)) by (vm_compute; reflexivity)
      end
  end.
  split; [exact E|]. split; [reflexivity|].
  pose proof (add_packet_end_of_stream_stops spec_model.members 0 2 two_live
                scenario3_stream _ [] _ (spec_model.stop_packet 3)
                spec_model_keeps_cnt scenario3_stream_reached E eq_refl)
    as (S & L & _).
  split; [exact S | exact L].
Defined.

(** ** Rejected packets *)

Lemma with_heaps_same (s : recv.stream_base) : recv.with_heaps s (recv.heaps s) = s.
Proof. destruct s; reflexivity. Qed.

(** C10.  If [add_packet] returns false, the stream is as it was before the
    call (live collection, stopped flag, cap, bug mask and pool) and
    [heap_ready] has not been called: no heap was added, removed or handed
    over, and the stream was not stopped. *)
Theorem add_packet_rejection_is_atomic (M : recv.heap_members)
    (s s' : recv.stream_base) (packet : recv.packet_header)
    (calls : list recv.ready_call) :
  rejection_leaves_heap M ->
  recv.add_packet M s packet = Returns (false, s', calls) ->
  s' = s /\ calls = [] /\ recv.stopped s' = false.
Proof.
  intros R H. unfold recv.add_packet in H. bind_inv H.
  apply assert_returns in E. apply negb_true_iff in E.
  assert (D : recv.result (recv.dispatch M s packet) = false ->
              recv.dispatch M s packet
              = {| recv.result := false; recv.saw_end_of_stream := false;
                   recv.after := s; recv.calls := [] |}).
  { destruct (recv.find_heap (recv.heaps s) (recv.heap_cnt packet) 0 0)
      as [[[j h]|] ib] eqn:F.
    - destruct (dispatch_found M s packet j ib h F) as (l1 & l2 & El & _ & ->).
      cbv zeta. specialize (R h packet).
      destruct (fst (recv.heap_add_packet M h packet)).
      + destruct (recv.is_complete M _); discriminate.
      + intros _. rewrite R by reflexivity. rewrite <- El, with_heaps_same.
        reflexivity.
    - unfold recv.dispatch. rewrite F. cbv zeta.
      destruct (recv.heap_add_packet M _ packet) as [[] h'].
      + destruct (recv.is_complete M h'); [discriminate|].
        destruct (recv.max_heaps s <? _); discriminate.
      + reflexivity. }
  destruct (recv.saw_end_of_stream (recv.dispatch M s packet)) eqn:Eo.
  - destruct (recv.stop (recv.after (recv.dispatch M s packet))) as [s2 flushed].
    apply Returns_inj in H. injection H as Hr _ _.
    rewrite (D Hr) in Eo. discriminate.
  - apply Returns_inj in H. injection H as Hr <- <-.
    rewrite (D Hr). cbn [recv.after recv.calls]. repeat split. exact E.
Qed.

(** Scenario 5 of the spec: the first half of heap 1 arrives a second time;
    the live heap rejects the duplicate and the stream is untouched. *)
Lemma add_packet_rejection_is_atomic_witness :
  exists s' calls,
    recv.add_packet spec_model.members scenario3_stream (spec_model.first_half 1)
      = Returns (false, s', calls)
    /\ s' = scenario3_stream /\ calls = [] /\ recv.stopped s' = false.
Proof.
  exists scenario3_stream, [].
  assert (E : recv.add_packet spec_model.members scenario3_stream
                (spec_model.first_half 1)
              = Returns (false, scenario3_stream, []))
    by (vm_compute; reflexivity).
  split; [exact E|].
  exact (add_packet_rejection_is_atomic spec_model.members
           scenario3_stream _ _ _ spec_model_rejection E).
Defined.

(** ** Scanning a buffer *)

(** The scan ends here, with no further packet passed on. *)
Ltac scan_done :=
  eexists _, 0%nat, []; split; [reflexivity|];
  cbn [firstn map total_size fold_right recv.run recv.passed recv.ptr
       recv.ready recv.stream_after length];
  rewrite ?app_nil_r;
  repeat split; trivial; try lia; try (unfold size; lia);
  try (left; reflexivity); try (right; assumption).

Section scanning.

Variable M : recv.heap_members.
Variable decode_packet : list Z -> recv.packet_header * Z.

(** The loop, one iteration unrolled. *)
Lemma mem_to_stream_loop_step (s : recv.stream_base) (buf : list Z) (ptr : Z)
    (passed : list recv.packet_header) (ready : list recv.ready_call) :
  recv.mem_to_stream_loop M decode_packet s buf ptr passed ready =
  if (0 <? size buf) && negb (recv.stopped s) then
    if 0 <? snd (decode_packet buf) then
      r <- recv.add_packet M s (fst (decode_packet buf)) ;;
      recv.mem_to_stream_loop M decode_packet (snd (fst r))
        (skipn (Z.to_nat (snd (decode_packet buf))) buf)
        (ptr + snd (decode_packet buf))
        (passed ++ [fst (decode_packet buf)])
        (ready ++ snd r)
    else Returns {| recv.stream_after := s; recv.passed := passed;
                    recv.ready := ready; recv.ptr := ptr |}
  else Returns {| recv.stream_after := s; recv.passed := passed;
                  recv.ready := ready; recv.ptr := ptr |}.
Proof.
  funelim (recv.mem_to_stream_loop M decode_packet s buf ptr passed ready);
    repeat match goal with
           | H : _ = true |- _ => rewrite H
           | H : _ = false |- _ => rewrite H
           | H : recv.add_packet _ _ _ = _ |- _ => rewrite H
           end; reflexivity.
Qed.

Lemma decodable_step (buf : list Z) :
  decodable decode_packet buf =
  if (0 <? size buf) && (0 <? snd (decode_packet buf))
  then decode_packet buf
         :: decodable decode_packet
              (skipn (Z.to_nat (snd (decode_packet buf))) buf)
  else [].
Proof.
  funelim (decodable decode_packet buf);
    repeat match goal with
           | H : _ = true |- _ => rewrite H
           | H : _ = false |- _ => rewrite H
           end; reflexivity.
Qed.

Lemma add_packet_returns (s : recv.stream_base) (packet : recv.packet_header) :
  recv.stopped s = false ->
  exists r, recv.add_packet M s packet = Returns r.
Proof.
  intros St. unfold recv.add_packet. rewrite St. cbn [negb assert bind].
  destruct (recv.saw_end_of_stream _); [|eexists; reflexivity].
  destruct (recv.stop _); eexists; reflexivity.
Qed.

Hypothesis in_bounds : decoder_in_bounds decode_packet.

Lemma mem_to_stream_loop_spec (n : nat) :
  forall (buf : list Z) (s : recv.stream_base) (ptr0 : Z)
         (passed0 : list recv.packet_header) (ready0 : list recv.ready_call),
    (length buf <= n)%nat ->
    exists (r : recv.scan) (k : nat) (ready1 : list recv.ready_call),
      recv.mem_to_stream_loop M decode_packet s buf ptr0 passed0 ready0
        = Returns r
      /\ (k <= length (decodable decode_packet buf))%nat
      /\ recv.passed r
         = passed0 ++ map fst (firstn k (decodable decode_packet buf))
      /\ recv.ptr r
         = ptr0 + total_size (firstn k (decodable decode_packet buf))
      /\ 0 <= total_size (firstn k (decodable decode_packet buf))
           <= size buf
      /\ recv.ready r = ready0 ++ ready1
      /\ recv.run M s
           (map recv.Add_packet
              (map fst (firstn k (decodable decode_packet buf))))
         = Returns (recv.stream_after r, ready1)
      /\ (k = length (decodable decode_packet buf)
          \/ recv.stopped (recv.stream_after r) = true).
Proof.
  induction n as [|n IH]; intros buf s ptr0 passed0 ready0 Hn;
    rewrite mem_to_stream_loop_step, (decodable_step buf).
  - assert (Hb : (0 <? size buf) = false)
      by (apply Z.ltb_ge; unfold size; lia).
    rewrite Hb. cbn [andb]. scan_done.
  - destruct (0 <? size buf) eqn:Hb; cbn [andb]; [|scan_done].
    destruct (recv.stopped s) eqn:St; cbn [negb]; [scan_done|].
    destruct (0 <? snd (decode_packet buf)) eqn:Hs; [|scan_done].
    apply Z.ltb_lt in Hb, Hs.
    pose proof (in_bounds buf) as Hin.
    destruct (add_packet_returns s (fst (decode_packet buf)) St)
      as ([[b s1] calls1] & Ea).
    rewrite Ea. cbn [bind fst snd].
    set (sz := snd (decode_packet buf)) in *.
    assert (Hl : length (skipn (Z.to_nat sz) buf) = (length buf - Z.to_nat sz)%nat)
      by apply length_skipn.
    destruct (IH (skipn (Z.to_nat sz) buf) s1 (ptr0 + sz)
                (passed0 ++ [fst (decode_packet buf)]) (ready0 ++ calls1))
      as (r & k & ready1 & E & Hk & Hp & Hq & Hsz & Hr & Hrun & Hend);
      [lia|].
    exists r, (S k), (calls1 ++ ready1).
    cbn [firstn map total_size fold_right length recv.run recv.perform].
    fold (total_size (firstn k (decodable decode_packet
                                  (skipn (Z.to_nat sz) buf)))).
    rewrite Ea. cbn [bind fst snd]. rewrite Hrun. cbn [bind fst snd].
    split; [exact E|]. split; [lia|].
    split; [rewrite Hp, <- app_assoc; reflexivity|].
    split; [rewrite Hq; fold sz; lia|].
    split; [fold sz; unfold size in *; lia|].
    split; [rewrite Hr, <- app_assoc; reflexivity|].
    split; [reflexivity|].
    destruct Hend as [-> | Hend]; [left; reflexivity | right; exact Hend].
Qed.

End scanning.

(** C9 as stated fails: the first packet of [stop_buffer] carries the
    end-of-stream marker, so the scan ends after it although the packet
    behind it decodes too; that second packet is not handed to [add_packet]
    and the pointer returned is not past it. *)
Lemma scan_ends_at_end_of_stream_packet :
  exists r,
    recv.mem_to_stream spec_model.members spec_model.decode_packet
      (recv.stream_base_ctor 0 4) stop_buffer = Returns r
    /\ map fst (decodable spec_model.decode_packet stop_buffer)
       = [spec_model.stop_packet 1; spec_model.first_half 2]
    /\ total_size (decodable spec_model.decode_packet stop_buffer) = 104
    /\ recv.passed r = [spec_model.stop_packet 1]
    /\ recv.ptr r = 56
    /\ recv.passed r
       <> map fst (decodable spec_model.decode_packet stop_buffer)
    /\ recv.ptr r
       <> total_size (decodable spec_model.decode_packet stop_buffer).
Proof.
  eexists. split; [vm_compute; reflexivity|].
  assert (D : decodable spec_model.decode_packet stop_buffer
              = [(spec_model.stop_packet 1, 56); (spec_model.first_half 2, 48)])
    by (vm_compute; reflexivity).
  rewrite D. cbn [map fst total_size fold_right snd recv.passed recv.ptr].
  repeat split; discriminate.
Qed.

Lemma spec_model_decoder_in_bounds : decoder_in_bounds spec_model.decode_packet.
Proof.
  intros buf. unfold spec_model.decode_packet.
  assert (0 <= size buf) by (unfold size; lia).
  cbv zeta.
  repeat match goal with
         | |- context [if ?b then _ else _] =>
             let E := fresh "E" in destruct b eqn:E; cbn [snd]; try assumption
         end.
  apply Z.ltb_ge in E4. lia.
Qed.

(** C9, amended.  With a decoder that stays within the buffer,
    [mem_to_stream] returns.  The packets it hands to [add_packet] are, in
    order, the first [k] of those that decode one after the other from the
    front of the buffer, each handed over whatever [add_packet] answers, and
    the pointer returned is just past the last of them.  The scan ends at
    the first packet that fails to decode (or at the end of the buffer),
    unless the stream has been stopped before that. *)
Theorem mem_to_stream_scans_until_failure_or_stop (M : recv.heap_members)
    (decode_packet : list Z -> recv.packet_header * Z)
    (s : recv.stream_base) (buf : list Z) :
  decoder_in_bounds decode_packet ->
  exists (r : recv.scan) (k : nat),
    recv.mem_to_stream M decode_packet s buf = Returns r
    /\ (k <= length (decodable decode_packet buf))%nat
    /\ recv.passed r = map fst (firstn k (decodable decode_packet buf))
    /\ recv.ptr r = total_size (firstn k (decodable decode_packet buf))
    /\ 0 <= recv.ptr r <= size buf
    /\ recv.run M s (map recv.Add_packet (recv.passed r))
       = Returns (recv.stream_after r, recv.ready r)
    /\ (k = length (decodable decode_packet buf)
        \/ recv.stopped (recv.stream_after r) = true).
Proof.
  intros B.
  destruct (mem_to_stream_loop_spec M decode_packet B (length buf) buf s 0 [] []
              (le_n _))
    as (r & k & ready1 & E & Hk & Hp & Hq & Hsz & Hr & Hrun & Hend).
  cbn [app] in Hp, Hr. rewrite Z.add_0_l in Hq.
  exists r, k. unfold recv.mem_to_stream.
  rewrite Hp, Hq, Hr. repeat split; trivial; lia.
Qed.

(** A duplicate that the stream rejects does not end the scan: all three
    packets of [duplicate_buffer] are handed over, and the scan ends at the
    bytes that do not decode. *)
Lemma mem_to_stream_scans_until_failure_or_stop_witness :
  (exists r k,
     recv.mem_to_stream spec_model.members spec_model.decode_packet
       (recv.stream_base_ctor 0 4) duplicate_buffer = Returns r
     /\ (k <= length (decodable spec_model.decode_packet duplicate_buffer))%nat
     /\ recv.passed r
        = map fst (firstn k (decodable spec_model.decode_packet
                               duplicate_buffer))
     /\ recv.ptr r
        = total_size (firstn k (decodable spec_model.decode_packet
                                  duplicate_buffer))
     /\ 0 <= recv.ptr r <= size duplicate_buffer
     /\ recv.run spec_model.members (recv.stream_base_ctor 0 4)
          (map recv.Add_packet (recv.passed r))
        = Returns (recv.stream_after r, recv.ready r)
     /\ (k = length (decodable spec_model.decode_packet duplicate_buffer)
         \/ recv.stopped (recv.stream_after r) = true))
  /\ exists r,
       recv.mem_to_stream spec_model.members spec_model.decode_packet
         (recv.stream_base_ctor 0 4) duplicate_buffer = Returns r
       /\ recv.passed r = [spec_model.first_half 1; spec_model.first_half 1;
                           spec_model.first_half 2]
       /\ recv.ptr r = 144
       /\ recv.stopped (recv.stream_after r) = false.
Proof.
  split.
  - exact (mem_to_stream_scans_until_failure_or_stop spec_model.members
             spec_model.decode_packet (recv.stream_base_ctor 0 4)
             duplicate_buffer spec_model_decoder_in_bounds).
  - eexists. split; [vm_compute; reflexivity|].
    repeat split.
Defined.


(* ================================================================== *)
(** * Further properties of the code *)
(* ================================================================== *)

(** ** [store_bytes_be] *)

Lemma be_bytes_range (n : nat) (v : Z) : Forall is_byte (be_bytes n v).
Proof.
  revert v; induction n as [|n IH]; intros v; cbn [be_bytes]; [constructor|].
  rewrite Forall_app. split; [apply IH|].
  constructor; [|constructor]. unfold is_byte. apply Z.mod_pos_bound. lia.
Qed.

Lemma store_bytes_be_total (len v : Z) :
  0 <= len <= 8 -> (len = 8 \/ v < 2 ^ (8 * len)) ->
  exists bs, send.store_bytes_be len v = Returns bs.
Proof.
  intros L F. unfold send.store_bytes_be, sizeof_item_pointer_t.
  replace ((0 <=? len) && (len <=? 8)) with true
    by (symmetry; apply andb_true_intro; split; apply Z.leb_le; lia).
  cbn [assert bind].
  replace ((len =? 8) || (v <? to_uint64 (Z.shiftl 1 (8 * len)))) with true.
  - cbn [assert bind]. eexists; reflexivity.
  - symmetry. apply orb_true_intro.
    destruct F as [-> | F]; [left; reflexivity|].
    destruct (Z.eq_dec len 8) as [-> | N]; [left; reflexivity|].
    right. apply Z.ltb_lt.
    rewrite Z.shiftl_1_l. unfold to_uint64.
    assert (2 ^ (8 * len) < 2 ^ 64) by (apply Z.pow_lt_mono_r; lia).
    rewrite Z.mod_small by (split; [apply Z.pow_nonneg; lia | assumption]).
    exact F.
Qed.

(** X1.  For a 64-bit [value], [store_bytes_be] gets past its assertions
    exactly when [0 <= len <= 8] and [value] is below [2^(8 len)] (any value
    when [len] is 8); it then writes [len] bytes that read, big-endian, as
    [value]. *)
Theorem store_bytes_be_round_trip (len value : Z) :
  0 <= value < 2 ^ 64 ->
  ((exists bs, send.store_bytes_be len value = Returns bs)
   <-> 0 <= len <= 8 /\ fits len value)
  /\ forall bs, send.store_bytes_be len value = Returns bs ->
       size bs = len /\ Forall is_byte bs /\ be_value bs = value.
Proof.
  intros V. split; [split|].
  - intros [bs H].
    pose proof H as H'. apply store_bytes_be_returns in H' as (L & _ & _); [|lia].
    split; [exact L|]. unfold fits. split; [lia|].
    unfold send.store_bytes_be in H. bind_inv H. bind_inv H.
    apply assert_returns in E0. unfold sizeof_item_pointer_t in E0.
    apply orb_prop in E0 as [E0 | E0].
    + apply Z.eqb_eq in E0. subst len. change (2 ^ (8 * 8)) with (2 ^ 64). lia.
    + apply Z.ltb_lt in E0.
      destruct (Z.eq_dec len 8) as [-> | N];
        [change (2 ^ (8 * 8)) with (2 ^ 64); lia|].
      rewrite Z.shiftl_1_l in E0. unfold to_uint64 in E0.
      assert (2 ^ (8 * len) < 2 ^ 64) by (apply Z.pow_lt_mono_r; lia).
      rewrite Z.mod_small in E0
        by (split; [apply Z.pow_nonneg; lia | assumption]).
      exact E0.
  - intros [L [_ F]]. apply store_bytes_be_total; [exact L | right; exact F].
  - intros bs H.
    apply store_bytes_be_returns in H as (L & -> & Hv); [|lia].
    unfold size. rewrite be_bytes_length.
    split; [lia|]. split; [apply be_bytes_range|].
    destruct (Z.eq_dec len 8) as [-> | N]; [|apply Hv; lia].
    rewrite be_value_be_bytes. apply Z.mod_small.
    change (2 ^ (8 * Z.of_nat (Z.to_nat 8))) with (2 ^ 64). lia.
Qed.

Lemma store_bytes_be_round_trip_witness :
  (exists bs, send.store_bytes_be 3 0x010203 = Returns bs)
  /\ send.store_bytes_be 3 0x010203 = Returns [1; 2; 3]
  /\ be_value [1; 2; 3] = 0x010203
  /\ ~ (exists bs, send.store_bytes_be 2 0x010203 = Returns bs).
Proof.
  assert (V : 0 <= 0x010203 < 2 ^ 64) by lia.
  destruct (store_bytes_be_round_trip 3 0x010203 V) as [I R].
  destruct (store_bytes_be_round_trip 2 0x010203 V) as [I2 _].
  split; [apply I; unfold fits; lia|].
  split; [reflexivity|].
  split; [exact (proj2 (proj2 (R [1; 2; 3] eq_refl)))|].
  intros H. apply I2 in H. unfold fits in H. lia.
Defined.

(** ** The blob of [encode_descriptor], section by section *)

Lemma encode_descriptor_sections (K : common_defines) (wide_shift : Z -> Z)
    (d : send.descriptor) (hab bc : Z) (out : list Z) (total : Z) :
  send.encode_descriptor K wide_shift d hab bc = Returns (out, total) ->
  send.id_out_of_range wide_shift d hab = false
  /\ exists pointers fields dims,
       Z.of_nat (length pointers) = descriptor_items d
       /\ for_each (send.encode_field (send.field_size K hab bc)) (send.format d)
          = Returns fields
       /\ for_each (send.encode_dim (send.shape_size K hab bc)
                      (send.variable_tag K bc)) (send.shape d)
          = Returns dims
       /\ out = htobe64 (header_word d hab) ++ concat (map htobe64 pointers)
                ++ send.name d ++ send.description d ++ fields ++ dims
                ++ send.numpy_header d
       /\ to_size_t (size out) = total.
Proof.
  intros H. unfold send.encode_descriptor in H.
  destruct (send.id_out_of_range wide_shift d hab) eqn:R; [discriminate|].
  split; [reflexivity|]. cbv beta zeta in H.
  do 9 bind_inv H.
  unfold header_word, descriptor_items.
  destruct (size (send.numpy_header d) =? 0) eqn:N; cbn [negb] in H.
  - do 5 bind_inv H. apply Returns_inj in E8. subst a8.
    apply assert_returns in E12. apply Z.eqb_eq in E12.
    apply Returns_inj in H.
    pose proof (f_equal fst H) as H1. pose proof (f_equal snd H) as H2.
    cbn [fst snd] in H1, H2.
    assert (Hn : send.numpy_header d = []).
    { apply Z.eqb_eq in N. unfold size in N.
      destruct (send.numpy_header d); [reflexivity | discriminate]. }
    eexists _, a10, a11.
    split; [|split; [eassumption|split; [eassumption|split]]].
    2:{ rewrite <- H1, Hn. reflexivity. }
    + reflexivity.
    + rewrite <- H2, <- E12, <- H1. reflexivity.
  - do 5 bind_inv H. bind_inv E8. apply Returns_inj in E8. subst a8.
    apply assert_returns in E12. apply Z.eqb_eq in E12.
    apply Returns_inj in H.
    pose proof (f_equal fst H) as H1. pose proof (f_equal snd H) as H2.
    cbn [fst snd] in H1, H2.
    eexists _, a10, a11.
    split; [|split; [eassumption|split; [eassumption|split]]].
    2:{ rewrite <- H1. reflexivity. }
    + reflexivity.
    + rewrite <- H2, <- E12, <- H1. reflexivity.
Qed.

Lemma descriptor_items_cases (d : send.descriptor) :
  descriptor_items d = (if size (send.numpy_header d) =? 0 then 9 else 10).
Proof. unfold descriptor_items. destruct (_ =? 0); reflexivity. Qed.

Lemma htobe64_header_word (d : send.descriptor) (hab : Z) :
  valid_flavour hab ->
  htobe64 (header_word d hab)
  = [0x53; 0x04; 8 - hab / 8; hab / 8; 0; 0; 0; descriptor_items d].
Proof.
  intros V. unfold header_word. rewrite descriptor_items_cases.
  destruct (size (send.numpy_header d) =? 0);
    destruct (valid_flavour_cases hab V) as [-> | [-> | [-> | [-> | [-> | [-> | ->]]]]]];
    vm_compute; reflexivity.
Qed.

(** X2.  In every valid flavour, a blob returned by [encode_descriptor]
    starts with the eight bytes of a SPEAD packet header: the magic 0x53
    0x04, the item-id width in bytes [8 - heap_address_bits / 8], the heap
    address width in bytes [heap_address_bits / 8], and the number of item
    pointers as a 32-bit big-endian number, which is 9 without a numpy
    header and 10 with one. *)
Theorem encode_descriptor_header (K : common_defines) (wide_shift : Z -> Z)
    (d : send.descriptor) (hab bc : Z) (out : list Z) (total : Z) :
  valid_flavour hab ->
  send.encode_descriptor K wide_shift d hab bc = Returns (out, total) ->
  firstn 8 out
  = [0x53; 0x04; 8 - hab / 8; hab / 8; 0; 0; 0;
     if size (send.numpy_header d) =? 0 then 9 else 10].
Proof.
  intros V H.
  apply encode_descriptor_sections in H
    as (_ & pointers & fields & dims & _ & _ & _ & -> & _).
  rewrite firstn_app, htobe64_length, Nat.sub_diag, firstn_O, app_nil_r.
  rewrite firstn_all2 by (rewrite htobe64_length; lia).
  rewrite htobe64_header_word by exact V.
  rewrite descriptor_items_cases. reflexivity.
Qed.

Lemma scenario6_numpy_encoded :
  send.encode_descriptor spead_defines send.masked_shift scenario6_numpy 16 0
  = Returns (scenario6_numpy_blob, 106).
Proof. vm_compute. reflexivity. Qed.

Lemma valid_flavour_16 : valid_flavour 16.
Proof. split; [unfold sizeof_item_pointer_t; lia | exists 2; reflexivity]. Qed.

Lemma encode_descriptor_header_witness :
  firstn 8 scenario6_numpy_blob = [0x53; 0x04; 6; 2; 0; 0; 0; 10].
Proof.
  exact (encode_descriptor_header spead_defines send.masked_shift
           scenario6_numpy 16 0 _ _ valid_flavour_16 scenario6_numpy_encoded).
Defined.

(** X3.  A blob returned by [encode_descriptor] carries, right after the
    packet header and the item pointers, the name and then the description
    as they are, and ends with the numpy header as it is; the size returned
    with the blob is its number of bytes (modulo 2^64, as a [std::size_t]). *)
Theorem encode_descriptor_sections_verbatim (K : common_defines)
    (wide_shift : Z -> Z) (d : send.descriptor) (hab bc : Z)
    (out : list Z) (total : Z) :
  send.encode_descriptor K wide_shift d hab bc = Returns (out, total) ->
  let start := 8 + descriptor_items d * sizeof_item_pointer_t in
  firstn (length (send.name d)) (skipn (Z.to_nat start) out) = send.name d
  /\ firstn (length (send.description d))
       (skipn (Z.to_nat (start + size (send.name d))) out)
     = send.description d
  /\ skipn (length out - length (send.numpy_header d)) out = send.numpy_header d
  /\ total = size out mod 2 ^ 64.
Proof.
  intros H start.
  apply encode_descriptor_sections in H
    as (_ & pointers & fields & dims & Hp & _ & _ & -> & <-).
  assert (Hs : Z.to_nat start
               = length (htobe64 (header_word d hab)
                         ++ concat (map htobe64 pointers))).
  { rewrite length_app, htobe64_length, concat_htobe64_length.
    unfold start, sizeof_item_pointer_t. lia. }
  split; [|split; [|split; [|reflexivity]]].
  - rewrite app_assoc, Hs, skipn_app, skipn_all, Nat.sub_diag.
    cbn [skipn app].
    rewrite firstn_app, Nat.sub_diag, firstn_O, app_nil_r.
    apply firstn_all.
  - assert (Hs2 : Z.to_nat (start + size (send.name d))
                  = length ((htobe64 (header_word d hab)
                             ++ concat (map htobe64 pointers)) ++ send.name d)).
    { rewrite (length_app _ (send.name d)), <- Hs.
      assert (0 <= start).
      { unfold start, sizeof_item_pointer_t. rewrite descriptor_items_cases.
        destruct (_ =? 0); lia. }
      unfold size. lia. }
    rewrite Hs2.
    rewrite (app_assoc (htobe64 _)), (app_assoc (_ ++ _) (send.name d)).
    rewrite skipn_app, skipn_all, Nat.sub_diag. cbn [skipn app].
    rewrite firstn_app, Nat.sub_diag, firstn_O, app_nil_r.
    apply firstn_all.
  - rewrite !app_assoc.
    match goal with
    | |- skipn _ (?front ++ _) = _ =>
        replace (length (front ++ send.numpy_header d)
                 - length (send.numpy_header d))%nat
          with (length front)
          by (rewrite (length_app front (send.numpy_header d)); lia);
        rewrite skipn_app, skipn_all, Nat.sub_diag
    end.
    reflexivity.
Qed.


Lemma encode_descriptor_sections_verbatim_witness :
  firstn 1 (skipn 88 scenario6_numpy_blob) = [120]
  /\ firstn 2 (skipn 89 scenario6_numpy_blob) = [121; 122]
  /\ skipn 104 scenario6_numpy_blob = [123; 125]
  /\ 106 = size scenario6_numpy_blob mod 2 ^ 64.
Proof.
  exact (encode_descriptor_sections_verbatim spead_defines send.masked_shift
           scenario6_numpy 16 0 _ _ scenario6_numpy_encoded).
Defined.

(** ** Format entries and what a returned blob says about the descriptor *)

Lemma for_each_all {A : Type} (body : A -> outcome (list Z)) (xs : list A)
    (bytes : list Z) :
  for_each body xs = Returns bytes ->
  Forall (fun x => exists bs, body x = Returns bs) xs.
Proof.
  revert bytes; induction xs as [|x xs IH]; intros bytes H; [constructor|].
  cbn [for_each] in H. bind_inv H. bind_inv H.
  constructor; [eexists; exact E | eapply IH; exact E0].
Qed.

Lemma encode_field_returns (w : Z) (field : Z * Z) (bs : list Z) :
  1 <= w <= 8 ->
  send.encode_field w field = Returns bs ->
  length bs = Z.to_nat w
  /\ hd 0 bs = to_uint8 (fst field)
  /\ tl bs = be_bytes (Z.to_nat (w - 1)) (to_uint64 (snd field))
  /\ be_value (tl bs) = to_uint64 (snd field).
Proof.
  intros Hw H. unfold send.encode_field in H. bind_inv H.
  apply Returns_inj in H. subst bs.
  apply store_bytes_be_returns in E as (_ & Hb & Hv).
  - cbn [hd tl length]. rewrite Hv by lia. subst a.
    rewrite be_bytes_length. repeat split. lia.
  - unfold to_uint64. apply Z.mod_pos_bound. reflexivity.
Qed.

Lemma format_entry_in_fields (K : common_defines) (d : send.descriptor)
    (hab bc : Z) (front fields tail : list Z) (i : nat) :
  valid_flavour hab ->
  Z.of_nat (length front) = 8 + descriptor_items d * sizeof_item_pointer_t ->
  length fields
    = (length (send.format d) * Z.to_nat (send.field_size K hab bc))%nat ->
  (i < length (send.format d))%nat ->
  format_entry K d hab bc
    (front ++ send.name d ++ send.description d ++ fields ++ tail) i
  = firstn (Z.to_nat (send.field_size K hab bc))
      (skipn (i * Z.to_nat (send.field_size K hab bc)) fields).
Proof.
  intros V Hfront Hfields Hi.
  pose proof (field_size_range K hab bc V) as Rf.
  unfold format_entry, format_offset, size.
  set (w := Z.to_nat (send.field_size K hab bc)) in *.
  set (prefix := front ++ send.name d ++ send.description d).
  replace (front ++ send.name d ++ send.description d ++ fields ++ tail)
    with (prefix ++ fields ++ tail)
    by (unfold prefix; rewrite <- !app_assoc; reflexivity).
  assert (Hp : Z.to_nat (8 + descriptor_items d * sizeof_item_pointer_t
                         + Z.of_nat (length (send.name d))
                         + Z.of_nat (length (send.description d))
                         + Z.of_nat i * send.field_size K hab bc)
               = (length prefix + i * w)%nat).
  { unfold prefix, w. rewrite !length_app. nia. }
  rewrite Hp, skipn_app.
  rewrite (skipn_all2 prefix) by lia. cbn [app].
  replace (length prefix + i * w - length prefix)%nat with (i * w)%nat by lia.
  rewrite skipn_app, firstn_app, length_skipn, Hfields.
  replace (w - (length (send.format d) * w - i * w))%nat with O by nia.
  rewrite firstn_O, app_nil_r. reflexivity.
Qed.

(** X4.  In every valid flavour, the [i]-th format entry of a returned blob
    has [field_size] bytes: the type code (as a byte) first, then the width
    as a big-endian unsigned number of [field_size - 1] bytes. *)
Theorem encode_descriptor_format_entries (K : common_defines)
    (wide_shift : Z -> Z) (d : send.descriptor) (hab bc : Z)
    (out : list Z) (total : Z) (i : nat) (code width : Z) :
  valid_flavour hab ->
  send.encode_descriptor K wide_shift d hab bc = Returns (out, total) ->
  nth_error (send.format d) i = Some (code, width) ->
  let entry := format_entry K d hab bc out i in
  size entry = send.field_size K hab bc
  /\ hd 0 entry = code mod 256
  /\ tl entry = be_bytes (Z.to_nat (send.field_size K hab bc - 1))
                  (width mod 2 ^ 64)
  /\ be_value (tl entry) = width mod 2 ^ 64.
Proof.
  intros V H Hi entry. subst entry.
  pose proof (field_size_range K hab bc V) as Rf.
  apply encode_descriptor_layout in H
    as (_ & front & fields & dims & Hfront & Hfields & _ & ->).
  assert (F1 : 1 <= send.field_size K hab bc) by lia.
  assert (F8 : 1 <= send.field_size K hab bc <= 8) by lia.
  destruct (for_each_entry _ (Z.to_nat (send.field_size K hab bc))
              (fun x bs E => encode_field_length _ x bs F1 E)
              _ _ Hfields) as [Lf Hentry].
  assert (Hlt : (i < length (send.format d))%nat)
    by (apply nth_error_Some; congruence).
  rewrite (format_entry_in_fields K d hab bc front fields _ i V Hfront Lf Hlt).
  specialize (Hentry i (code, width) Hi).
  apply encode_field_returns in Hentry as (L & Hh & Hb & Hv); [|exact F8].
  unfold size. rewrite L.
  repeat split; [lia | exact Hh | exact Hb | exact Hv].
Qed.

Lemma encode_descriptor_format_entries_witness :
  format_entry spead_defines scenario6_numpy 16 0 scenario6_numpy_blob 0
    = [117; 0; 0; 0; 0; 0; 32]
  /\ hd 0 (format_entry spead_defines scenario6_numpy 16 0
             scenario6_numpy_blob 0) = 117 mod 256
  /\ be_value (tl (format_entry spead_defines scenario6_numpy 16 0
                     scenario6_numpy_blob 0)) = 32 mod 2 ^ 64.
Proof.
  split; [vm_compute; reflexivity|].
  pose proof (encode_descriptor_format_entries spead_defines send.masked_shift
                scenario6_numpy 16 0 _ _ 0%nat 117 32 valid_flavour_16
                scenario6_numpy_encoded eq_refl) as (_ & Hh & _ & Hv).
  split; [exact Hh | exact Hv].
Defined.

(** X5.  [encode_descriptor] refuses a descriptor whose id is 0 or less with
    [std::invalid_argument], whatever the flavour.  In every valid flavour
    it returns a blob only for a descriptor whose id is positive, whose
    fixed dimensions each fit the [shape_size - 1] bytes of a shape entry,
    and whose format widths (as 64-bit unsigned numbers) each fit the
    [field_size - 1] bytes of a format entry. *)
Theorem encode_descriptor_returns_only_what_fits (K : common_defines)
    (wide_shift : Z -> Z) (d : send.descriptor) (hab bc : Z) :
  (send.id d <= 0 ->
   send.encode_descriptor K wide_shift d hab bc = Throws_invalid_argument)
  /\ (valid_flavour hab ->
      forall (out : list Z) (total : Z),
        send.encode_descriptor K wide_shift d hab bc = Returns (out, total) ->
        0 < send.id d
        /\ Forall (fun dim => dim < 0 \/ fits (send.shape_size K hab bc - 1) dim)
             (send.shape d)
        /\ Forall (fun field => fits (send.field_size K hab bc - 1)
                                  (snd field mod 2 ^ 64))
             (send.format d)).
Proof.
  split.
  { intros N. unfold send.encode_descriptor, send.id_out_of_range.
    apply Z.leb_le in N. rewrite N. reflexivity. }
  intros V out total H.
  pose proof (field_size_range K hab bc V) as Rf.
  pose proof (shape_size_range K hab bc V) as Rs.
  apply encode_descriptor_layout in H
    as (R & front & fields & dims & _ & Hfields & Hdims & _).
  split; [|split].
  - unfold send.id_out_of_range in R. apply orb_false_elim in R as [R _].
    apply Z.leb_gt in R. exact R.
  - apply for_each_all in Hdims.
    eapply Forall_impl; [|exact Hdims]. cbn beta. intros dim [bs Hb].
    unfold send.encode_dim in Hb. bind_inv Hb.
    destruct (dim <? 0) eqn:D; [left; apply Z.ltb_lt in D; exact D|].
    right. apply Z.ltb_ge in D.
    assert (Vd : 0 <= dim) by exact D.
    pose proof (store_bytes_be_returns _ _ _ Vd E) as (_ & Ha & Hv).
    unfold fits. split; [exact D|].
    rewrite <- (Hv ltac:(lia)), Ha, be_value_be_bytes.
    rewrite Z2Nat.id by lia. apply Z.mod_pos_bound.
    apply Z.pow_pos_nonneg; lia.
  - apply for_each_all in Hfields.
    eapply Forall_impl; [|exact Hfields]. cbn beta. intros field [bs Hb].
    unfold send.encode_field in Hb. bind_inv Hb.
    assert (Vw : 0 <= to_uint64 (snd field))
      by (unfold to_uint64; apply Z.mod_pos_bound; reflexivity).
    pose proof (store_bytes_be_returns _ _ _ Vw E) as (_ & Ha & Hv).
    unfold fits. fold (to_uint64 (snd field)). split; [exact Vw|].
    rewrite <- (Hv ltac:(lia)), Ha, be_value_be_bytes.
    rewrite Z2Nat.id by lia. apply Z.mod_pos_bound.
    apply Z.pow_pos_nonneg; lia.
Qed.

Lemma encode_descriptor_returns_only_what_fits_witness :
  send.encode_descriptor spead_defines send.masked_shift
    {| send.id := 0; send.name := []; send.description := [];
       send.format := []; send.shape := []; send.numpy_header := [] |} 16 0
  = Throws_invalid_argument
  /\ 0 < send.id scenario6_numpy
  /\ Forall (fun dim => dim < 0 \/ fits (send.shape_size spead_defines 16 0 - 1) dim)
       (send.shape scenario6_numpy).
Proof.
  split.
  - apply (proj1 (encode_descriptor_returns_only_what_fits spead_defines
                    send.masked_shift _ 16 0)).
    cbn. lia.
  - pose proof (proj2 (encode_descriptor_returns_only_what_fits spead_defines
                         send.masked_shift scenario6_numpy 16 0)
                  valid_flavour_16 _ _ scenario6_numpy_encoded) as (I & S & _).
    split; [exact I | exact S].
Defined.

(** ** [send::heap::add_descriptor] *)

Lemma heap_ctor_valid (cnt hab bc : Z) :
  (send.heap_ctor cnt hab bc = Throws_invalid_argument \/ valid_flavour hab)
  /\ (valid_flavour hab ->
      exists h, send.heap_ctor cnt hab bc = Returns h
                /\ send.heap_address_bits h = hab
                /\ send.cnt h = cnt /\ send.bug_compat h = bc).
Proof.
  unfold send.heap_ctor, valid_flavour, sizeof_item_pointer_t.
  change (8 * to_int 8) with 64. change (8 * 8) with 64.
  destruct (hab <=? 0) eqn:L0; cbn [orb];
    [apply Z.leb_le in L0; split; [left; reflexivity | lia]|].
  apply Z.leb_gt in L0.
  destruct (64 <=? hab) eqn:L64; cbn [orb];
    [apply Z.leb_le in L64; split; [left; reflexivity | lia]|].
  apply Z.leb_gt in L64.
  rewrite Z.rem_mod_nonneg by lia.
  destruct (hab mod 8 =? 0) eqn:M; cbn [negb].
  - apply Z.eqb_eq in M. split.
    + right. split; [lia|]. apply Z.mod_divide; [lia | exact M].
    + intros _. eexists. repeat split.
  - apply Z.eqb_neq in M. split; [left; reflexivity|].
    intros [_ D]. apply Z.mod_divide in D; [contradiction | lia].
Qed.


Lemma add_descriptors_from (K : common_defines) (wide_shift : Z -> Z)
    (ds : list send.descriptor) :
  forall (h0 h : send.heap),
    add_descriptors K wide_shift h0 ds = Returns h ->
    send.cnt h = send.cnt h0
    /\ send.heap_address_bits h = send.heap_address_bits h0
    /\ send.bug_compat h = send.bug_compat h0
    /\ exists blobs,
         send.storage h = send.storage h0 ++ blobs
         /\ send.items h
            = send.items h0
              ++ map (fun blob => {| send.item_id := DESCRIPTOR_ID K;
                                     send.item_data := blob;
                                     send.item_length := size blob mod 2 ^ 64;
                                     send.item_is_inline := false |}) blobs
         /\ Forall2 (fun d blob =>
                       exists total,
                         send.encode_descriptor K wide_shift d
                           (send.heap_address_bits h0) (send.bug_compat h0)
                         = Returns (blob, total))
              ds blobs.
Proof.
  induction ds as [|d ds IH]; intros h0 h H; cbn [add_descriptors] in H.
  - apply Returns_inj in H. subst h. repeat split.
    exists []. rewrite !app_nil_r. repeat split. constructor.
  - bind_inv H. unfold send.add_descriptor in E. bind_inv E.
    destruct a0 as [blob total]. cbn [fst snd] in E.
    apply Returns_inj in E. subst a.
    destruct (IH _ _ H) as (Hc & Hh & Hb & blobs & Hs & Hi & Hf).
    cbn [send.cnt send.heap_address_bits send.bug_compat send.storage
         send.items] in Hc, Hh, Hb, Hs, Hi, Hf.
    split; [exact Hc|]. split; [exact Hh|]. split; [exact Hb|].
    exists (blob :: blobs).
    split; [rewrite Hs, <- app_assoc; reflexivity|].
    split.
    + rewrite Hi, <- app_assoc. cbn [map app]. do 4 f_equal.
      apply encode_descriptor_sections in E0
        as (_ & _ & _ & _ & _ & _ & _ & _ & <-).
      reflexivity.
    + constructor; [exists total; exact E0 | exact Hf].
Qed.

(** X6.  After any number of successful [add_descriptor] calls on a newly
    constructed send heap, the heap holds one item and one stored blob per
    descriptor, in the order the descriptors were added: the k-th blob is
    what [encode_descriptor] returns for the k-th descriptor in the heap's
    flavour, and the k-th item has the id DESCRIPTOR, is not inline, points
    at that blob and carries its size.  The heap's count, flavour and bug
    mask are those of the constructor, and the flavour is a valid one. *)
Theorem add_descriptor_items_match_storage (K : common_defines)
    (wide_shift : Z -> Z) (cnt hab bc : Z) (ds : list send.descriptor)
    (h0 h : send.heap) :
  send.heap_ctor cnt hab bc = Returns h0 ->
  add_descriptors K wide_shift h0 ds = Returns h ->
  valid_flavour hab
  /\ send.cnt h = cnt /\ send.heap_address_bits h = hab /\ send.bug_compat h = bc
  /\ length (send.items h) = length ds
  /\ map send.item_data (send.items h) = send.storage h
  /\ Forall (fun it => send.item_id it = DESCRIPTOR_ID K
                       /\ send.item_is_inline it = false
                       /\ send.item_length it
                          = size (send.item_data it) mod 2 ^ 64)
       (send.items h)
  /\ Forall2 (fun d blob =>
                exists total,
                  send.encode_descriptor K wide_shift d hab bc
                  = Returns (blob, total))
       ds (send.storage h).
Proof.
  intros H0 H.
  assert (V : valid_flavour hab).
  { destruct (proj1 (heap_ctor_valid cnt hab bc)); [|assumption].
    rewrite H0 in *. discriminate. }
  destruct (proj2 (heap_ctor_valid cnt hab bc) V) as (h1 & E1 & A1 & C1 & B1).
  rewrite H0 in E1. apply Returns_inj in E1. subst h1.
  assert (I0 : send.items h0 = [] /\ send.storage h0 = []).
  { unfold send.heap_ctor in H0.
    destruct (_ || _); [discriminate|].
    apply Returns_inj in H0. subst h0. split; reflexivity. }
  destruct I0 as [I0 S0].
  destruct (add_descriptors_from K wide_shift ds h0 h H)
    as (Hc & Hh & Hb & blobs & Hs & Hi & Hf).
  rewrite I0 in Hi. rewrite S0 in Hs. cbn [app] in Hi, Hs.
  rewrite A1, B1 in Hf.
  split; [exact V|]. split; [congruence|]. split; [congruence|].
  split; [congruence|].
  split; [rewrite Hi, length_map; symmetry; eapply Forall2_length; exact Hf|].
  split; [rewrite Hi, Hs, map_map; cbn [send.item_data]; apply map_id|].
  split; [|rewrite Hs; exact Hf].
  rewrite Hi, Forall_map, Forall_forall. intros blob _.
  cbn [send.item_id send.item_is_inline send.item_length send.item_data].
  repeat split.
Qed.

Lemma add_descriptor_items_match_storage_witness :
  exists h0 h,
    send.heap_ctor 1 16 0 = Returns h0
    /\ add_descriptors spead_defines send.masked_shift h0
         [scenario6_numpy; scenario6_numpy] = Returns h
    /\ send.storage h = [scenario6_numpy_blob; scenario6_numpy_blob]
    /\ length (send.items h) = 2%nat
    /\ map send.item_data (send.items h) = send.storage h.
Proof.
  assert (E0 : exists h0, send.heap_ctor 1 16 0 = Returns h0)
    by (eexists; reflexivity).
  destruct E0 as [h0 E0]. exists h0.
  pose proof E0 as E0'. vm_compute in E0'. apply Returns_inj in E0'. subst h0.
  match goal with
  | |- exists h, _ /\ ?X = Returns h /\ _ =>
      let v := eval vm_compute in X in
      match v with
      | Returns ?h1 =>
          exists h1; assert (E : X = Returns h1) by (vm_compute; reflexivity)
      end
  end.
  split; [exact E0|]. split; [exact E|]. split; [reflexivity|].
  pose proof (add_descriptor_items_match_storage spead_defines
                send.masked_shift 1 16 0 _ _ _ E0 E)
    as (_ & _ & _ & _ & L & D & _).
  split; [exact L | exact D].
Defined.


(** ** A packet for a live heap *)

Lemma find_heap_at (l1 l2 : list recv.heap.t) (h : recv.heap.t) (c : Z)
    (it ib : nat) :
  Forall (fun x => recv.heap.cnt x <> c) l1 ->
  recv.heap.cnt h = c ->
  exists ib', recv.find_heap (l1 ++ h :: l2) c it ib
              = (Some ((it + length l1)%nat, h), ib').
Proof.
  revert it ib; induction l1 as [|x l1 IH]; intros it ib F Hc; cbn [app recv.find_heap].
  - apply Z.eqb_eq in Hc. rewrite Hc. exists ib.
    cbn [length]. rewrite Nat.add_0_r. reflexivity.
  - apply Forall_cons_iff in F as [Fx F]. apply Z.eqb_neq in Fx. rewrite Fx.
    cbn [length]. replace (it + S (length l1))%nat with (S it + length l1)%nat by lia.
    destruct (recv.heap.cnt x <? c); apply IH; assumption.
Qed.

Lemma ascending_before (l1 l2 : list recv.heap.t) (h : recv.heap.t) :
  ascending (l1 ++ h :: l2) ->
  Forall (fun x => recv.heap.cnt x <> recv.heap.cnt h) l1.
Proof.
  unfold ascending, cnts. rewrite map_app. cbn [map]. intros A.
  apply ascending_app_inv in A as (_ & _ & Hlt).
  rewrite Forall_forall. intros x Hx.
  assert (recv.heap.cnt x < recv.heap.cnt h)
    by (apply Hlt; [apply in_map; exact Hx | left; reflexivity]).
  lia.
Qed.

(** X7.  When the packet's count is that of a live heap, [add_packet]
    delegates the packet to that heap and to no other, and makes no new
    heap.  If the heap rejects the packet, [add_packet] answers false and
    hands nothing over.  If the heap accepts it and is then complete, the
    heap goes to [heap_ready] and leaves the collection; if it accepts it
    and is not complete, it stays where it was.  The heaps before and after
    it are untouched in each case. *)
Theorem add_packet_live_heap (M : recv.heap_members) (s : recv.stream_base)
    (packet : recv.packet_header) (l1 l2 : list recv.heap.t) (h : recv.heap.t) :
  ascending (recv.heaps s) ->
  recv.heaps s = l1 ++ h :: l2 ->
  recv.heap.cnt h = recv.heap_cnt packet ->
  let accepted := fst (recv.heap_add_packet M h packet) in
  let h' := snd (recv.heap_add_packet M h packet) in
  let d := recv.dispatch M s packet in
  recv.result d = accepted
  /\ (accepted = false ->
      recv.after d = recv.with_heaps s (l1 ++ h' :: l2)
      /\ recv.calls d = [] /\ recv.saw_end_of_stream d = false)
  /\ (accepted = true ->
      recv.saw_end_of_stream d = recv.is_end_of_stream M h'
      /\ (recv.is_complete M h' = true ->
          recv.after d = recv.with_heaps s (l1 ++ l2)
          /\ recv.calls d = [{| recv.ready_heap := h';
                                recv.live_at_call := l1 ++ h' :: l2 |}])
      /\ (recv.is_complete M h' = false ->
          recv.after d = recv.with_heaps s (l1 ++ h' :: l2)
          /\ recv.calls d = [])).
Proof.
  intros A E Hc accepted h' d.
  rewrite E in A.
  destruct (find_heap_at l1 l2 h (recv.heap_cnt packet) 0 0) as [ib F];
    [rewrite <- Hc; apply (ascending_before l1 l2 h A) | exact Hc |].
  cbn [Nat.add] in F.
  assert (D : d = let live := l1 ++ h' :: l2 in
                  if accepted then
                    if recv.is_complete M h' then
                      {| recv.result := true;
                         recv.saw_end_of_stream := recv.is_end_of_stream M h';
                         recv.after := recv.with_heaps s (l1 ++ l2);
                         recv.calls := [{| recv.ready_heap := h';
                                           recv.live_at_call := live |}] |}
                    else
                      {| recv.result := true;
                         recv.saw_end_of_stream := recv.is_end_of_stream M h';
                         recv.after := recv.with_heaps s live;
                         recv.calls := [] |}
                  else
                    {| recv.result := false; recv.saw_end_of_stream := false;
                       recv.after := recv.with_heaps s live; recv.calls := [] |}).
  { unfold d, recv.dispatch. rewrite E, F. unfold accepted, h'.
    destruct (recv.heap_add_packet M h packet) as [acc hh]. cbn [fst snd].
    cbv zeta. rewrite deque_assign_at, deque_erase_at. reflexivity. }
  rewrite D. cbv zeta.
  destruct accepted; [destruct (recv.is_complete M h')|]; cbn;
    repeat split; trivial; try discriminate.
Qed.

(** Scenario 2 of the spec: heaps 1 and 2 are live, the second half of heap
    2 arrives; heap 2 is complete and handed over, heap 1 stays. *)
Lemma add_packet_live_heap_witness :
  let d := recv.dispatch spec_model.members scenario3_stream
             (spec_model.second_half 2) in
  recv.result d = true
  /\ handed_over (recv.calls d) = [2]
  /\ cnts (recv.heaps (recv.after d)) = [1].
Proof.
  intros d.
  destruct (recv.heaps scenario3_stream) as [|h1 [|h2 [|h3 rest]]] eqn:E;
    try discriminate E.
  pose proof E as E'. vm_compute in E'. injection E' as <- <-.
  pose proof (add_packet_live_heap spec_model.members scenario3_stream
                (spec_model.second_half 2) [_] [] _
                scenario3_stream_ascending E eq_refl) as (R & _ & Hacc).
  destruct (Hacc eq_refl) as (_ & Hcomplete & _).
  destruct (Hcomplete eq_refl) as (Hafter & Hcalls).
  fold d in R, Hafter, Hcalls.
  rewrite R, Hafter, Hcalls.
  repeat split.
Defined.

(** ** Ageing out *)



(** X9.  An [add_packet] that does not end the stream hands over at most
    one heap, and it changes the number of live heaps by at most one: the
    number of live heaps afterwards plus the number of heaps handed over is
    at most the number before plus one. *)
Theorem add_packet_hands_over_at_most_one (M : recv.heap_members)
    (s s' : recv.stream_base) (packet : recv.packet_header) (r : bool)
    (calls : list recv.ready_call) :
  recv.add_packet M s packet = Returns (r, s', calls) ->
  recv.stopped s' = false ->
  (length calls <= 1)%nat
  /\ size (recv.heaps s) - 1 <= size (recv.heaps s')
  /\ size (recv.heaps s') + size calls <= size (recv.heaps s) + 1.
Proof.
  intros H St. unfold recv.add_packet in H. bind_inv H. clear E.
  destruct (recv.saw_end_of_stream (recv.dispatch M s packet)).
  { unfold recv.stop, recv.flush in H. apply Returns_inj in H.
    injection H as _ <- _. discriminate St. }
  apply Returns_inj in H. injection H as _ <- <-. clear St.
  destruct (recv.find_heap (recv.heaps s) (recv.heap_cnt packet) 0 0)
    as [[[j h]|] ib] eqn:F.
  - destruct (dispatch_found M s packet j ib h F) as (l1 & l2 & E & _ & ->).
    rewrite E. cbv zeta.
    destruct (fst (recv.heap_add_packet M h packet));
      [destruct (recv.is_complete M _)|];
      cbn [recv.after recv.calls recv.with_heaps recv.heaps length];
      repeat split; try lia; sizes.
  - unfold recv.dispatch. rewrite F. cbv zeta.
    destruct (recv.heap_add_packet M _ packet) as [accepted h'].
    pose proof (deque_insert_size (recv.heaps s) ib h') as I.
    destruct accepted;
      [destruct (recv.is_complete M h');
       [|destruct (recv.max_heaps s <? size (recv.deque_insert (recv.heaps s) ib h'))]|];
      cbn [recv.after recv.calls recv.with_heaps recv.heaps length];
      try (destruct (recv.deque_insert (recv.heaps s) ib h') as [|h0 rest];
           cbn [tl length]);
      repeat split; try lia; sizes.
Qed.

Lemma add_packet_hands_over_at_most_one_witness :
  exists s' calls,
    recv.add_packet spec_model.members scenario3_stream (spec_model.first_half 3)
      = Returns (true, s', calls)
    /\ (length calls <= 1)%nat
    /\ size (recv.heaps s') + size calls <= size (recv.heaps scenario3_stream) + 1.
Proof.
  match goal with
  | |- exists s' calls, ?X = _ /\ _ =>
      let v := eval vm_compute in X in
      match v with
      | Returns (_, ?s0, ?c0) =>
          exists s0, c0;
          assert (E : X = Returns (true, s0, c0)) by (vm_compute; reflexivity)
      end
  end.
  split; [exact E|].
  pose proof (add_packet_hands_over_at_most_one spec_model.members
                scenario3_stream _ (spec_model.first_half 3) _ _ E eq_refl)
    as (L & _ & B).
  split; [exact L | exact B].
Defined.

(** ** No heap is lost *)

Lemma is_live_found (s : recv.stream_base) (c : Z) (j ib : nat) (h : recv.heap.t) :
  recv.find_heap (recv.heaps s) c 0 0 = (Some (j, h), ib) ->
  is_live s c = true.
Proof.
  intros F. apply find_heap_found in F as (l1 & l2 & E & _ & Hc & _).
  unfold is_live. rewrite E. apply existsb_exists.
  exists h. split; [apply in_elt | apply Z.eqb_eq; exact Hc].
Qed.

Lemma is_live_not_found (s : recv.stream_base) (c : Z) (ib : nat) :
  ascending (recv.heaps s) ->
  recv.find_heap (recv.heaps s) c 0 0 = (None, ib) ->
  is_live s c = false.
Proof.
  intros A F. apply find_heap_none in F as (l1 & l2 & E & _ & F1 & F2);
    [|exact A].
  unfold is_live. rewrite E.
  apply not_true_is_false. intros X.
  apply existsb_exists in X as (x & Hx & Hc). apply Z.eqb_eq in Hc.
  rewrite Forall_forall in F1, F2.
  apply in_app_or in Hx as [Hx | Hx]; [apply F1 in Hx | apply F2 in Hx]; lia.
Qed.

Lemma handed_over_flush (s : recv.stream_base) :
  handed_over (snd (recv.flush s)) = cnts (recv.heaps s).
Proof.
  unfold handed_over, recv.flush, cnts. cbn [snd].
  rewrite map_map. reflexivity.
Qed.

Section conservation.

Variable M : recv.heap_members.
Hypothesis C : keeps_cnt M.

Lemma dispatch_conserves_heaps (s : recv.stream_base)
    (packet : recv.packet_header) :
  ascending (recv.heaps s) ->
  let d := recv.dispatch M s packet in
  Permutation
    (handed_over (recv.calls d) ++ cnts (recv.heaps (recv.after d)))
    ((if is_live s (recv.heap_cnt packet) then []
      else if recv.result d then [recv.heap_cnt packet] else [])
     ++ cnts (recv.heaps s)).
Proof.
  intros A d. subst d.
  destruct (recv.find_heap (recv.heaps s) (recv.heap_cnt packet) 0 0)
    as [[[j h]|] ib] eqn:F.
  - rewrite (is_live_found s _ j ib h F). cbn [app].
    destruct (dispatch_found M s packet j ib h F) as (l1 & l2 & E & Hc & ->).
    pose proof (add_packet_cnt M C h packet) as Hh'.
    rewrite E. cbv zeta. unfold handed_over, cnts.
    destruct (fst (recv.heap_add_packet M h packet));
      [destruct (recv.is_complete M _)|];
      cbn [recv.after recv.calls recv.with_heaps recv.heaps map app
           recv.ready_heap];
      rewrite !map_app; cbn [map]; rewrite Hh';
      [apply Permutation_middle | reflexivity | reflexivity].
  - rewrite (is_live_not_found s _ ib A F).
    destruct (dispatch_new M s packet ib A F) as (l1 & l2 & E & _ & _ & ->).
    cbv zeta. fold (new_heap M s packet).
    pose proof (new_heap_cnt M C s packet) as Hn.
    unfold handed_over, cnts.
    destruct (fst (recv.heap_add_packet M _ packet));
      [destruct (recv.is_complete M _);
       [|destruct (recv.max_heaps s <? size (l1 ++ new_heap M s packet :: l2))]|];
      cbn [recv.after recv.calls recv.with_heaps recv.heaps map app
           recv.ready_heap recv.result].
    + rewrite Hn. reflexivity.
    + rewrite E.
      destruct l1 as [|x l1]; cbn [app hd tl map]; rewrite ?map_app; cbn [map];
        rewrite Hn; [reflexivity|].
      symmetry. apply (Permutation_middle (recv.heap.cnt x :: map _ l1)).
    + rewrite E, !map_app. cbn [map]. rewrite Hn.
      symmetry. apply Permutation_middle.
    + reflexivity.
Qed.

End conservation.

(** X10.  [add_packet] never drops a heap silently.  The counts of the
    heaps it hands to [heap_ready], together with the counts of the heaps
    live afterwards, are the counts of the heaps live before, plus the
    packet's count when the packet opened a new heap that accepted it; no
    count appears twice among them, so no heap is handed over twice or
    handed over and kept. *)
Theorem add_packet_conserves_heaps (M : recv.heap_members)
    (s s' : recv.stream_base) (packet : recv.packet_header) (r : bool)
    (calls : list recv.ready_call) :
  keeps_cnt M ->
  ascending (recv.heaps s) ->
  recv.add_packet M s packet = Returns (r, s', calls) ->
  Permutation
    (handed_over calls ++ cnts (recv.heaps s'))
    ((if is_live s (recv.heap_cnt packet) then []
      else if r then [recv.heap_cnt packet] else [])
     ++ cnts (recv.heaps s))
  /\ NoDup (handed_over calls ++ cnts (recv.heaps s')).
Proof.
  intros C A H.
  assert (P : Permutation
                (handed_over calls ++ cnts (recv.heaps s'))
                ((if is_live s (recv.heap_cnt packet) then []
                  else if r then [recv.heap_cnt packet] else [])
                 ++ cnts (recv.heaps s))).
  { unfold recv.add_packet in H. bind_inv H. clear E.
    pose proof (dispatch_conserves_heaps M C s packet A) as P. cbv zeta in P.
    destruct (recv.saw_end_of_stream (recv.dispatch M s packet)).
    - pose proof (handed_over_flush
                    {| recv.max_heaps :=
                         recv.max_heaps (recv.after (recv.dispatch M s packet));
                       recv.heaps :=
                         recv.heaps (recv.after (recv.dispatch M s packet));
                       recv.stopped := true;
                       recv.bug_compat :=
                         recv.bug_compat (recv.after (recv.dispatch M s packet));
                       recv.pool :=
                         recv.pool (recv.after (recv.dispatch M s packet)) |})
        as Hf.
      unfold recv.stop in H. destruct (recv.flush _) as [s2 flushed] eqn:Ef.
      apply Returns_inj in H. injection H as <- <- <-.
      unfold recv.flush in Ef. injection Ef as <- _.
      cbn [snd recv.heaps recv.with_heaps] in *.
      unfold handed_over in *. rewrite map_app.
      change (cnts []) with (@nil Z). rewrite app_nil_r.
      fold (handed_over flushed). unfold handed_over. rewrite Hf. exact P.
    - apply Returns_inj in H. injection H as <- <- <-. exact P. }
  split; [exact P|].
  apply (Permutation_NoDup (Permutation_sym P)).
  pose proof (ascending_NoDup _ A) as N.
  destruct (is_live s (recv.heap_cnt packet)) eqn:L; [exact N|].
  destruct r; [|exact N].
  cbn [app]. constructor; [|exact N].
  intros I. unfold cnts in I. apply in_map_iff in I as (h & Hc & Hh).
  apply not_true_iff_false in L. apply L.
  unfold is_live. apply existsb_exists. exists h.
  split; [exact Hh | apply Z.eqb_eq; exact Hc].
Qed.

Lemma add_packet_conserves_heaps_witness :
  exists s' calls,
    recv.add_packet spec_model.members scenario3_stream (spec_model.stop_packet 3)
      = Returns (true, s', calls)
    /\ handed_over calls = [1; 2; 3]
    /\ cnts (recv.heaps s') = []
    /\ Permutation (handed_over calls ++ cnts (recv.heaps s'))
         ([3] ++ cnts (recv.heaps scenario3_stream)).
Proof.
  match goal with
  | |- exists s' calls, ?X = _ /\ _ =>
      let v := eval vm_compute in X in
      match v with
      | Returns (_, ?s0, ?c0) =>
          exists s0, c0;
          assert (E : X = Returns (true, s0, c0)) by (vm_compute; reflexivity)
      end
  end.
  split; [exact E|]. split; [reflexivity|]. split; [reflexivity|].
  exact (proj1 (add_packet_conserves_heaps spec_model.members scenario3_stream
                  _ (spec_model.stop_packet 3) true _ spec_model_keeps_cnt
                  scenario3_stream_ascending E)).
Defined.

(** ** A stopped stream *)

Lemma perform_stopped_empty (M : recv.heap_members) (s s' : recv.stream_base)
    (op : recv.operation) (calls : list recv.ready_call) :
  (recv.stopped s = true -> recv.heaps s = []) ->
  recv.perform M s op = Returns (s', calls) ->
  recv.stopped s' = true -> recv.heaps s' = [].
Proof.
  intros I H. destruct op as [packet | n | p | |]; cbn [recv.perform] in H.
  - bind_inv H. destruct a as [[r s1] calls1]. cbn [fst snd] in H.
    apply Returns_inj in H. injection H as -> ->.
    unfold recv.add_packet in E. bind_inv E.
    destruct (recv.stopped s) eqn:St; [discriminate E0|]. clear E0.
    destruct (recv.saw_end_of_stream _).
    + unfold recv.stop, recv.flush in E. apply Returns_inj in E.
      injection E as _ <- _. reflexivity.
    + apply Returns_inj in E. injection E as _ <- _.
      assert (X : recv.stopped (recv.after (recv.dispatch M s packet)) = false).
      { unfold recv.dispatch.
        repeat match goal with
               | |- context [match ?x with _ => _ end] => destruct x
               | |- context [if ?x then _ else _] => destruct x
               end; cbn; exact St. }
      rewrite X. discriminate.
  - apply Returns_inj in H. injection H as <- _. exact I.
  - apply Returns_inj in H. injection H as <- _. exact I.
  - apply Returns_inj in H. injection H as <- _. reflexivity.
  - apply Returns_inj in H. injection H as <- _. reflexivity.
Qed.

Lemma run_stopped_empty (M : recv.heap_members) (ops : list recv.operation) :
  forall (s s' : recv.stream_base) (calls : list recv.ready_call),
    (recv.stopped s = true -> recv.heaps s = []) ->
    recv.run M s ops = Returns (s', calls) ->
    recv.stopped s' = true -> recv.heaps s' = [].
Proof.
  induction ops as [|op ops IH]; intros s s' calls I H; cbn [recv.run] in H.
  - apply Returns_inj in H. injection H as <- _. exact I.
  - bind_inv H. destruct a as [s1 calls1]. bind_inv H.
    destruct a as [s2 calls2]. cbn [fst snd] in *.
    apply Returns_inj in H. injection H as <- _.
    eapply IH; [|exact E0].
    eapply perform_stopped_empty; eassumption.
Qed.

(** X11.  A stopped stream holds no heap.  Whatever the heap does and
    whatever sequence of public operations has run on a stream since its
    construction, if the stream is stopped then its live collection is
    empty: every heap it still held when it was stopped has been handed
    to [heap_ready]. *)
Theorem stopped_stream_holds_no_heap (M : recv.heap_members)
    (bug_compat max_heaps : Z) (ops : list recv.operation)
    (s' : recv.stream_base) (calls : list recv.ready_call) :
  recv.run M (recv.stream_base_ctor bug_compat max_heaps) ops
    = Returns (s', calls) ->
  recv.stopped s' = true ->
  recv.heaps s' = [].
Proof.
  apply run_stopped_empty. intros X. discriminate X.
Qed.

Lemma stopped_stream_holds_no_heap_witness :
  exists s' calls,
    recv.run spec_model.members (recv.stream_base_ctor 0 4)
      (two_live ++ [recv.Add_packet (spec_model.stop_packet 3)])
      = Returns (s', calls)
    /\ handed_over calls = [1; 2; 3]
    /\ recv.stopped s' = true
    /\ recv.heaps s' = [].
Proof.
  run_to E.
  split; [exact E|]. split; [reflexivity|]. split; [reflexivity|].
  exact (stopped_stream_holds_no_heap spec_model.members 0 4 _ _ _ E eq_refl).
Defined.

Lemma perform_shut_down (M : recv.heap_members) (s : recv.stream_base)
    (op : recv.operation) :
  shut_down s ->
  match op with
  | recv.Add_packet _ => recv.perform M s op = Assertion_fails
  | _ => exists s', recv.perform M s op = Returns (s', [])
                    /\ shut_down s'
                    /\ recv.bug_compat s' = recv.bug_compat s
  end.
Proof.
  intros [St Hh]. destruct op as [packet | n | p | |]; cbn [recv.perform].
  - unfold recv.add_packet. rewrite St. reflexivity.
  - eexists. split; [reflexivity|]. repeat split; assumption.
  - eexists. split; [reflexivity|]. repeat split; assumption.
  - eexists. unfold recv.flush. rewrite Hh. split; [reflexivity|].
    repeat split. exact St.
  - eexists. unfold recv.stop, recv.flush. cbn [recv.heaps]. rewrite Hh.
    split; [reflexivity|]. repeat split.
Qed.

(** X12.  Stopping is final.  On a stream that has been stopped and holds
    no heap, every sequence of public operations that contains a call of
    [add_packet] runs into the assertion [!stopped]; every other sequence
    returns, makes no call of [heap_ready], and leaves the stream stopped
    and empty, with the bug-compatibility mask it had: nothing restarts a
    stream. *)
Theorem stop_is_final (M : recv.heap_members) (s : recv.stream_base)
    (ops : list recv.operation) :
  shut_down s ->
  (existsb is_add_packet ops = true -> recv.run M s ops = Assertion_fails)
  /\ (existsb is_add_packet ops = false ->
      exists s', recv.run M s ops = Returns (s', [])
                 /\ shut_down s'
                 /\ recv.bug_compat s' = recv.bug_compat s).
Proof.
  revert s. induction ops as [|op ops IH]; intros s D.
  - split; [discriminate|]. intros _. exists s. repeat split; apply D.
  - pose proof (perform_shut_down M s op D) as P.
    cbn [existsb recv.run].
    destruct op as [packet | n | p | |]; cbn [is_add_packet orb];
      try (split; [intros _; rewrite P; reflexivity | discriminate]);
      destruct P as (s1 & -> & D1 & B1); cbn [bind fst snd];
      destruct (IH s1 D1) as (I1 & I2);
      (split;
       [ intros X; rewrite (I1 X); reflexivity
       | intros X; destruct (I2 X) as (s2 & -> & D2 & B2);
         exists s2; cbn [bind fst snd app];
         repeat split; try apply D2; congruence ]).
Qed.

Lemma stop_is_final_witness :
  shut_down (fst (recv.stop scenario3_stream))
  /\ recv.run spec_model.members (fst (recv.stop scenario3_stream))
       [recv.Flush; recv.Add_packet (spec_model.first_half 7)]
     = Assertion_fails
  /\ exists s',
       recv.run spec_model.members (fst (recv.stop scenario3_stream))
         [recv.Set_max_heaps 8; recv.Flush; recv.Stop] = Returns (s', [])
       /\ shut_down s'
       /\ recv.bug_compat s' = 0.
Proof.
  assert (D : shut_down (fst (recv.stop scenario3_stream)))
    by (split; reflexivity).
  split; [exact D|]. split.
  - exact (proj1 (stop_is_final spec_model.members _
                    [recv.Flush; recv.Add_packet (spec_model.first_half 7)] D)
             eq_refl).
  - exact (proj2 (stop_is_final spec_model.members _
                    [recv.Set_max_heaps 8; recv.Flush; recv.Stop] D)
             eq_refl).
Defined.

(** ** Complete heaps do not stay live *)

Section completeness.

Variable M : recv.heap_members.
Hypothesis R : rejection_leaves_heap M.

Lemma incomplete_only_ready (hs : list recv.heap.t) (h : recv.heap.t) :
  incomplete M hs ->
  complete_only_if_ready M {| recv.ready_heap := h; recv.live_at_call := hs |}.
Proof.
  unfold incomplete, complete_only_if_ready. cbn [recv.live_at_call].
  apply Forall_impl. intros x Hx X. rewrite Hx in X. discriminate X.
Qed.

Lemma dispatch_incomplete (s : recv.stream_base) (packet : recv.packet_header) :
  incomplete M (recv.heaps s) ->
  incomplete M (recv.heaps (recv.after (recv.dispatch M s packet)))
  /\ Forall (complete_only_if_ready M) (recv.calls (recv.dispatch M s packet)).
Proof.
  intros I.
  destruct (recv.find_heap (recv.heaps s) (recv.heap_cnt packet) 0 0)
    as [[[j h]|] ib] eqn:F.
  - destruct (dispatch_found M s packet j ib h F) as (l1 & l2 & E & _ & ->).
    cbv zeta. rewrite E in I. unfold incomplete in *.
    apply Forall_app in I as (I1 & I2).
    apply Forall_cons_iff in I2 as (Ih & I2).
    pose proof (R h packet) as Rh.
    set (h' := snd (recv.heap_add_packet M h packet)) in *.
    destruct (fst (recv.heap_add_packet M h packet));
      [destruct (recv.is_complete M h') eqn:Cp|];
      cbn [recv.after recv.calls recv.with_heaps recv.heaps].
    + split; [apply Forall_app; split; assumption|].
      constructor; [|constructor].
      unfold complete_only_if_ready. cbn [recv.live_at_call recv.ready_heap].
      apply Forall_app. split; [|constructor; [reflexivity|]];
        [revert I1 | revert I2]; apply Forall_impl;
        intros x Hx X; rewrite Hx in X; discriminate X.
    + split; [|constructor].
      apply Forall_app. split; [exact I1|]. constructor; assumption.
    + split; [|constructor]. rewrite (Rh eq_refl).
      apply Forall_app. split; [exact I1|]. constructor; assumption.
  - unfold recv.dispatch. rewrite F. cbv zeta.
    destruct (recv.heap_add_packet M _ packet) as [accepted h'].
    destruct accepted; [destruct (recv.is_complete M h') eqn:Cp|];
      cbn [recv.after recv.calls recv.with_heaps recv.heaps].
    + split; [exact I|]. constructor; [|constructor].
      apply incomplete_only_ready. exact I.
    + assert (L : incomplete M (recv.deque_insert (recv.heaps s) ib h')).
      { unfold recv.deque_insert, incomplete in *.
        rewrite <- (firstn_skipn ib (recv.heaps s)) in I.
        apply Forall_app in I as (I1 & I2).
        apply Forall_app. split; [exact I1|]. constructor; assumption. }
      destruct (recv.max_heaps s <? size _);
        cbn [recv.after recv.calls recv.with_heaps recv.heaps].
      * split.
        -- unfold incomplete in *.
           destruct (recv.deque_insert (recv.heaps s) ib h');
             [constructor|].
           cbn [tl]. apply Forall_cons_iff in L. apply L.
        -- destruct (recv.deque_insert (recv.heaps s) ib h') eqn:El;
             constructor; [|constructor].
           apply incomplete_only_ready. exact L.
      * split; [exact L | constructor].
    + split; [exact I | constructor].
Qed.

Lemma flush_incomplete (s : recv.stream_base) :
  incomplete M (recv.heaps s) ->
  incomplete M (recv.heaps (fst (recv.flush s)))
  /\ Forall (complete_only_if_ready M) (snd (recv.flush s))
  /\ Forall (fun c => recv.is_complete M (recv.ready_heap c) = false)
       (snd (recv.flush s)).
Proof.
  intros I. unfold recv.flush. cbn [fst snd recv.with_heaps recv.heaps].
  split; [constructor|]. split.
  - apply Forall_map, Forall_forall. intros h _.
    apply incomplete_only_ready. exact I.
  - apply Forall_map. cbn [recv.ready_heap]. exact I.
Qed.

Lemma perform_incomplete (s s' : recv.stream_base) (op : recv.operation)
    (calls : list recv.ready_call) :
  incomplete M (recv.heaps s) ->
  recv.perform M s op = Returns (s', calls) ->
  incomplete M (recv.heaps s') /\ Forall (complete_only_if_ready M) calls.
Proof.
  intros I H. destruct op as [packet | n | p | |]; cbn [recv.perform] in H.
  - bind_inv H. destruct a as [[r s1] calls1]. cbn [fst snd] in H.
    apply Returns_inj in H. injection H as -> ->.
    unfold recv.add_packet in E. bind_inv E. clear E0.
    destruct (dispatch_incomplete s packet I) as (D1 & D2).
    destruct (recv.saw_end_of_stream _).
    + destruct (flush_incomplete
                  {| recv.max_heaps :=
                       recv.max_heaps (recv.after (recv.dispatch M s packet));
                     recv.heaps :=
                       recv.heaps (recv.after (recv.dispatch M s packet));
                     recv.stopped := true;
                     recv.bug_compat :=
                       recv.bug_compat (recv.after (recv.dispatch M s packet));
                     recv.pool :=
                       recv.pool (recv.after (recv.dispatch M s packet)) |} D1)
        as (F1 & F2 & _).
      unfold recv.stop in E. destruct (recv.flush _) as [s2 flushed].
      cbn [fst snd] in F1, F2.
      apply Returns_inj in E. injection E as _ <- <-.
      split; [exact F1|]. apply Forall_app. split; assumption.
    + apply Returns_inj in E. injection E as _ <- <-. split; assumption.
  - apply Returns_inj in H. injection H as <- <-. split; [exact I|constructor].
  - apply Returns_inj in H. injection H as <- <-. split; [exact I|constructor].
  - apply Returns_inj in H. destruct (flush_incomplete s I) as (F1 & F2 & _).
    rewrite H in F1, F2. split; assumption.
  - apply Returns_inj in H.
    destruct (flush_incomplete
                {| recv.max_heaps := recv.max_heaps s;
                   recv.heaps := recv.heaps s; recv.stopped := true;
                   recv.bug_compat := recv.bug_compat s;
                   recv.pool := recv.pool s |} I) as (F1 & F2 & _).
    unfold recv.stop in H. rewrite H in F1, F2. split; assumption.
Qed.

Lemma run_incomplete (ops : list recv.operation) :
  forall (s s' : recv.stream_base) (calls : list recv.ready_call),
    incomplete M (recv.heaps s) ->
    recv.run M s ops = Returns (s', calls) ->
    incomplete M (recv.heaps s') /\ Forall (complete_only_if_ready M) calls.
Proof.
  induction ops as [|op ops IH]; intros s s' calls I H; cbn [recv.run] in H.
  - apply Returns_inj in H. injection H as <- <-. split; [exact I|constructor].
  - bind_inv H. destruct a as [s1 calls1]. cbn [fst snd] in H.
    bind_inv H. destruct a as [s2 calls2]. cbn [fst snd] in H.
    apply Returns_inj in H. injection H as <- <-.
    destruct (perform_incomplete _ _ _ _ I E) as (P1 & P2).
    destruct (IH _ _ _ P1 E0) as (Q1 & Q2).
    split; [exact Q1|]. apply Forall_app. split; assumption.
Qed.

End completeness.

(** X13.  A complete heap never stays live.  With a heap that a rejected
    packet leaves unchanged, after any sequence of public operations on a
    newly constructed stream no live heap is complete, and at every call
    of [heap_ready] the only heap of the live collection that can be
    complete is the one being handed over.  In particular [flush] and
    [stop] on such a stream hand over incomplete heaps only. *)
Theorem complete_heaps_do_not_stay_live (M : recv.heap_members)
    (bug_compat max_heaps : Z) (ops : list recv.operation)
    (s' : recv.stream_base) (calls : list recv.ready_call) :
  rejection_leaves_heap M ->
  recv.run M (recv.stream_base_ctor bug_compat max_heaps) ops
    = Returns (s', calls) ->
  incomplete M (recv.heaps s')
  /\ Forall (complete_only_if_ready M) calls
  /\ Forall (fun c => recv.is_complete M (recv.ready_heap c) = false)
       (snd (recv.flush s'))
  /\ Forall (fun c => recv.is_complete M (recv.ready_heap c) = false)
       (snd (recv.stop s')).
Proof.
  intros R H.
  destruct (run_incomplete M R ops (recv.stream_base_ctor bug_compat max_heaps)
              s' calls (Forall_nil _) H) as (I1 & I2).
  split; [exact I1|]. split; [exact I2|]. split.
  - apply (flush_incomplete M s' I1).
  - apply (flush_incomplete M
             {| recv.max_heaps := recv.max_heaps s';
                recv.heaps := recv.heaps s'; recv.stopped := true;
                recv.bug_compat := recv.bug_compat s';
                recv.pool := recv.pool s' |} I1).
Qed.

Lemma complete_heaps_do_not_stay_live_witness :
  exists s' calls,
    recv.run spec_model.members (recv.stream_base_ctor 0 4) completes_heap_2
      = Returns (s', calls)
    /\ handed_over calls = [2]
    /\ cnts (recv.heaps s') = [1; 3]
    /\ incomplete spec_model.members (recv.heaps s')
    /\ Forall (complete_only_if_ready spec_model.members) calls.
Proof.
  run_to E.
  split; [exact E|]. split; [reflexivity|]. split; [reflexivity|].
  pose proof (complete_heaps_do_not_stay_live spec_model.members 0 4 _ _ _
                spec_model_rejection E) as (I1 & I2 & _).
  split; assumption.
Defined.

(** ** Scanning again *)

Section rescanning.

Variable M : recv.heap_members.
Variable decode_packet : list Z -> recv.packet_header * Z.

Lemma mem_to_stream_loop_rest (n : nat) :
  forall (buf : list Z) (s : recv.stream_base) (ptr0 : Z)
         (passed0 : list recv.packet_header) (ready0 : list recv.ready_call)
         (r : recv.scan),
    (length buf <= n)%nat ->
    recv.mem_to_stream_loop M decode_packet s buf ptr0 passed0 ready0
      = Returns r ->
    0 <= recv.ptr r - ptr0
    /\ forall (p : Z) (q : list recv.packet_header) (rd : list recv.ready_call),
         recv.mem_to_stream_loop M decode_packet (recv.stream_after r)
           (skipn (Z.to_nat (recv.ptr r - ptr0)) buf) p q rd
         = Returns {| recv.stream_after := recv.stream_after r;
                      recv.passed := q; recv.ready := rd; recv.ptr := p |}.
Proof.
  induction n as [|n IH]; intros buf s ptr0 passed0 ready0 r Hn H;
    rewrite mem_to_stream_loop_step in H.
  - assert (Hb : (0 <? size buf) = false)
      by (apply Z.ltb_ge; unfold size; lia).
    rewrite Hb in H. cbn [andb] in H.
    apply Returns_inj in H. subst r. cbn [recv.ptr recv.stream_after].
    rewrite Z.sub_diag. split; [lia|]. intros p q rd. cbn [Z.to_nat skipn].
    rewrite mem_to_stream_loop_step, Hb. reflexivity.
  - destruct ((0 <? size buf) && negb (recv.stopped s)) eqn:Hc.
    + destruct (0 <? snd (decode_packet buf)) eqn:Hs.
      * bind_inv H. destruct a as [[b s1] calls1]. cbn [fst snd] in H.
        apply andb_prop in Hc as [Hb _]. apply Z.ltb_lt in Hb, Hs.
        set (sz := snd (decode_packet buf)) in *.
        assert (Hl : (length (skipn (Z.to_nat sz) buf) <= n)%nat)
          by (rewrite length_skipn; unfold size in Hb; lia).
        destruct (IH _ _ _ _ _ r Hl H) as (P & Q).
        split; [lia|]. intros p q rd.
        replace (Z.to_nat (recv.ptr r - ptr0))
          with (Z.to_nat (recv.ptr r - (ptr0 + sz)) + Z.to_nat sz)%nat by lia.
        rewrite <- skipn_skipn. apply Q.
      * apply Returns_inj in H. subst r. cbn [recv.ptr recv.stream_after].
        rewrite Z.sub_diag. split; [lia|]. intros p q rd. cbn [Z.to_nat skipn].
        rewrite mem_to_stream_loop_step, Hc, Hs. reflexivity.
    + apply Returns_inj in H. subst r. cbn [recv.ptr recv.stream_after].
      rewrite Z.sub_diag. split; [lia|]. intros p q rd. cbn [Z.to_nat skipn].
      rewrite mem_to_stream_loop_step, Hc. reflexivity.
Qed.

End rescanning.

(** X14.  [mem_to_stream] takes all it can.  With a decoder that stays
    within the buffer, the scan of a stopped stream hands no packet on and
    returns the pointer it was given; and after any scan, scanning again
    from the pointer returned, on the stream as the scan left it, hands no
    packet to [add_packet], makes no call of [heap_ready] and returns that
    same pointer. *)
Theorem mem_to_stream_leaves_nothing_to_scan (M : recv.heap_members)
    (decode_packet : list Z -> recv.packet_header * Z)
    (s : recv.stream_base) (buf : list Z) (r : recv.scan) :
  decoder_in_bounds decode_packet ->
  recv.mem_to_stream M decode_packet s buf = Returns r ->
  0 <= recv.ptr r
  /\ recv.mem_to_stream M decode_packet (recv.stream_after r)
       (skipn (Z.to_nat (recv.ptr r)) buf)
     = Returns {| recv.stream_after := recv.stream_after r;
                  recv.passed := []; recv.ready := []; recv.ptr := 0 |}
  /\ (recv.stopped s = true ->
      r = {| recv.stream_after := s; recv.passed := []; recv.ready := [];
             recv.ptr := 0 |}).
Proof.
  intros _ H. unfold recv.mem_to_stream in *.
  destruct (mem_to_stream_loop_rest M decode_packet (length buf) buf s 0 [] [] r
              (le_n _) H) as (P & Q).
  rewrite Z.sub_0_r in P, Q.
  split; [exact P|]. split; [apply Q|].
  intros St. rewrite mem_to_stream_loop_step, St, andb_false_r in H.
  apply Returns_inj in H. symmetry. exact H.
Qed.

Lemma mem_to_stream_leaves_nothing_to_scan_witness :
  exists r,
    recv.mem_to_stream spec_model.members spec_model.decode_packet
      (recv.stream_base_ctor 0 4) stop_buffer = Returns r
    /\ recv.ptr r = 56
    /\ recv.stopped (recv.stream_after r) = true
    /\ length (skipn (Z.to_nat (recv.ptr r)) stop_buffer) = 48%nat
    /\ recv.mem_to_stream spec_model.members spec_model.decode_packet
         (recv.stream_after r) (skipn (Z.to_nat (recv.ptr r)) stop_buffer)
       = Returns {| recv.stream_after := recv.stream_after r;
                    recv.passed := []; recv.ready := []; recv.ptr := 0 |}.
Proof.
  match goal with
  | |- exists r, ?X = _ /\ _ =>
      let v := eval vm_compute in X in
      match v with
      | Returns ?r0 =>
          exists r0; assert (E : X = Returns r0) by (vm_compute; reflexivity)
      end
  end.
  split; [exact E|]. split; [reflexivity|]. split; [reflexivity|].
  split; [reflexivity|].
  exact (proj1 (proj2 (mem_to_stream_leaves_nothing_to_scan spec_model.members
                         spec_model.decode_packet _ stop_buffer _
                         spec_model_decoder_in_bounds E))).
Defined.

(** ** The readers of a [stream] *)

Lemma stop_readers_step (rs : list recv.stream.reader)
    (ev : list recv.stream.event) :
  recv.stream.stop_readers rs ev =
  match rs with
  | [] => (rs, ev)
  | r :: _ =>
      recv.stream.stop_readers (removelast rs)
        (ev ++ [recv.stream.Reader_stop (last rs r)])
  end.
Proof.
  funelim (recv.stream.stop_readers rs ev); reflexivity.
Qed.

Lemma stop_readers_spec (rs : list recv.stream.reader) :
  forall ev : list recv.stream.event,
    recv.stream.stop_readers rs ev
    = ([], ev ++ map recv.stream.Reader_stop (rev rs)).
Proof.
  induction rs as [|x l IH] using rev_ind; intros ev.
  - rewrite stop_readers_step. cbn [rev map]. rewrite app_nil_r. reflexivity.
  - rewrite stop_readers_step.
    destruct (l ++ [x]) as [|r l'] eqn:E;
      [destruct l; discriminate E|].
    rewrite <- E, removelast_last, last_last, IH, rev_app_distr.
    cbn [rev app map]. rewrite <- app_assoc. reflexivity.
Qed.

Lemma started_app (a b : list recv.stream.event) :
  started (a ++ b) = started a ++ started b.
Proof. apply flat_map_app. Qed.

Lemma stopped_readers_app (a b : list recv.stream.event) :
  stopped_readers (a ++ b) = stopped_readers a ++ stopped_readers b.
Proof. apply flat_map_app. Qed.

Lemma started_stops (rs : list recv.stream.reader) :
  started (map recv.stream.Reader_stop rs) = []
  /\ stopped_readers (map recv.stream.Reader_stop rs) = rs.
Proof.
  induction rs as [|r rs [IH1 IH2]]; [split; reflexivity|].
  split; cbn; [exact IH1 | rewrite <- IH2 at 2; reflexivity].
Qed.

Lemma started_ready (cs : list recv.ready_call) :
  started (map recv.stream.Heap_ready cs) = []
  /\ stopped_readers (map recv.stream.Heap_ready cs) = [].
Proof.
  induction cs as [|c cs [IH1 IH2]]; split; trivial.
Qed.

(** X15.  [stream::stop] stops the readers last in, first out, before any
    heap is flushed.  Whatever readers the stream has, the task of [stop]
    calls [stop] on each of them once, in the reverse of the order in which
    they were added, only then hands the live heaps to [heap_ready] as
    [stream_base::stop] does, and leaves the stream with no reader, stopped
    and holding no heap. *)
Theorem stream_stop_stops_readers_last_first (s : recv.stream.t) :
  recv.stream.stop s
  = ({| recv.stream.base := fst (recv.stop (recv.stream.base s));
        recv.stream.readers := [] |},
     map recv.stream.Reader_stop (rev (recv.stream.readers s))
       ++ map recv.stream.Heap_ready (snd (recv.stop (recv.stream.base s))))
  /\ snd (recv.stop (recv.stream.base s))
     = snd (recv.flush (recv.stream.base s))
  /\ shut_down (fst (recv.stop (recv.stream.base s))).
Proof.
  unfold recv.stream.stop. rewrite stop_readers_spec.
  destruct (recv.stop (recv.stream.base s)) as [b calls] eqn:E.
  cbn [fst snd app]. split; [reflexivity|].
  unfold recv.stop, recv.flush in *. injection E as <- <-.
  cbn [recv.heaps recv.with_heaps recv.stopped snd].
  split; [reflexivity | split; reflexivity].
Qed.

Lemma stream_stop_spec (s : recv.stream.t) :
  recv.stream.stop s
  = ({| recv.stream.base := fst (recv.stop (recv.stream.base s));
        recv.stream.readers := [] |},
     map recv.stream.Reader_stop (rev (recv.stream.readers s))
       ++ map recv.stream.Heap_ready (snd (recv.stop (recv.stream.base s)))).
Proof.
  unfold recv.stream.stop. rewrite stop_readers_spec.
  destruct (recv.stop (recv.stream.base s)) as [b calls].
  reflexivity.
Qed.

Lemma stream_run_readers (ops : list recv.stream.operation) :
  forall s : recv.stream.t,
    Permutation
      (started (snd (recv.stream.run s ops)) ++ recv.stream.readers s)
      (stopped_readers (snd (recv.stream.run s ops))
         ++ recv.stream.readers (fst (recv.stream.run s ops))).
Proof.
  induction ops as [|op ops IH]; intros s; cbn [recv.stream.run].
  - reflexivity.
  - destruct op as [r|]; cbn [recv.stream.perform].
    + unfold recv.stream.emplace_reader.
      specialize (IH {| recv.stream.base := recv.stream.base s;
                        recv.stream.readers := recv.stream.readers s ++ [r] |}).
      destruct (recv.stream.run _ ops) as [s2 ev2]. cbn [fst snd] in *.
      cbn [recv.stream.readers] in IH.
      rewrite started_app, stopped_readers_app.
      change (started [recv.stream.Reader_start r]) with [r].
      change (stopped_readers [recv.stream.Reader_start r])
        with (@nil recv.stream.reader).
      cbn [app]. etransitivity; [|exact IH].
      rewrite app_assoc. apply Permutation_cons_append.
    + rewrite stream_stop_spec.
      specialize (IH {| recv.stream.base :=
                          fst (recv.stop (recv.stream.base s));
                        recv.stream.readers := [] |}).
      destruct (recv.stream.run _ ops) as [s2 ev2]. cbn [fst snd] in *.
      cbn [recv.stream.readers] in IH. rewrite app_nil_r in IH.
      rewrite !started_app, !stopped_readers_app.
      rewrite (proj1 (started_stops _)), (proj2 (started_stops _)),
        (proj1 (started_ready _)), (proj2 (started_ready _)).
      cbn [app]. rewrite app_nil_r, <- app_assoc.
      etransitivity; [apply Permutation_app_tail; exact IH|].
      etransitivity; [apply Permutation_app_comm|].
      apply Permutation_app_tail, Permutation_rev.
Qed.

(** X16.  Every reader is stopped, once.  After any sequence of
    [emplace_reader] and [stop] on a newly constructed [stream], the
    readers the stream holds are those started and not yet stopped; once
    the destructor has run every reader that was started has been stopped
    exactly as often as it was started, the stream holds no reader, and it
    is stopped with no heap left. *)
Theorem every_reader_is_stopped (bug_compat max_heaps : Z)
    (ops : list recv.stream.operation) :
  let r := recv.stream.run (recv.stream.ctor bug_compat max_heaps) ops in
  let d := recv.stream.dtor (fst r) in
  Permutation (started (snd r))
    (stopped_readers (snd r) ++ recv.stream.readers (fst r))
  /\ Permutation (started (snd r ++ snd d)) (stopped_readers (snd r ++ snd d))
  /\ recv.stream.readers (fst d) = []
  /\ shut_down (recv.stream.base (fst d)).
Proof.
  intros r d.
  pose proof (stream_run_readers ops (recv.stream.ctor bug_compat max_heaps))
    as P.
  fold r in P. cbn [recv.stream.ctor recv.stream.readers] in P.
  rewrite app_nil_r in P.
  split; [exact P|]. subst d. unfold recv.stream.dtor.
  rewrite stream_stop_spec. cbn [fst snd recv.stream.readers recv.stream.base].
  split; [|split; [reflexivity | split; reflexivity]].
  rewrite !started_app, !stopped_readers_app.
  rewrite (proj1 (started_stops _)), (proj2 (started_stops _)),
    (proj1 (started_ready _)), (proj2 (started_ready _)).
  cbn [app]. rewrite !app_nil_r.
  etransitivity; [exact P|].
  apply Permutation_app_head, Permutation_rev.
Qed.

(** ** The interpreter lock *)

Lemma gil_after_app (a b : list py.event) :
  forall saved : option py.thread_state,
    gil_after saved (a ++ b)
    = match gil_after saved a with
      | Some saved' => gil_after saved' b
      | None => None
      end.
Proof.
  induction a as [|e a IH]; intros saved; [reflexivity|].
  destruct e, saved as [t'|]; cbn [app gil_after]; try reflexivity;
    try apply IH.
  destruct (tstate =? t'); [apply IH | reflexivity].
Qed.

Lemma calls_alternate (cs : list py.call) :
  forall g : py.release_gil,
    never_null cs ->
    (alternate (negb (py.save g =? py.nullptr)) cs = true ->
     exists g' tr,
       py.calls g cs = Returns (g', tr)
       /\ gil_after (lock_state g) tr = Some (lock_state g'))
    /\ (alternate (negb (py.save g =? py.nullptr)) cs = false ->
        py.calls g cs = Assertion_fails).
Proof.
  induction cs as [|c cs IH]; intros g N.
  - split; [|discriminate]. intros _. exists g, []. split; reflexivity.
  - apply Forall_cons_iff in N as (Nc & N).
    cbn [alternate py.calls].
    destruct c as [returned|]; unfold py.release, py.acquire, lock_state;
      destruct (py.save g =? py.nullptr) eqn:Eg;
      cbn [negb andb assert bind fst snd];
      try (split; [discriminate | reflexivity]).
    + destruct (IH {| py.save := returned |} N) as (I1 & I2).
      cbn [py.save] in I1, I2.
      apply Z.eqb_neq in Nc. unfold lock_state in I1. cbn [py.save] in I1.
      rewrite Nc in I1, I2. cbn [negb] in I1, I2.
      split; intros A.
      * destruct (I1 A) as (g' & tr & -> & G). exists g', (py.PyEval_SaveThread returned :: tr).
        split; [reflexivity|]. cbn [gil_after]. exact G.
      * rewrite (I2 A). reflexivity.
    + destruct (IH {| py.save := py.nullptr |} N) as (I1 & I2).
      unfold lock_state in I1. cbn [py.save] in I1, I2.
      change (py.nullptr =? py.nullptr) with true in I1, I2.
      cbn [negb] in I1, I2.
      split; intros A.
      * destruct (I1 A) as (g' & tr & -> & G).
        exists g', (py.PyEval_RestoreThread (py.save g) :: tr).
        split; [reflexivity|]. cbn [gil_after]. rewrite Z.eqb_refl. exact G.
      * rewrite (I2 A). reflexivity.
Qed.

Lemma dtor_takes_lock (g : py.release_gil) :
  gil_after (lock_state g) (py.dtor g) = Some None.
Proof.
  unfold py.dtor, lock_state. destruct (py.save g =? py.nullptr);
    cbn [negb gil_after]; [reflexivity|].
  rewrite Z.eqb_refl. reflexivity.
Qed.

(** X17.  A [release_gil] object follows the discipline of the interpreter
    lock exactly when [acquire] and [release] are called in turns.  With
    [PyEval_SaveThread] never returning a null thread state: if the calls
    between construction and destruction take turns, starting with
    [acquire], then no assertion fails, the lock is released only when held
    and taken back only when released, each time with the thread state
    saved last, and the destructor leaves the lock held; if they do not
    take turns, an assertion of the object fails. *)
Theorem release_gil_follows_lock_discipline (returned : py.thread_state)
    (cs : list py.call) :
  returned <> py.nullptr ->
  never_null cs ->
  (alternate true cs = true ->
   exists tr, py.lifetime returned cs = Returns tr
              /\ gil_after None tr = Some None)
  /\ (alternate true cs = false -> py.lifetime returned cs = Assertion_fails).
Proof.
  intros Nr N. apply Z.eqb_neq in Nr.
  destruct (calls_alternate cs {| py.save := returned |} N) as (I1 & I2).
  unfold lock_state in I1. cbn [py.save] in I1, I2. rewrite Nr in I1, I2.
  cbn [negb] in I1, I2.
  unfold py.lifetime, py.ctor, py.release.
  change (py.save {| py.save := py.nullptr |} =? py.nullptr) with true.
  cbn [assert bind fst snd].
  split; intros A.
  - destruct (I1 A) as (g' & tr & -> & G). cbn [bind fst snd].
    eexists. split; [reflexivity|].
    cbn [app gil_after]. rewrite gil_after_app, G. apply dtor_takes_lock.
  - rewrite (I2 A). reflexivity.
Qed.

Lemma release_gil_follows_lock_discipline_witness :
  (exists tr,
     py.lifetime 7 [py.Acquire; py.Release 9; py.Acquire] = Returns tr
     /\ gil_after None tr = Some None)
  /\ py.lifetime 7 [py.Acquire; py.Acquire] = Assertion_fails
  /\ py.lifetime 7 [py.Acquire; py.Release 9]
     = Returns [py.PyEval_SaveThread 7; py.PyEval_RestoreThread 7;
                py.PyEval_SaveThread 9; py.PyEval_RestoreThread 9].
Proof.
  assert (N7 : 7 <> py.nullptr) by discriminate.
  assert (Na : never_null [py.Acquire; py.Release 9; py.Acquire])
    by (repeat constructor; discriminate).
  assert (Nb : never_null [py.Acquire; py.Acquire])
    by (repeat constructor).
  split; [|split].
  - apply (proj1 (release_gil_follows_lock_discipline 7
                    [py.Acquire; py.Release 9; py.Acquire] N7 Na)).
    reflexivity.
  - apply (proj2 (release_gil_follows_lock_discipline 7
                    [py.Acquire; py.Acquire] N7 Nb)).
    reflexivity.
  - reflexivity.
Defined.

Lemma do_body_spec (a : py.attempt) :
  py.tstate a <> py.nullptr ->
  py.do_body a =
  if py.bytes a =? 0 then
    ([py.PyEval_SaveThread (py.tstate a); py.Try_read_byte (py.bytes a);
      py.PyEval_RestoreThread (py.tstate a)],
     Some py.Throws_ringbuffer_stopped)
  else if py.bytes a <? 0 then
    ([py.PyEval_SaveThread (py.tstate a); py.Try_read_byte (py.bytes a);
      py.PyEval_RestoreThread (py.tstate a);
      py.PyErr_CheckSignals (py.signals a)],
     if py.signals a =? -1 then Some py.Throws_error_already_set else None)
  else
    ([py.PyEval_SaveThread (py.tstate a); py.Try_read_byte (py.bytes a);
      py.PyEval_RestoreThread (py.tstate a)],
     None).
Proof.
  intros N. apply Z.eqb_neq in N.
  unfold py.do_body, py.ctor, py.release, py.acquire, py.dtor.
  change (py.save {| py.save := py.nullptr |} =? py.nullptr) with true.
  cbn [assert bind py.save]. rewrite N. cbn [negb assert bind py.save app].
  change (py.nullptr =? py.nullptr) with true. cbn [negb app].
  destruct (py.bytes a =? 0); [reflexivity|].
  destruct (py.bytes a <? 0); [|reflexivity].
  destruct (py.signals a =? -1); reflexivity.
Qed.

Lemma pop_loop_spec (attempts : list py.attempt) :
  Forall (fun a => py.tstate a <> py.nullptr) attempts ->
  gil_after None (fst (py.pop_loop attempts)) = Some None
  /\ snd (py.pop_loop attempts)
     = match first_decisive attempts with
       | None => Some py.Still_waiting
       | Some a =>
           if py.bytes a =? 0 then Some py.Throws_ringbuffer_stopped
           else if py.bytes a <? 0 then Some py.Throws_error_already_set
           else None
       end.
Proof.
  induction 1 as [|a rest Na _ (IH1 & IH2)]; [split; reflexivity|].
  cbn [py.pop_loop first_decisive]. rewrite (do_body_spec a Na).
  destruct (py.bytes a =? 0) eqn:B0.
  - apply Z.eqb_eq in B0.
    assert (B1 : (py.bytes a <? 0) = false) by (apply Z.ltb_ge; lia).
    rewrite B1. cbn [andb fst snd gil_after].
    rewrite Z.eqb_refl, B0. split; reflexivity.
  - destruct (py.bytes a <? 0) eqn:B1.
    + destruct (py.signals a =? -1) eqn:S1; cbn [andb negb fst snd].
      * rewrite B0, B1. cbn [gil_after]. rewrite Z.eqb_refl.
        split; reflexivity.
      * destruct (py.pop_loop rest) as [ev' e']. cbn [fst snd] in *.
        split; [|exact IH2].
        cbn [app gil_after]. rewrite Z.eqb_refl. exact IH1.
    + cbn [andb fst snd gil_after]. rewrite Z.eqb_refl, B0, B1.
      split; reflexivity.
Qed.

(** X18.  [ringbuffer_fd_gil<T>::pop] gives the lock back, however it
    ends.  With [PyEval_SaveThread] never returning a null thread state,
    whatever the reads and the signal checks return: the lock is released
    around each [try_read_byte] and only there, [PyErr_CheckSignals], the
    mutex and [pop_unlocked] are reached with the lock held, and the lock
    is held when [pop] returns the item, when it throws
    [ringbuffer_stopped], when it throws the Python error, and between
    any two passes of the loop.  Reads that time out with no signal
    pending are passed over; the first other attempt decides how [pop]
    ends, and no assertion of [release_gil] ever fails. *)
Theorem pop_gives_the_lock_back (attempts : list py.attempt) (empty : bool) :
  Forall (fun a => py.tstate a <> py.nullptr) attempts ->
  gil_after None (fst (py.pop attempts empty)) = Some None
  /\ snd (py.pop attempts empty) = pop_ending attempts empty.
Proof.
  intros N. destruct (pop_loop_spec attempts N) as (G & En).
  unfold py.pop, pop_ending.
  destruct (py.pop_loop attempts) as [ev e]. cbn [fst snd] in G, En.
  destruct (first_decisive attempts) as [a|].
  - destruct (py.bytes a =? 0); [subst e; split; [exact G | reflexivity]|].
    destruct (py.bytes a <? 0); [subst e; split; [exact G | reflexivity]|].
    subst e. destruct empty; cbn [negb fst snd];
      (split; [|reflexivity]); rewrite gil_after_app, G; reflexivity.
  - subst e. split; [exact G | reflexivity].
Qed.

Lemma pop_gives_the_lock_back_witness :
  (gil_after None
     (fst (py.pop [read_times_out; read_ready; read_interrupted] false))
   = Some None
   /\ snd (py.pop [read_times_out; read_ready; read_interrupted] false)
      = py.Returns_item)
  /\ (gil_after None
        (fst (py.pop [read_times_out; read_interrupted; read_ready] false))
      = Some None
      /\ snd (py.pop [read_times_out; read_interrupted; read_ready] false)
         = py.Throws_error_already_set)
  /\ fst (py.pop [read_times_out; read_ready] false)
     = [py.PyEval_SaveThread 5; py.Try_read_byte (-1);
        py.PyEval_RestoreThread 5; py.PyErr_CheckSignals 0;
        py.PyEval_SaveThread 5; py.Try_read_byte 1;
        py.PyEval_RestoreThread 5; py.Lock_mutex; py.Pop_unlocked].
Proof.
  assert (Na : Forall (fun a => py.tstate a <> py.nullptr)
                 [read_times_out; read_ready; read_interrupted])
    by (repeat constructor; discriminate).
  assert (Nb : Forall (fun a => py.tstate a <> py.nullptr)
                 [read_times_out; read_interrupted; read_ready])
    by (repeat constructor; discriminate).
  split; [|split].
  - exact (pop_gives_the_lock_back
             [read_times_out; read_ready; read_interrupted] false Na).
  - exact (pop_gives_the_lock_back
             [read_times_out; read_interrupted; read_ready] false Nb).
  - reflexivity.
Defined.
